(** * The job queue of the NoTag downloader (lib/video-utils.ts)

    A shallow embedding of [VideoProcessingQueue] and of [VideoProcessor],
    together with the routes that call them (download, status and file),
    [PlatformValidator] and the URL check of the client.

    JavaScript objects are references.  [addJob] creates one job object and
    stores a reference to it in the [jobs] map; [processNextJob] and
    [processJob] keep that reference in their local variables, while
    [updateProgress] stores a fresh shallow copy ([{ ...job }]) in the map.
    The embedding therefore has an explicit object store ([heap]) and the
    map holds locations, so that what [getJob] returns and what the running
    activation mutates can be told apart.

    An [async] function runs without interruption up to its next
    [await new Promise(resolve => setTimeout(resolve, ..))]; the segments
    between two such points are the atomic steps of the model.  Resuming
    after an [await] on an already settled promise is a microtask and is
    merged into the segment that settled it. *)

From Stdlib Require Import QArith Qround Ascii.
From stdpp Require Import base option list strings pretty gmap sorting.

Local Open Scope string_scope.

(** ** Data model *)

(** [number] fields hold IEEE doubles in the source.  Every value the queue
    computes is a small integer or a multiple of one half, on which double
    arithmetic is exact, so percentages and remaining times are rationals
    here. *)

Record VideoMetadata := {
  title : string;
  description : option string;
  duration : Z;
  thumbnail : string;
  uploader : string;
  uploadDate : string;
  viewCount : option Z;
  likeCount : option Z
}.

Record DownloadOptions := {
  quality : string;
  format : string;
  audioOnly : bool;
  removeWatermark : bool
}.

Module Stage.
Inductive t := analyzing | downloading | processing | converting | finalizing.
#[global] Instance eq_dec : EqDecision t.
Proof. solve_decision. Defined.
End Stage.

Module Status.
Inductive t := queued | processing | completed | failed.
#[global] Instance eq_dec : EqDecision t.
Proof. solve_decision. Defined.
End Status.

Module Progress.
Record t := {
  stage : Stage.t;
  progress : Q;
  message : string;
  estimatedTimeRemaining : option Q
}.
End Progress.

Record JobResult := {
  filePath : string;
  metadata : VideoMetadata;
  downloadUrl : string
}.

Module Job.
Record t := {
  id : string;
  url : string;
  settings : DownloadOptions;
  status : Status.t;
  progress : Progress.t;
  result : option JobResult;
  error : option string;
  createdAt : N;
  completedAt : option N
}.

(** Assignments to one property of a job object. *)
Definition set_status (s : Status.t) (j : t) : t :=
  {| id := id j; url := url j; settings := settings j; status := s;
     progress := progress j; result := result j; error := error j;
     createdAt := createdAt j; completedAt := completedAt j |}.
Definition set_progress (p : Progress.t) (j : t) : t :=
  {| id := id j; url := url j; settings := settings j; status := status j;
     progress := p; result := result j; error := error j;
     createdAt := createdAt j; completedAt := completedAt j |}.
Definition set_result (r : JobResult) (j : t) : t :=
  {| id := id j; url := url j; settings := settings j; status := status j;
     progress := progress j; result := Some r; error := error j;
     createdAt := createdAt j; completedAt := completedAt j |}.
Definition set_error (e : string) (j : t) : t :=
  {| id := id j; url := url j; settings := settings j; status := status j;
     progress := progress j; result := result j; error := Some e;
     createdAt := createdAt j; completedAt := completedAt j |}.
Definition set_completedAt (d : N) (j : t) : t :=
  {| id := id j; url := url j; settings := settings j; status := status j;
     progress := progress j; result := result j; error := error j;
     createdAt := createdAt j; completedAt := Some d |}.
End Job.

(** ** The map of jobs

    A JavaScript [Map] iterates in insertion order, and [set] on a key that
    is present replaces the value and keeps the position.  The values are
    references into the object store. *)

Fixpoint map_set (k : string) (v : nat) (m : list (string * nat))
  : list (string * nat) :=
  match m with
  | [] => [(k, v)]
  | (k', v') :: m' =>
      if decide (k = k') then (k, v) :: m' else (k', v') :: map_set k v m'
  end.

Fixpoint map_get (k : string) (m : list (string * nat)) : option nat :=
  match m with
  | [] => None
  | (k', v') :: m' => if decide (k = k') then Some v' else map_get k m'
  end.

(** ** Suspended activations

    One activation of [processNextJob] that has admitted a job and is
    waiting inside [processJob].  [self] is the reference held by the local
    variables [queuedJob] and [job]; the program counter names the [await]
    the activation is suspended at, and carries the local [metadata] once
    it is bound. *)

Inductive Pc :=
  | AwaitAnalyze                                   (* processJob, stage 1: 1000 ms *)
  | AwaitMetadata                                  (* extractMetadata: 800 ms *)
  | AwaitDownloadStep (i : nat) (m : VideoMetadata) (* simulateDownloadProgress, iteration i: 500 ms *)
  | AwaitWatermark (m : VideoMetadata)             (* processJob, stage 3: 2000 ms *)
  | AwaitConvert (m : VideoMetadata)               (* processJob, stage 4: 1500 ms *)
  | AwaitFinalize (m : VideoMetadata).             (* processJob, stage 5: 500 ms *)

Record Activation := { self : nat; pc : Pc }.

(** ** State of the process *)

Record World := {
  heap : list Job.t;                     (* object store, a reference is an index *)
  jobs : list (string * nat);            (* VideoProcessingQueue.jobs *)
  activeJobs : gset string;              (* VideoProcessingQueue.activeJobs *)
  maxConcurrentJobs : nat;               (* VideoProcessingQueue.maxConcurrentJobs *)
  timers : nat;                          (* pending setTimeout(() => this.processNextJob(), 100) *)
  suspended : list Activation;           (* activations waiting at an await *)
  history : list (nat * Progress.t)      (* every assignment to a .progress property, newest first *)
}.

Definition with_heap (h : list Job.t) (w : World) : World :=
  {| heap := h; jobs := jobs w; activeJobs := activeJobs w;
     maxConcurrentJobs := maxConcurrentJobs w; timers := timers w;
     suspended := suspended w; history := history w |}.
Definition with_jobs (m : list (string * nat)) (w : World) : World :=
  {| heap := heap w; jobs := m; activeJobs := activeJobs w;
     maxConcurrentJobs := maxConcurrentJobs w; timers := timers w;
     suspended := suspended w; history := history w |}.
Definition with_activeJobs (a : gset string) (w : World) : World :=
  {| heap := heap w; jobs := jobs w; activeJobs := a;
     maxConcurrentJobs := maxConcurrentJobs w; timers := timers w;
     suspended := suspended w; history := history w |}.
Definition with_timers (n : nat) (w : World) : World :=
  {| heap := heap w; jobs := jobs w; activeJobs := activeJobs w;
     maxConcurrentJobs := maxConcurrentJobs w; timers := n;
     suspended := suspended w; history := history w |}.
Definition with_suspended (s : list Activation) (w : World) : World :=
  {| heap := heap w; jobs := jobs w; activeJobs := activeJobs w;
     maxConcurrentJobs := maxConcurrentJobs w; timers := timers w;
     suspended := s; history := history w |}.
Definition with_history (h : list (nat * Progress.t)) (w : World) : World :=
  {| heap := heap w; jobs := jobs w; activeJobs := activeJobs w;
     maxConcurrentJobs := maxConcurrentJobs w; timers := timers w;
     suspended := suspended w; history := h |}.

(** [new VideoProcessingQueue()] in a fresh process. *)
Definition new_queue : World :=
  {| heap := []; jobs := []; activeJobs := ∅; maxConcurrentJobs := 3;
     timers := 0; suspended := []; history := [] |}.

(** The same with another value of the field [maxConcurrentJobs]. *)
Definition queue_with_limit (n : nat) : World :=
  {| heap := []; jobs := []; activeJobs := ∅; maxConcurrentJobs := n;
     timers := 0; suspended := []; history := [] |}.

(** What the environment supplies to one step: the readings of
    [Date.now()] and of [new Date()], the string
    [Math.random().toString(36).substr(2, 9)], and the record that
    [generateMockMetadata] builds from its own random draws. *)
Record Env := {
  dateNow : N;
  newDate : N;
  random36 : string;
  mock : VideoMetadata
}.

(** ** Object store *)

(** [o.f = v] for the object at [l]. *)
Definition assign (l : nat) (f : Job.t → Job.t) (w : World) : World :=
  with_heap (alter f l (heap w)) w.

(** [{ ...job }]: a new object with the same properties. *)
Definition alloc (j : Job.t) (w : World) : nat * World :=
  (length (heap w), with_heap (heap w ++ [j]) w).

(** [job.progress = p], recorded in the history. *)
Definition assign_progress (l : nat) (p : Progress.t) (w : World) : World :=
  with_history ((l, p) :: history w) (assign l (Job.set_progress p) w).

(** ** VideoProcessor *)

Section Queue.

(** Built-ins of the platform that the source calls:
    [new URL(url).hostname.toLowerCase()], with [None] when the [URL]
    constructor throws; [Buffer.from(s).toString("base64url")]; and
    [String.prototype.toUpperCase]. *)
Variable hostname : string → option string.
Variable base64url : string → string.
Variable toUpperCase : string → string.

(** [s.includes(sub)] *)
Fixpoint includes (s sub : string) : bool :=
  String.prefix sub s ||
  match s with
  | EmptyString => false
  | String _ s' => includes s' sub
  end.

Definition detectPlatform (url : string) : option string :=
  h ← hostname url;
  Some (if includes h "tiktok" then "tiktok"
        else if includes h "instagram" then "instagram"
        else if includes h "youtube" || includes h "youtu.be" then "youtube"
        else if includes h "linkedin" then "linkedin"
        else "unknown").

(** [extractMetadata]: the [try] block fails only when [detectPlatform]
    throws, and the [catch] turns that into [null]. *)
Definition extractMetadata (env : Env) (url : string) : option VideoMetadata :=
  match detectPlatform url with
  | Some _platform => Some (mock env)
  | None => None
  end.

(** [downloadVideo]: the file path, or the message of the error thrown by
    [detectPlatform]. *)
Definition downloadVideo (env : Env) (url : string) (options : DownloadOptions)
  : string + string :=
  match detectPlatform url with
  | Some _platform =>
      inl ("/tmp/downloads/video_" +:+ pretty (dateNow env) +:+ "." +:+ format options)
  | None => inr "Invalid URL"
  end.

(** ** VideoProcessingQueue *)

Definition initial_progress : Progress.t :=
  {| Progress.stage := Stage.analyzing;
     Progress.progress := 0;
     Progress.message := "Job queued for processing";
     Progress.estimatedTimeRemaining := None |}.

Definition jobId (env : Env) : string :=
  "job_" +:+ pretty (dateNow env) +:+ "_" +:+ random36 env.

Definition addJob (env : Env) (url : string) (settings : DownloadOptions)
    (w : World) : string * World :=
  let job :=
    {| Job.id := jobId env; Job.url := url; Job.settings := settings;
       Job.status := Status.queued; Job.progress := initial_progress;
       Job.result := None; Job.error := None;
       Job.createdAt := newDate env; Job.completedAt := None |} in
  let '(l, w1) := alloc job w in
  let w2 := with_history ((l, initial_progress) :: history w1) w1 in
  let w3 := with_jobs (map_set (jobId env) l (jobs w2)) w2 in
  (jobId env, with_timers (S (timers w3)) w3).

Definition getJob (jobId : string) (w : World) : option Job.t :=
  l ← map_get jobId (jobs w); heap w !! l.

(** [Array.from(this.jobs.values()).find((job) => job.status === "queued")] *)
Fixpoint find_queued (h : list Job.t) (m : list (string * nat)) : option nat :=
  match m with
  | [] => None
  | (_, l) :: m' =>
      match h !! l with
      | Some j =>
          if decide (Job.status j = Status.queued) then Some l
          else find_queued h m'
      | None => find_queued h m'
      end
  end.

(** The closure [updateProgress] of [processJob]. *)
Definition updateProgress (l : nat) (stage : Stage.t) (progress : Q)
    (message : string) (w : World) : option World :=
  let w1 :=
    assign_progress l
      {| Progress.stage := stage; Progress.progress := progress;
         Progress.message := message;
         Progress.estimatedTimeRemaining := None |} w in
  j ← heap w1 !! l;
  let '(c, w2) := alloc j w1 in
  Some (with_jobs (map_set (Job.id j) c (jobs w2)) w2).

(** [simulateDownloadProgress]: the snapshot written by iteration [i]. *)
Definition steps : nat := 10.

Definition download_snapshot (startProgress endProgress : Q) (i : nat)
  : Progress.t :=
  let progressIncrement :=
    ((endProgress - startProgress) / inject_Z (Z.of_nat steps))%Q in
  let currentProgress :=
    (startProgress + progressIncrement * inject_Z (Z.of_nat i))%Q in
  let remainingSteps := (steps - i)%nat in
  let estimatedTime := (inject_Z (Z.of_nat remainingSteps) * (1 # 2))%Q in
  {| Progress.stage := Stage.downloading;
     Progress.progress := currentProgress;
     Progress.message :=
       (* Math.round(x) is the floor of x + 1/2 *)
       "Downloading... " +:+ pretty (Qfloor (currentProgress + (1 # 2))) +:+ "%";
     Progress.estimatedTimeRemaining := Some estimatedTime |}.

(** The snapshots of the one call, [simulateDownloadProgress(job, 30, 60)]. *)
Definition download_substep (i : nat) : Progress.t :=
  download_snapshot 30 60 i.

Definition set_pc (k : nat) (p : Pc) (w : World) : World :=
  with_suspended (alter (λ a, {| self := self a; pc := p |}) k (suspended w)) w.

(** The end of [processNextJob]: the code after [await this.processJob],
    the [catch] and the [finally].  [outcome] is [inr message] when
    [processJob] threw. *)
Definition settle (k l : nat) (env : Env) (outcome : unit + string)
    (w : World) : option World :=
  let w1 :=
    match outcome with
    | inl _ =>
        assign l (Job.set_completedAt (newDate env))
          (assign l (Job.set_status Status.completed) w)
    | inr message =>
        assign l (Job.set_completedAt (newDate env))
          (assign l (Job.set_error message)
             (assign l (Job.set_status Status.failed) w))
    end in
  j ← heap w1 !! l;
  Some (with_suspended (delete k (suspended w1))
          (with_timers (S (timers w1))
             (with_activeJobs (activeJobs w1 ∖ {[Job.id j]}) w1))).

(** [processNextJob], up to the first [await] of [processJob].  The result
    names the admitted job, if any. *)
Definition processNextJob (w : World) : option (option string * World) :=
  if decide (maxConcurrentJobs w ≤ size (activeJobs w))%nat then Some (None, w)
  else
    match find_queued (heap w) (jobs w) with
    | None => Some (None, w)
    | Some l =>
        j ← heap w !! l;
        let w1 := with_activeJobs ({[Job.id j]} ∪ activeJobs w) w in
        let w2 := assign l (Job.set_status Status.processing) w1 in
        w3 ← updateProgress l Stage.analyzing 10
               "Analyzing video URL and extracting metadata..." w2;
        Some (Some (Job.id j),
              with_suspended (suspended w3 ++ [{| self := l; pc := AwaitAnalyze |}]) w3)
    end.

(** [processJob] from the [converting] stage on. *)
Definition convert (k l : nat) (m : VideoMetadata) (j : Job.t) (w : World)
  : option World :=
  w1 ← updateProgress l Stage.converting 80
         ("Converting to " +:+ toUpperCase (format (Job.settings j)) +:+ "...") w;
  Some (set_pc k (AwaitConvert m) w1).

(** The loop of [simulateDownloadProgress] at counter [i], and what
    follows it in [processJob] when the loop ends. *)
Definition download_loop (k l i : nat) (m : VideoMetadata) (j : Job.t)
    (w : World) : option World :=
  if decide (i < steps)%nat then
    Some (set_pc k (AwaitDownloadStep i m)
            (assign_progress l (download_substep i) w))
  else if removeWatermark (Job.settings j) then
    w1 ← updateProgress l Stage.processing 65 "Removing watermarks..." w;
    Some (set_pc k (AwaitWatermark m) w1)
  else convert k l m j w.

(** One activation continues from its [await] to the next one, or to the
    end of [processNextJob]. *)
Definition resume (k : nat) (env : Env) (w : World) : option World :=
  a ← suspended w !! k;
  let l := self a in
  j ← heap w !! l;
  match pc a with
  | AwaitAnalyze => Some (set_pc k AwaitMetadata w)
  | AwaitMetadata =>
      match extractMetadata env (Job.url j) with
      | None => settle k l env (inr "Failed to extract video metadata") w
      | Some m =>
          w1 ← updateProgress l Stage.downloading 30
                 "Downloading video content..." w;
          download_loop k l 0 m j w1
      end
  | AwaitDownloadStep i m => download_loop k l (S i) m j w
  | AwaitWatermark m => convert k l m j w
  | AwaitConvert m =>
      w1 ← updateProgress l Stage.finalizing 95 "Finalizing download..." w;
      Some (set_pc k (AwaitFinalize m) w1)
  | AwaitFinalize m =>
      match downloadVideo env (Job.url j) (Job.settings j) with
      | inr message => settle k l env (inr message) w
      | inl path =>
          let r :=
            {| filePath := path; metadata := m;
               downloadUrl :=
                 "/api/download/file?id=" +:+ base64url (Job.id j) +:+
                 "&format=" +:+ format (Job.settings j) |} in
          w1 ← updateProgress l Stage.finalizing 100
                 "Download completed successfully!"
                 (assign l (Job.set_result r) w);
          settle k l env (inl ()) w1
      end
  end.

(** ** Executions

    What can happen next: a caller invokes [addJob], a pending
    [setTimeout(() => this.processNextJob(), 100)] fires, or the timer an
    activation waits for fires.  Timer durations are not modelled: every
    enabled event may be the next one, which covers every order the event
    loop can produce. *)

Inductive Event :=
  | AddJob (url : string) (settings : DownloadOptions)
  | Timer
  | Resume (k : nat).

Inductive Output :=
  | Returned (jobId : string)
  | Dispatched (admitted : option string)
  | Resumed.

Definition step (env : Env) (ev : Event) (w : World) : option (Output * World) :=
  match ev with
  | AddJob url settings =>
      let '(i, w') := addJob env url settings w in Some (Returned i, w')
  | Timer =>
      match timers w with
      | O => None
      | S n =>
          '(admitted, w') ← processNextJob (with_timers n w);
          Some (Dispatched admitted, w')
      end
  | Resume k => w' ← resume k env w; Some (Resumed, w')
  end.

Fixpoint run (evs : list (Env * Event)) (w : World)
  : option (list Output * World) :=
  match evs with
  | [] => Some ([], w)
  | (env, ev) :: evs' =>
      '(o, w1) ← step env ev w;
      '(os, w2) ← run evs' w1;
      Some (o :: os, w2)
  end.

End Queue.

(** ** What the callers of the queue see *)

(** [Array.from(this.jobs.values())], the records [getAllJobs] sorts. *)
Definition values (w : World) : list Job.t :=
  omap (λ e, heap w !! e.2) (jobs w).

(** The number of jobs a caller finds with a given status. *)
Definition count_status (s : Status.t) (w : World) : nat :=
  length (filter (λ j, Job.status j = s) (values w)).

(** [GET /api/download/status?id=...] *)
Record StatusBody := {
  body_id : string;
  body_status : Status.t;
  body_progress : Progress.t;
  body_createdAt : N;
  body_completedAt : option N;
  body_error : option string;
  body_result : option (string * VideoMetadata)
}.

Inductive Response :=
  | Json (body : StatusBody)
  | JsonError (error : string) (status : nat).

Definition status_GET (id : option string) (w : World) : Response :=
  match id with
  | None | Some "" => JsonError "Job ID is required" 400
  | Some i =>
      match getJob i w with
      | None => JsonError "Job not found" 404
      | Some job =>
          Json {| body_id := Job.id job;
                  body_status := Job.status job;
                  body_progress := Job.progress job;
                  body_createdAt := Job.createdAt job;
                  body_completedAt := Job.completedAt job;
                  body_error := Job.error job;
                  body_result :=
                    (λ r, (downloadUrl r, metadata r)) <$> Job.result job |}
      end
  end.

(** The identifiers returned by [addJob], and the jobs admitted by
    [processNextJob], in the order of the events. *)
Definition returned (os : list Output) : list string :=
  omap (λ o, match o with Returned i => Some i | _ => None end) os.

Definition admitted (os : list Output) : list string :=
  omap (λ o, match o with Dispatched (Some i) => Some i | _ => None end) os.

(** Further calls of [addJob], with no dispatch in between. *)
Definition submissions (more : list (Env * string * DownloadOptions))
    (w : World) : World :=
  foldl (λ w r, (addJob r.1.1 r.1.2 r.2 w).2) w more.

(** ** Object literals used as tables

    The names an object literal inherits from [Object.prototype]: looking
    one of them up in a table written as an object literal gives a
    function or an object, which is truthy and is not a number. *)
Definition object_prototype_names : list string :=
  ["constructor"; "__defineGetter__"; "__defineSetter__"; "hasOwnProperty";
   "__lookupGetter__"; "__lookupSetter__"; "isPrototypeOf";
   "propertyIsEnumerable"; "toString"; "valueOf"; "__proto__";
   "toLocaleString"].

(** ** The list of all jobs (lib/video-utils.ts, getAllJobs) *)

(** [Array.prototype.sort] is stable, and the comparator
    [(a, b) => b.createdAt.getTime() - a.createdAt.getTime()] orders the
    records by decreasing creation time, so the sorted array is determined:
    later creation times first, records of equal creation time in the
    order they had before.  Inserting the records one by one, from the
    last to the first, each before the records that are not newer,
    computes it. *)
Fixpoint insert_by_createdAt (j : Job.t) (sorted : list Job.t) : list Job.t :=
  match sorted with
  | [] => [j]
  | j' :: rest =>
      if decide (Job.createdAt j < Job.createdAt j')%N
      then j' :: insert_by_createdAt j rest
      else j :: sorted
  end.

Definition sort_by_createdAt (l : list Job.t) : list Job.t :=
  foldr insert_by_createdAt [] l.

Definition getAllJobs (w : World) : list Job.t :=
  sort_by_createdAt (values w).

(** ** The status route, POST (app/api/download/status/route.ts) *)

Record JobSummary := {
  summary_id : string;
  summary_url : string;
  summary_status : Status.t;
  summary_progress : Progress.t;
  summary_createdAt : N;
  summary_completedAt : option N
}.

Inductive ListResponse :=
  | JobList (jobs : list JobSummary)
  | ListError (error : string) (status : nat).

Definition summary (job : Job.t) : JobSummary :=
  {| summary_id := Job.id job;
     summary_url := Job.url job;
     summary_status := Job.status job;
     summary_progress := Job.progress job;
     summary_createdAt := Job.createdAt job;
     summary_completedAt := Job.completedAt job |}.

(** [action] is [searchParams.get("action")], [None] when the parameter is
    absent. *)
Definition status_POST (action : option string) (w : World) : ListResponse :=
  if decide (action = Some "list")
  then JobList (summary <$> getAllJobs w)
  else ListError "Invalid action" 400.

(** ** The download route (app/api/download/route.ts) *)

Module DownloadSettings.
Record t := {
  quality : string;
  format : string;
  removeWatermark : bool;
  extractAudio : bool
}.
End DownloadSettings.

Module PlatformConfig.
Record t := {
  name : string;
  domains : list string;
  supportedQualities : list string;
  hasWatermark : bool;
  audioExtraction : bool
}.
End PlatformConfig.

Module DownloadRoute.

(** The entries of the object, in the order [Object.entries] lists them. *)
Definition PLATFORM_CONFIGS : list (string * PlatformConfig.t) :=
  [("tiktok",
    {| PlatformConfig.name := "TikTok";
       PlatformConfig.domains := ["tiktok.com"; "vm.tiktok.com"];
       PlatformConfig.supportedQualities := ["720p"; "480p"];
       PlatformConfig.hasWatermark := true;
       PlatformConfig.audioExtraction := true |});
   ("instagram",
    {| PlatformConfig.name := "Instagram";
       PlatformConfig.domains := ["instagram.com"];
       PlatformConfig.supportedQualities := ["1080p"; "720p"; "480p"];
       PlatformConfig.hasWatermark := false;
       PlatformConfig.audioExtraction := true |});
   ("youtube",
    {| PlatformConfig.name := "YouTube";
       PlatformConfig.domains := ["youtube.com"; "youtu.be"; "m.youtube.com"];
       PlatformConfig.supportedQualities :=
         ["2160p"; "1440p"; "1080p"; "720p"; "480p"; "360p"];
       PlatformConfig.hasWatermark := false;
       PlatformConfig.audioExtraction := true |});
   ("linkedin",
    {| PlatformConfig.name := "LinkedIn";
       PlatformConfig.domains := ["linkedin.com"];
       PlatformConfig.supportedQualities := ["1080p"; "720p"];
       PlatformConfig.hasWatermark := false;
       PlatformConfig.audioExtraction := false |})].

(** [getOptimalQuality].  The numbers it computes with are integers, or
    [NaN], written [None]: subtracting from [undefined], or from a member
    inherited from [Object.prototype], gives [NaN], and a comparison with
    [NaN] is false. *)
Definition qualityMap : list (string * Z) :=
  [("2160p", 2160); ("1440p", 1440); ("1080p", 1080); ("720p", 720);
   ("480p", 480); ("360p", 360)]%Z.

(** [qualityMap[quality]] as an operand of [-]. *)
Definition heightOf (quality : string) : option Z :=
  snd <$> find (λ entry, bool_decide (entry.1 = quality)) qualityMap.

(** [qualityMap[requestedQuality] || 1080] as an operand of [-]. *)
Definition requestedHeight (requestedQuality : string) : option Z :=
  match heightOf requestedQuality with
  | Some n => if decide (n = 0)%Z then Some 1080%Z else Some n
  | None =>
      if bool_decide (requestedQuality ∈ object_prototype_names) then None
      else Some 1080%Z
  end.

(** [Math.abs(qualityMap[quality] - requestedHeight)]; [quality] is [None]
    for [undefined], which is no key of the map. *)
Definition diffOf (requested : option Z) (quality : option string) : option Z :=
  a ← quality ≫= heightOf; r ← requested; Some (Z.abs (a - r)).

(** [diff < bestDiff] *)
Definition less (diff bestDiff : option Z) : bool :=
  match diff, bestDiff with
  | Some d, Some b => bool_decide (d < b)%Z
  | _, _ => false
  end.

Definition getOptimalQuality (requestedQuality : string)
    (availableQualities : list string) : option string :=
  let requested := requestedHeight requestedQuality in
  let bestMatch := head availableQualities in
  let bestDiff := diffOf requested bestMatch in
  fst (foldl
         (λ best quality,
            let diff := diffOf requested (Some quality) in
            if less diff best.2 then (Some quality, diff) else best)
         (bestMatch, bestDiff) availableQualities).

(** The result of [validatePlatformUrl]: [{ isValid: true }] or
    [{ isValid: false, error }]. *)
Inductive Validation :=
  | Valid
  | Invalid (error : string).

(** What the route reads of the request: [request.json()] rejects or gives
    [null] ([Unparsable], the destructuring then throws), or gives an object
    whose [url] is a string or absent and whose [settings] are absent or of
    the declared type. *)
Inductive Body :=
  | Unparsable
  | Parsed (url : option string) (settings : option DownloadSettings.t).

Inductive Reply :=
  | Queued (message jobId statusUrl : string)
  | Refused (message : string) (status : nat).

Section Route.

(** [new URL(url).hostname.toLowerCase()], [None] when the constructor
    throws. *)
Variable hostname : string → option string.

(** [detectPlatform]: the key and the configuration of the first platform
    one of whose domains occurs in the host name; [None] stands for
    [{ platform: null, key: null }]. *)
Definition detectPlatform (url : string) : option (string * PlatformConfig.t) :=
  match hostname url with
  | Some h =>
      find (λ entry, existsb (includes h) (PlatformConfig.domains entry.2))
        PLATFORM_CONFIGS
  | None => None
  end.

(** [validatePlatformUrl]; [None] when [new URL(url)] throws. *)
Definition validatePlatformUrl (url platformKey : string) : option Validation :=
  match hostname url with
  | None => None
  | Some _ =>
      Some
        (if decide (platformKey = "tiktok") then
           if negb (includes url "/video/") && negb (includes url "vm.tiktok.com")
           then Invalid "Invalid TikTok video URL. Please use a direct video link."
           else Valid
         else if decide (platformKey = "instagram") then
           if negb (includes url "/p/") && negb (includes url "/reel/")
              && negb (includes url "/tv/")
           then Invalid "Invalid Instagram URL. Please use a post, reel, or IGTV link."
           else Valid
         else if decide (platformKey = "youtube") then
           if negb (includes url "watch?v=") && negb (includes url "youtu.be/")
              && negb (includes url "/shorts/")
           then Invalid "Invalid YouTube URL. Please use a video or shorts link."
           else Valid
         else if decide (platformKey = "linkedin") then
           if negb (includes url "/posts/") && negb (includes url "/videos/")
           then Invalid "Invalid LinkedIn URL. Please use a post or video link."
           else Valid
         else Valid)
  end.

(** [settings?.extractAudio] and the like. *)
Definition wants_audio (settings : option DownloadSettings.t) : bool :=
  from_option DownloadSettings.extractAudio false settings.

(** The options the route passes to [addJob]. *)
Definition job_options (settings : option DownloadSettings.t) : DownloadOptions :=
  {| quality :=
       match DownloadSettings.quality <$> settings with
       | None | Some "" => "best"
       | Some q => q
       end;
     format :=
       if wants_audio settings then "mp3"
       else match DownloadSettings.format <$> settings with
            | None | Some "" => "mp4"
            | Some f => f
            end;
     audioOnly := wants_audio settings;
     removeWatermark :=
       from_option DownloadSettings.removeWatermark false settings |}.

Definition POST (env : Env) (body : Body) (w : World) : Reply * World :=
  match body with
  | Unparsable => (Refused "Internal server error. Please try again later." 500, w)
  | Parsed None _ | Parsed (Some "") _ => (Refused "URL is required" 400, w)
  | Parsed (Some url) settings =>
      match hostname url with
      | None => (Refused "Invalid URL format" 400, w)
      | Some _ =>
          match detectPlatform url with
          | None =>
              (Refused "Platform not supported. Please use TikTok, Instagram, YouTube, or LinkedIn URLs." 400, w)
          | Some (platformKey, platform) =>
              match validatePlatformUrl url platformKey with
              | None => (Refused "Internal server error. Please try again later." 500, w)
              | Some (Invalid error) => (Refused error 400, w)
              | Some Valid =>
                  if wants_audio settings && negb (PlatformConfig.audioExtraction platform)
                  then (Refused ("Audio extraction is not supported for " +:+
                                 PlatformConfig.name platform +:+ " videos.") 400, w)
                  else
                    let '(jobId, w') := addJob env url (job_options settings) w in
                    (Queued "Video added to processing queue" jobId
                       ("/api/download/status?id=" +:+ jobId), w')
              end
          end
      end
  end.

End Route.

End DownloadRoute.

(** ** The server

    What reaches the queue when the routes are its only callers: a request
    to the download route, a pending dispatch, or the timer of an
    activation. *)
Inductive Incoming :=
  | PostDownload (body : DownloadRoute.Body)
  | DispatchTimer
  | ActivationTimer (k : nat).

Inductive Outcome :=
  | Replied (reply : DownloadRoute.Reply)
  | Stepped (o : Output).

Section Server.

Variable hostname : string → option string.
Variable base64url toUpperCase : string → string.

Definition serve (env : Env) (i : Incoming) (w : World)
  : option (Outcome * World) :=
  match i with
  | PostDownload body =>
      let '(reply, w') := DownloadRoute.POST hostname env body w in
      Some (Replied reply, w')
  | DispatchTimer =>
      '(o, w') ← step hostname base64url toUpperCase env Timer w;
      Some (Stepped o, w')
  | ActivationTimer k =>
      '(o, w') ← step hostname base64url toUpperCase env (Resume k) w;
      Some (Stepped o, w')
  end.

Fixpoint serve_all (incoming : list (Env * Incoming)) (w : World)
  : option (list Outcome * World) :=
  match incoming with
  | [] => Some ([], w)
  | (env, i) :: rest =>
      '(o, w1) ← serve env i w;
      '(os, w2) ← serve_all rest w1;
      Some (o :: os, w2)
  end.

End Server.

(** ** The other functions of VideoProcessor (lib/video-utils.ts) *)

Module VideoProcessor.

(** The value of [table[platform] || fallback]: an array, or the member
    inherited from [Object.prototype] under that name. *)
Inductive Supported :=
  | Listed (values : list string)
  | Inherited (name : string).

Definition supported (table : list (string * list string))
    (fallback : list string) (platform : string) : Supported :=
  match find (λ entry, bool_decide (entry.1 = platform)) table with
  | Some entry => Listed entry.2
  | None =>
      if bool_decide (platform ∈ object_prototype_names)
      then Inherited platform
      else Listed fallback
  end.

Definition formatMap : list (string * list string) :=
  [("tiktok", ["mp4"; "webm"]);
   ("instagram", ["mp4"; "webm"]);
   ("youtube", ["mp4"; "webm"; "avi"; "mkv"]);
   ("linkedin", ["mp4"])].

Definition getSupportedFormats (platform : string) : Supported :=
  supported formatMap ["mp4"] platform.

Definition qualityMap : list (string * list string) :=
  [("tiktok", ["720p"; "480p"]);
   ("instagram", ["1080p"; "720p"; "480p"]);
   ("youtube", ["2160p"; "1440p"; "1080p"; "720p"; "480p"; "360p"]);
   ("linkedin", ["1080p"; "720p"])].

Definition getSupportedQualities (platform : string) : Supported :=
  supported qualityMap ["720p"] platform.

(** [path.replace(/\.[^/.]+$/, replacement)].

    The pattern matches a dot followed by one or more characters other
    than [/] and [.], up to the end of the string; [replace] takes the
    leftmost match. *)
Definition extension_char (c : ascii) : bool :=
  negb (bool_decide (c = "/"%char)) && negb (bool_decide (c = "."%char)).

Fixpoint extension_chars (s : string) : bool :=
  match s with
  | "" => true
  | String c s' => extension_char c && extension_chars s'
  end.

(** The text before the leftmost match, and the matched text. *)
Fixpoint match_extension (s : string) : option (string * string) :=
  match s with
  | "" => None
  | String c s' =>
      if bool_decide (c = "."%char) && negb (bool_decide (s' = ""))
         && extension_chars s'
      then Some ("", s)
      else (λ r, (String c r.1, r.2)) <$> match_extension s'
  end.

(** The replacement text: [$$] stands for a dollar sign, [$&] for the
    matched text, [$`] and [$'] for the text before and after the match;
    the pattern has no groups, so any other [$] stands for itself. *)
Fixpoint substitution (before matched after replacement : string) : string :=
  match replacement with
  | "" => ""
  | String c rest =>
      if decide (c = "$"%char) then
        match rest with
        | "" => "$"
        | String c' rest' =>
            if decide (c' = "$"%char) then
              String "$" (substitution before matched after rest')
            else if decide (c' = "&"%char) then
              matched +:+ substitution before matched after rest'
            else if decide (c' = "`"%char) then
              before +:+ substitution before matched after rest'
            else if decide (c' = "'"%char) then
              after +:+ substitution before matched after rest'
            else String c (substitution before matched after rest)
        end
      else String c (substitution before matched after rest)
  end.

Definition replace_extension (path replacement : string) : string :=
  match match_extension path with
  | None => path
  | Some (before, matched) =>
      before +:+ substitution before matched "" replacement
  end.

(** The values the three promises resolve to after their delay. *)
Definition processVideo (inputPath : string) (options : DownloadOptions) : string :=
  replace_extension inputPath (".processed." +:+ format options).

(** [outputFormat] is [None] when the argument is left out. *)
Definition extractAudio (videoPath : string) (outputFormat : option string) : string :=
  replace_extension videoPath ("." +:+ default "mp3" outputFormat).

Definition removeWatermark (videoPath platform : string) : string :=
  replace_extension videoPath ".nowatermark.mp4".

End VideoProcessor.

(** ** The file route (app/api/download/file/route.ts) *)

(** [s.split("-")[0]] *)
Fixpoint first_segment (s : string) : string :=
  match s with
  | "" => ""
  | String c s' => if decide (c = "-"%char) then "" else String c (first_segment s')
  end.

Inductive FileResponse :=
  | FileContent (content contentType contentDisposition : string) (contentLength : N)
  | FileError (error : string) (status : nat).

Section FileRoute.

(** Built-ins: [Buffer.from(id, "base64url").toString()],
    [String.prototype.toUpperCase] and the [length] of a string. *)
Variable decode_base64url : string → string.
Variable toUpperCase : string → string.
Variable length_of : string → N.

(** [id] and [format] are [searchParams.get("id")] and
    [searchParams.get("format")], [None] when the parameter is absent. *)
Definition file_GET (id format : option string) : FileResponse :=
  let format := match format with None | Some "" => "mp4" | Some f => f end in
  match id with
  | None | Some "" => FileError "Download ID is required" 400
  | Some id =>
      let decodedData := decode_base64url id in
      let originalUrl := first_segment decodedData in
      let mockFileContent :=
        "Mock " +:+ toUpperCase format +:+ " file content for: " +:+ originalUrl in
      FileContent mockFileContent
        (if decide (format = "mp3") then "audio/mpeg" else "video/mp4")
        ("attachment; filename=" +:+ String "034"%char ("video." +:+ format) +:+
         String "034"%char "")
        (length_of mockFileContent)
  end.

End FileRoute.

(** ** PlatformValidator (lib/platform-validator.ts) *)

Module PlatformValidator.

(** The patterns are sequences of literal text, optional literal text and
    non-empty runs of a character class, anchored at the start of the
    string and open at the end.  [pattern.test(url)] holds when some way
    of matching the pieces one after the other consumes a prefix of
    [url]. *)
Inductive Piece :=
  | Text (s : string)                 (* the characters of s *)
  | Optional (s : string)             (* (s)? *)
  | OneOrMore (class : ascii → bool). (* [class]+ *)

Definition in_range (lo hi : nat) (c : ascii) : bool :=
  Nat.leb lo (nat_of_ascii c) && Nat.leb (nat_of_ascii c) hi.

(** [\d] and [\w] *)
Definition digit (c : ascii) : bool := in_range 48 57 c.
Definition word (c : ascii) : bool :=
  in_range 97 122 c || in_range 65 90 c || digit c || bool_decide (c = "_"%char).
(** [[\w-]] and [[\w.-]] *)
Definition word_dash (c : ascii) : bool := word c || bool_decide (c = "-"%char).
Definition word_dot_dash (c : ascii) : bool :=
  word c || bool_decide (c = "."%char) || bool_decide (c = "-"%char).

(** The rest of [s] after the prefix [t]. *)
Fixpoint strip_prefix (t s : string) : option string :=
  match t, s with
  | "", _ => Some s
  | String a t', String b s' => if decide (a = b) then strip_prefix t' s' else None
  | String _ _, "" => None
  end.

Fixpoint test (pattern : list Piece) (s : string) : bool :=
  match pattern with
  | [] => true
  | Text t :: rest =>
      match strip_prefix t s with
      | Some s' => test rest s'
      | None => false
      end
  | Optional t :: rest =>
      match strip_prefix t s with
      | Some s' => test rest s' || test rest s
      | None => test rest s
      end
  | OneOrMore class :: rest =>
      (fix run (s : string) : bool :=
         match s with
         | "" => false
         | String c s' => class c && (run s' || test rest s')
         end) s
  end.

Record Config := {
  patterns : list (list Piece);
  name : string;
  examples : list string
}.

(** [^https?:\/\/] followed by the pieces of the pattern. *)
Definition scheme (host_and_path : list Piece) : list Piece :=
  Text "http" :: Optional "s" :: Text "://" :: host_and_path.

Definition PLATFORM_PATTERNS : list (string * Config) :=
  [("tiktok",
    {| patterns :=
         [scheme [Optional "www."; Text "tiktok.com/@"; OneOrMore word_dot_dash;
                  Text "/video/"; OneOrMore digit];
          scheme [Text "vm.tiktok.com/"; OneOrMore word];
          scheme [Text "m.tiktok.com/v/"; OneOrMore digit]];
       name := "TikTok";
       examples := ["https://www.tiktok.com/@username/video/1234567890";
                    "https://vm.tiktok.com/ZMxxxxxxxx/"] |});
   ("instagram",
    {| patterns :=
         [scheme [Optional "www."; Text "instagram.com/p/"; OneOrMore word_dash];
          scheme [Optional "www."; Text "instagram.com/reel/"; OneOrMore word_dash];
          scheme [Optional "www."; Text "instagram.com/tv/"; OneOrMore word_dash];
          scheme [Optional "www."; Text "instagram.com/stories/";
                  OneOrMore word_dot_dash; Text "/"; OneOrMore digit]];
       name := "Instagram";
       examples := ["https://www.instagram.com/p/ABC123/";
                    "https://www.instagram.com/reel/XYZ789/"] |});
   ("youtube",
    {| patterns :=
         [scheme [Optional "www."; Text "youtube.com/watch?v="; OneOrMore word_dash];
          scheme [Text "youtu.be/"; OneOrMore word_dash];
          scheme [Optional "www."; Text "youtube.com/shorts/"; OneOrMore word_dash];
          scheme [Text "m.youtube.com/watch?v="; OneOrMore word_dash]];
       name := "YouTube";
       examples := ["https://www.youtube.com/watch?v=dQw4w9WgXcQ";
                    "https://youtu.be/dQw4w9WgXcQ"] |});
   ("linkedin",
    {| patterns :=
         [scheme [Optional "www."; Text "linkedin.com/posts/"; OneOrMore word_dash;
                  Text "_activity-"; OneOrMore digit];
          scheme [Optional "www."; Text "linkedin.com/videos/"; OneOrMore word_dash;
                  Text "/"; OneOrMore word_dash];
          scheme [Optional "www."; Text "linkedin.com/feed/update/urn:li:activity:";
                  OneOrMore digit]];
       name := "LinkedIn";
       examples := ["https://www.linkedin.com/posts/username_activity-123456789/";
                    "https://www.linkedin.com/videos/username/video-id/"] |})].

Record ValidationResult := {
  isValid : bool;
  platform : option string;
  error : option string;
  suggestions : option (list string)
}.

Section Validator.

(** [new URL(url).hostname.toLowerCase()], [None] when the constructor
    throws, and [String.prototype.toLowerCase]. *)
Variable hostname : string → option string.
Variable toLowerCase : string → string.

Definition validateUrl (url : string) : ValidationResult :=
  if decide (url = "") then
    {| isValid := false; platform := None; error := Some "URL is required";
       suggestions := Some ["Please enter a valid video URL"] |}
  else
    match hostname url with
    | None =>
        {| isValid := false; platform := None; error := Some "Invalid URL format";
           suggestions :=
             Some ["Make sure the URL starts with http:// or https://";
                   "Check for typos in the URL"] |}
    | Some hostname =>
        match find (λ entry, existsb (λ pattern, test pattern url) (patterns entry.2))
                PLATFORM_PATTERNS with
        | Some (_, config) =>
            {| isValid := true; platform := Some (name config); error := None;
               suggestions := None |}
        | None =>
            {| isValid := false; platform := None;
               error :=
                 Some ("Platform not supported or invalid URL format for " +:+ hostname);
               suggestions :=
                 Some
                   (if includes hostname "tiktok" then
                      ["For TikTok: Use direct video links like https://www.tiktok.com/@user/video/123"]
                    else if includes hostname "instagram" then
                      ["For Instagram: Use post, reel, or IGTV links like https://www.instagram.com/p/ABC123/"]
                    else if includes hostname "youtube" then
                      ["For YouTube: Use video links like https://www.youtube.com/watch?v=VIDEO_ID"]
                    else if includes hostname "linkedin" then
                      ["For LinkedIn: Use post or video links from your feed"]
                    else
                      ["Currently supported: TikTok, Instagram, YouTube, and LinkedIn";
                       "Make sure you're using a direct link to the video content"]) |}
        end
    end.

(** [platform] is [None] when the argument is left out.  A name the table
    does not have gives [undefined] or a member inherited from
    [Object.prototype], neither of which has [examples]. *)
Definition getPlatformExamples (platform : option string) : list string :=
  match platform with
  | None | Some "" => mjoin (examples ∘ snd <$> PLATFORM_PATTERNS)
  | Some platform =>
      let platformKey := toLowerCase platform in
      match find (λ entry, bool_decide (entry.1 = platformKey)) PLATFORM_PATTERNS with
      | Some (_, config) => examples config
      | None => []
      end
  end.

Definition getSupportedPlatforms : list (string * list string) :=
  (λ entry, (name entry.2, examples entry.2)) <$> PLATFORM_PATTERNS.

End Validator.

End PlatformValidator.

(** ** The check of the client (components/video-downloader.tsx) *)

Module VideoDownloader.

Record Platform := {
  name : string;
  color : string;
  domains : list string
}.

Definition supportedPlatforms : list Platform :=
  [{| name := "TikTok"; color := "bg-pink-500"; domains := ["tiktok.com"] |};
   {| name := "Instagram"; color := "bg-purple-500"; domains := ["instagram.com"] |};
   {| name := "YouTube"; color := "bg-red-500";
      domains := ["youtube.com"; "youtu.be"] |};
   {| name := "LinkedIn"; color := "bg-blue-600"; domains := ["linkedin.com"] |}].

Record Validation := {
  isValid : bool;
  platform : option string;
  error : option string
}.

Section Client.

(** [new URL(url).hostname], [None] when the constructor throws. *)
Variable hostname_of : string → option string.

Definition validateUrl (url : string) : Validation :=
  match hostname_of url with
  | Some hostname =>
      match find (λ p, existsb (includes hostname) (domains p)) supportedPlatforms with
      | None =>
          {| isValid := false; platform := None;
             error := Some "Platform not supported. Please use TikTok, Instagram, YouTube, or LinkedIn URLs." |}
      | Some platform =>
          {| isValid := true; platform := Some (name platform); error := None |}
      end
  | None =>
      {| isValid := false; platform := None; error := Some "Invalid URL format" |}
  end.

End Client.

End VideoDownloader.

(** ** The statements of the specification that the code is compared with *)

(** As the specification states it: the [downloading] stage spans 10 to 60
    per cent and its sub-steps interpolate linearly between the start and
    the end of the stage. *)
Definition spec_download_percent (i : nat) : Q :=
  (10 + ((60 - 10) / inject_Z (Z.of_nat steps)) * inject_Z (Z.of_nat i))%Q.

Definition spec_download_range : Prop :=
  ∀ i, (i < steps)%nat →
    (Progress.progress (download_substep i) == spec_download_percent i)%Q.

(** As the specification states it: two submissions never return the same
    identifier. *)
Definition spec_identifiers_unique : Prop :=
  ∀ env1 url1 settings1 env2 url2 settings2 w,
    let '(i1, w1) := addJob env1 url1 settings1 w in
    let '(i2, _) := addJob env2 url2 settings2 w1 in
    i1 ≠ i2.

(** ** Sample executions

    Stand-ins for the built-ins, to run the model on concrete inputs: a
    URL is accepted when it starts with [https://] and its host is what
    follows up to the next [/]; letters [a] to [z] are capitalised; the
    identifier is passed through unencoded. *)

Fixpoint until_slash (s : string) : string :=
  match s with
  | EmptyString => EmptyString
  | String c s' => if decide (c = "/"%char) then EmptyString else String c (until_slash s')
  end.

Definition sample_hostname (u : string) : option string :=
  if String.prefix "https://" u
  then Some (until_slash (String.substring 8 (String.length u - 8) u))
  else None.

Definition upper_ascii (c : ascii) : ascii :=
  let n := nat_of_ascii c in
  if decide (97 ≤ n ∧ n ≤ 122)%nat then ascii_of_nat (n - 32) else c.

Fixpoint sample_toUpperCase (s : string) : string :=
  match s with
  | EmptyString => EmptyString
  | String c s' => String (upper_ascii c) (sample_toUpperCase s')
  end.

Definition sample_base64url (s : string) : string := s.

Definition sample_metadata : VideoMetadata :=
  {| title := "How to Code Tutorial";
     description := Some "Sample youtube video description with relevant content and hashtags.";
     duration := 95; thumbnail := "/placeholder.svg"; uploader := "Youtube Creator";
     uploadDate := "2025-01-01T00:00:00.000Z";
     viewCount := Some 2000%Z; likeCount := Some 100%Z |}.

Definition at_time (t : N) (r : string) : Env :=
  {| dateNow := t; newDate := t; random36 := r; mock := sample_metadata |}.

Definition sample_options (wm : bool) : DownloadOptions :=
  {| quality := "best"; format := "mp4"; audioOnly := false;
     removeWatermark := wm |}.

Abbreviation sample_run :=
  (run sample_hostname sample_base64url sample_toUpperCase).

(** The state a sample execution ends in. *)
Definition final (evs : list (Env * Event)) (w : World) : option World :=
  snd <$> sample_run evs w.

Definition outputs_of (evs : list (Env * Event)) (w : World) : list Output :=
  default [] (fst <$> sample_run evs w).

Definition state_of (evs : list (Env * Event)) (w : World) : World :=
  default w (final evs w).

(** The first activation continues [n] times. *)
Definition resumes (t : N) (n : nat) : list (Env * Event) :=
  replicate n (at_time t "", Resume 0).

(** One job, from submission to the end of its activation: fourteen
    resumptions after the admission, and one more when the watermark stage
    runs. *)
Definition one_job (u : string) (wm : bool) : list (Env * Event) :=
  [(at_time 1000 "k3j9x2m1q", AddJob u (sample_options wm));
   (at_time 1100 "", Timer)] ++ resumes 1200 (if wm then 15 else 14).

Definition youtube_job : list (Env * Event) :=
  one_job "https://youtu.be/dQw4w9WgXcQ" false.

Definition tiktok_job : list (Env * Event) :=
  one_job "https://www.tiktok.com/@user/video/1234567890" true.

(** A job whose URL the [URL] constructor rejects. *)
Definition rejected_url_job : list (Env * Event) :=
  [(at_time 1000 "k3j9x2m1q", AddJob "not a url" (sample_options false));
   (at_time 1100 "", Timer);
   (at_time 2100 "", Resume 0);
   (at_time 2900 "", Resume 0)].

(** Four jobs A, B, C, D on the queue of limit 3.  The four dispatches
    scheduled by [addJob] admit A, B and C; the three activations advance
    in turn and end one after the other; the first of the dispatches they
    schedule admits D. *)
Definition four_submissions : list (Env * Event) :=
  [(at_time 1000 "aaaaaaaaa", AddJob "https://youtu.be/A" (sample_options false));
   (at_time 1001 "bbbbbbbbb", AddJob "https://youtu.be/B" (sample_options false));
   (at_time 1002 "ccccccccc", AddJob "https://youtu.be/C" (sample_options false));
   (at_time 1003 "ddddddddd", AddJob "https://youtu.be/D" (sample_options false))].

Definition dispatches (t : N) (n : nat) : list (Env * Event) :=
  replicate n (at_time t "", Timer).

Definition in_turn (t : N) (n : nat) : list (Env * Event) :=
  mjoin (replicate n [(at_time t "", Resume 0); (at_time t "", Resume 1);
                      (at_time t "", Resume 2)]).

Definition four_jobs : list (Env * Event) :=
  four_submissions ++ dispatches 1100 4 ++
  in_turn 2100 13 ++ resumes 10400 3 ++ dispatches 10500 3.

(** The queue when A, B and C have just been admitted. *)
Definition three_running : World :=
  state_of (four_submissions ++ dispatches 1100 3) new_queue.

(** The same four submissions on a queue whose limit is one: the dispatch
    that follows the end of a job admits the next one. *)
Definition four_jobs_one_at_a_time : list (Env * Event) :=
  four_submissions ++ dispatches 1100 4 ++
  resumes 2100 14 ++ dispatches 10500 1 ++
  resumes 11500 14 ++ dispatches 19900 1 ++
  resumes 20900 14 ++ dispatches 29300 1.

(** ** Sample requests *)

Abbreviation sample_serve_all :=
  (serve_all sample_hostname sample_base64url sample_toUpperCase).

(** A request for the audio track of a YouTube video. *)
Definition audio_request : DownloadRoute.Body :=
  DownloadRoute.Parsed (Some "https://youtu.be/dQw4w9WgXcQ")
    (Some {| DownloadSettings.quality := "high";
             DownloadSettings.format := "webm";
             DownloadSettings.removeWatermark := false;
             DownloadSettings.extractAudio := true |}).

(** The server receives [audio_request] and a request whose URL cannot be
    parsed, and the job of the first request runs to its end. *)
Definition served_requests : list (Env * Incoming) :=
  [(at_time 1000 "k3j9x2m1q", PostDownload audio_request);
   (at_time 1001 "p0o9i8u7y",
    PostDownload (DownloadRoute.Parsed (Some "not a url") None));
   (at_time 1100 "", DispatchTimer)] ++
  replicate 14 (at_time 1200 "", ActivationTimer 0).

(** Four submissions and the dispatch that admits the first. *)
Definition one_admitted : list (Env * Event) :=
  four_submissions ++ dispatches 1100 1.

(** One submission and the dispatch that admits it. *)
Definition youtube_admitted : list (Env * Event) :=
  [(at_time 1000 "k3j9x2m1q",
    AddJob "https://youtu.be/dQw4w9WgXcQ" (sample_options false));
   (at_time 1100 "", Timer)].

(** Four submissions and the four dispatches they schedule, on the queue
    of limit 3. *)
Definition three_admitted : list (Env * Event) :=
  four_submissions ++ dispatches 1100 4.

(** * Verification *)

Local Open Scope list_scope.
Local Open Scope nat_scope.

(** ** The map *)

Lemma map_get_set_eq k v m : map_get k (map_set k v m) = Some v.
Proof.
  induction m as [|[k' v'] m IH]; simpl.
  - by rewrite decide_True.
  - destruct (decide (k = k')) as [->|Hne]; simpl.
    + by rewrite decide_True.
    + by rewrite decide_False.
Qed.

Lemma map_get_set_ne k k' v m :
  k ≠ k' → map_get k' (map_set k v m) = map_get k' m.
Proof.
  intros Hne. induction m as [|[k0 v0] m IH]; simpl.
  - rewrite decide_False; [done | congruence].
  - destruct (decide (k = k0)) as [->|Hk]; simpl.
    + rewrite !decide_False; [done | congruence | congruence].
    + destruct (decide (k' = k0)); [done | apply IH].
Qed.

Lemma map_get_Some_elem k v m : map_get k m = Some v → (k, v) ∈ m.
Proof.
  induction m as [|[k' v'] m IH]; simpl; [done|].
  destruct (decide (k = k')) as [->|Hne].
  - intros [= ->]. apply list_elem_of_here.
  - intros H. apply list_elem_of_further. auto.
Qed.

Lemma map_get_None k m : map_get k m = None ↔ k ∉ m.*1.
Proof.
  induction m as [|[k' v'] m IH]; simpl.
  - split; [intros _; apply not_elem_of_nil | done].
  - rewrite not_elem_of_cons. destruct (decide (k = k')) as [->|Hne].
    + split; [done | intros [? _]; done].
    + rewrite IH. tauto.
Qed.

Lemma map_get_is_Some k m : is_Some (map_get k m) ↔ k ∈ m.*1.
Proof.
  destruct (map_get k m) eqn:E.
  - split; [|by eauto]. intros _.
    destruct (decide (k ∈ m.*1)) as [|Hn]; [done|].
    apply map_get_None in Hn. congruence.
  - apply map_get_None in E. split; [intros [? ?]; done | done].
Qed.

Lemma map_get_elem k v m : NoDup m.*1 → (k, v) ∈ m → map_get k m = Some v.
Proof.
  induction m as [|[k' v'] m IH]; simpl; intros Hnd Hin.
  - by apply elem_of_nil in Hin.
  - apply NoDup_cons in Hnd as [Hk Hnd].
    apply elem_of_cons in Hin as [[= -> ->]|Hin].
    + by rewrite decide_True.
    + destruct (decide (k = k')) as [->|Hne]; [|by apply IH].
      exfalso. apply Hk. apply list_elem_of_fmap. by exists (k', v).
Qed.

Lemma map_set_keys_in k v m : k ∈ m.*1 → (map_set k v m).*1 = m.*1.
Proof.
  induction m as [|[k' v'] m IH]; simpl; intros Hin.
  - by apply elem_of_nil in Hin.
  - destruct (decide (k = k')) as [->|Hne]; csimpl; [done|].
    apply elem_of_cons in Hin as [?|Hin]; [done|]. by rewrite IH.
Qed.

Lemma map_set_fresh k v m : k ∉ m.*1 → map_set k v m = m ++ [(k, v)].
Proof.
  induction m as [|[k' v'] m IH]; simpl; intros Hin; [done|].
  apply not_elem_of_cons in Hin as [Hne Hin].
  rewrite decide_False by done. by rewrite IH.
Qed.

Lemma map_set_NoDup k v m : NoDup m.*1 → NoDup (map_set k v m).*1.
Proof.
  intros Hnd. destruct (decide (k ∈ m.*1)) as [Hin|Hin].
  - by rewrite map_set_keys_in.
  - rewrite map_set_fresh by done. rewrite fmap_app. simpl.
    apply NoDup_app. split_and!; [done | | apply NoDup_singleton].
    intros x Hx ->%list_elem_of_singleton. done.
Qed.

Lemma map_set_elem k v m k' l' :
  NoDup m.*1 →
  (k', l') ∈ map_set k v m ↔ (k' = k ∧ l' = v) ∨ (k' ≠ k ∧ (k', l') ∈ m).
Proof.
  induction m as [|[k0 v0] m IH]; simpl; intros Hnd.
  - rewrite list_elem_of_singleton. split.
    + intros [= -> ->]. by left.
    + intros [[-> ->]|[_ H]]; [done | by apply elem_of_nil in H].
  - apply NoDup_cons in Hnd as [Hk Hnd].
    destruct (decide (k = k0)) as [->|Hne].
    + rewrite !elem_of_cons. split.
      * intros [[= -> ->]|Hin]; [by left|]. right. split; [|by right].
        intros ->. apply Hk. apply list_elem_of_fmap. by exists (k0, l').
      * intros [[-> ->]|[Hne [[= -> ->]|Hin]]]; [by left | done | by right].
    + rewrite !elem_of_cons, IH by done. split.
      * intros [[= -> ->]|[[-> ->]|[? ?]]].
        -- right. split; [congruence | by left].
        -- by left.
        -- right. split; [done | by right].
      * intros [[-> ->]|[Hk' [[= -> ->]|Hin]]].
        -- right. by left.
        -- by left.
        -- right. right. done.
Qed.

(** ** Well-formed states

    What holds of the object store, the map and the suspended activations
    between any two steps.  A record reachable through the map is either a
    job object that was never admitted, or a copy made by [updateProgress]
    while its job was [processing]; the object an activation works on is
    not reachable through the map any more. *)

Definition registry_record (h : list Job.t) (k : string) (l : nat) : Prop :=
  ∃ j, h !! l = Some j ∧ Job.id j = k ∧ Job.error j = None ∧
       Job.completedAt j = None ∧
       (Job.status j = Status.processing ∨
        (Job.status j = Status.queued ∧ Job.progress j = initial_progress ∧
         Job.result j = None)).

Definition running (h : list Job.t) (m : list (string * nat)) (l : nat) : Prop :=
  ∃ j, h !! l = Some j ∧ Job.status j = Status.processing ∧
       Job.error j = None ∧ Job.completedAt j = None ∧
       Job.id j ∈ m.*1 ∧ ∀ k, (k, l) ∉ m.

Record wf (w : World) : Prop := {
  wf_keys : NoDup (jobs w).*1;
  wf_registry : ∀ k l, (k, l) ∈ jobs w → registry_record (heap w) k l;
  wf_running : ∀ l, l ∈ self <$> suspended w → running (heap w) (jobs w) l;
  wf_selfs : NoDup (self <$> suspended w)
}.

(** A property assignment that keeps what [wf] looks at. *)
Definition keeps_lifecycle (f : Job.t → Job.t) : Prop :=
  ∀ j, Job.id (f j) = Job.id j ∧ Job.status (f j) = Job.status j ∧
       Job.error (f j) = Job.error j ∧
       Job.completedAt (f j) = Job.completedAt j.

Lemma keeps_set_progress p : keeps_lifecycle (Job.set_progress p).
Proof. by intros j. Qed.

Lemma keeps_set_result r : keeps_lifecycle (Job.set_result r).
Proof. by intros j. Qed.

Lemma wf_queue_with_limit n : wf (queue_with_limit n).
Proof.
  split; simpl.
  - apply NoDup_nil_2.
  - intros k l H. by apply elem_of_nil in H.
  - intros l H. by apply elem_of_nil in H.
  - apply NoDup_nil_2.
Qed.

Lemma wf_new_queue : wf new_queue.
Proof. apply (wf_queue_with_limit 3). Qed.

Lemma registry_record_lt h k l : registry_record h k l → l < length h.
Proof. intros (j & Hj & _). by eapply lookup_lt_Some. Qed.

Lemma running_lt h m l : running h m l → l < length h.
Proof. intros (j & Hj & _). by eapply lookup_lt_Some. Qed.

Lemma registry_record_app h j k l :
  registry_record h k l → registry_record (h ++ [j]) k l.
Proof.
  intros (j' & Hj & H). exists j'. split; [|done].
  by apply lookup_app_l_Some.
Qed.

Lemma registry_record_alter h f l0 k l :
  l ≠ l0 → registry_record h k l → registry_record (alter f l0 h) k l.
Proof.
  intros Hne (j' & Hj & H). exists j'. split; [|done].
  by rewrite list_lookup_alter_ne.
Qed.

(** [o.f = v] on the object of an activation, for a property that is not
    part of the life cycle. *)
Lemma wf_assign l f w :
  keeps_lifecycle f → l ∈ self <$> suspended w → wf w → wf (assign l f w).
Proof.
  intros Hf Hl [Hk Hr Hs Hn]. split; simpl; [done | | | done].
  - intros k l' Hin. apply registry_record_alter; [|by apply Hr].
    intros ->. destruct (Hs _ Hl) as (j & _ & _ & _ & _ & _ & Hsep).
    by apply (Hsep k).
  - intros l' Hl'. destruct (Hs _ Hl') as (j & Hj & Hst & He & Hc & Hid & Hsep).
    destruct (decide (l = l')) as [->|Hne].
    + exists (f j). rewrite list_lookup_alter_eq, Hj.
      destruct (Hf j) as (-> & -> & -> & ->). done.
    + exists j. by rewrite list_lookup_alter_ne.
Qed.

(** [this.jobs.set(job.id, { ...job })] for the object of an activation. *)
Lemma wf_publish l j w :
  l ∈ self <$> suspended w → heap w !! l = Some j → wf w →
  wf (with_jobs (map_set (Job.id j) (length (heap w)) (jobs w))
        (with_heap (heap w ++ [j]) w)).
Proof.
  intros Hl Hj [Hk Hr Hs Hn].
  destruct (Hs _ Hl) as (j0 & Hj0 & Hst & He & Hc & Hid & Hsep).
  assert (j0 = j) as -> by congruence.
  split; simpl; [by apply map_set_NoDup | | | done].
  - intros k l' Hin. apply map_set_elem in Hin as [[-> ->]|[Hne Hin]]; [|by apply registry_record_app, Hr|done].
    exists j. rewrite lookup_app_r, Nat.sub_diag by done. split_and!; auto.
  - intros l' Hl'.
    destruct (Hs _ Hl') as (j' & Hj' & Hst' & He' & Hc' & Hid' & Hsep').
    exists j'. split_and!; [by apply lookup_app_l_Some | done..| |].
    + by rewrite map_set_keys_in.
    + intros k Hin. apply map_set_elem in Hin as [[-> Heq]|[_ Hin]]; [|by apply (Hsep' k)|done].
      apply lookup_lt_Some in Hj'. lia.
Qed.

Lemma self_set_pc k p (s : list Activation) :
  self <$> alter (λ a, {| self := self a; pc := p |}) k s = self <$> s.
Proof.
  revert k. induction s as [|a s IH]; intros [|k]; csimpl; try done.
  by rewrite IH.
Qed.

Lemma wf_set_pc k p w : wf w → wf (set_pc k p w).
Proof.
  intros [Hk Hr Hs Hn]. split; simpl; rewrite ?self_set_pc; done.
Qed.

Lemma wf_with_history h w : wf w → wf (with_history h w).
Proof. by intros [Hk Hr Hs Hn]. Qed.

Lemma wf_with_timers n w : wf w → wf (with_timers n w).
Proof. by intros [Hk Hr Hs Hn]. Qed.

Lemma wf_with_activeJobs a w : wf w → wf (with_activeJobs a w).
Proof. by intros [Hk Hr Hs Hn]. Qed.

Lemma wf_assign_progress l p w :
  l ∈ self <$> suspended w → wf w → wf (assign_progress l p w).
Proof.
  intros Hl Hw. apply wf_with_history, wf_assign; [apply keeps_set_progress|done..].
Qed.

(** ** The steps, as compositions of assignments *)

Definition snapshot (stage : Stage.t) (progress : Q) (message : string)
  : Progress.t :=
  {| Progress.stage := stage; Progress.progress := progress;
     Progress.message := message; Progress.estimatedTimeRemaining := None |}.

(** The map entry of [j] now refers to a new object equal to [j]. *)
Definition publish (j : Job.t) (w : World) : World :=
  with_jobs (map_set (Job.id j) (length (heap w)) (jobs w))
    (with_heap (heap w ++ [j]) w).

(** The effect of [updateProgress] on the object [j] found at [l]. *)
Definition update (l : nat) (p : Progress.t) (j : Job.t) (w : World) : World :=
  publish (Job.set_progress p j) (assign_progress l p w).

Lemma updateProgress_eq l s q m w j :
  heap w !! l = Some j →
  updateProgress l s q m w = Some (update l (snapshot s q m) j w).
Proof.
  intros Hj. unfold updateProgress, update, publish, assign_progress, assign, alloc.
  simpl. rewrite list_lookup_alter_eq, Hj. simpl. done.
Qed.

(** The object at [l] after the code that follows [await this.processJob]. *)
Definition conclude (outcome : unit + string) (env : Env) (j : Job.t) : Job.t :=
  match outcome with
  | inl _ =>
      Job.set_completedAt (newDate env) (Job.set_status Status.completed j)
  | inr message =>
      Job.set_completedAt (newDate env)
        (Job.set_error message (Job.set_status Status.failed j))
  end.

Definition settled (k l : nat) (env : Env) (outcome : unit + string)
    (j : Job.t) (w : World) : World :=
  with_suspended (delete k (suspended w))
    (with_timers (S (timers w))
       (with_activeJobs (activeJobs w ∖ {[Job.id j]})
          (assign l (conclude outcome env) w))).

Lemma settle_eq k l env outcome w j :
  heap w !! l = Some j →
  settle k l env outcome w = Some (settled k l env outcome j w).
Proof.
  intros Hj. unfold settle, settled, assign. destruct outcome as [[]|message]; simpl.
  - rewrite list_alter_alter_eq, list_lookup_alter_eq, Hj. simpl. done.
  - rewrite !list_alter_alter_eq, list_lookup_alter_eq, Hj. simpl. done.
Qed.

Lemma heap_assign_progress_eq l p w j :
  heap w !! l = Some j →
  heap (assign_progress l p w) !! l = Some (Job.set_progress p j).
Proof. intros Hj. simpl. by rewrite list_lookup_alter_eq, Hj. Qed.

Lemma heap_update_eq l p j w :
  heap w !! l = Some j → heap (update l p j w) !! l = Some (Job.set_progress p j).
Proof.
  intros Hj. simpl. apply lookup_app_l_Some. by rewrite list_lookup_alter_eq, Hj.
Qed.

Lemma wf_update l p j w :
  l ∈ self <$> suspended w → heap w !! l = Some j → wf w → wf (update l p j w).
Proof.
  intros Hl Hj Hw. unfold update.
  pose proof (heap_assign_progress_eq l p w j Hj) as Hj'.
  pose proof (wf_publish l (Job.set_progress p j) (assign_progress l p w)) as H.
  apply H; [done | | by apply wf_assign_progress].
  exact Hj'.
Qed.

Lemma NoDup_delete_lookup {A} (s : list A) k x :
  NoDup s → s !! k = Some x → x ∉ delete k s.
Proof.
  intros Hnd Hk. rewrite delete_take_drop.
  rewrite <-(take_drop_middle s k x Hk) in Hnd.
  apply NoDup_app in Hnd as (_ & Hd & Hnd').
  apply NoDup_cons in Hnd' as [Hx _].
  rewrite elem_of_app. intros [Hin|Hin]; [|done].
  apply (Hd x Hin). apply list_elem_of_here.
Qed.

(** The end of an activation: its object changes state, and nothing else
    refers to that object. *)
Lemma wf_settled k l env outcome j w :
  (self <$> suspended w) !! k = Some l → wf w →
  wf (settled k l env outcome j w).
Proof.
  intros Hk [Hkeys Hr Hs Hn]. split; simpl; [done | | |].
  - intros k' l' Hin. apply registry_record_alter; [|by apply Hr].
    intros ->. apply list_elem_of_lookup_2 in Hk.
    destruct (Hs _ Hk) as (j' & _ & _ & _ & _ & _ & Hsep). by apply (Hsep k').
  - intros l' Hl'. rewrite list_fmap_delete in Hl'.
    assert (l' ≠ l) as Hne.
    { intros ->. by eapply NoDup_delete_lookup. }
    apply list_elem_of_delete_inv in Hl'.
    destruct (Hs _ Hl') as (j' & Hj' & H). exists j'. split; [|done].
    by rewrite list_lookup_alter_ne.
  - rewrite list_fmap_delete. eapply sublist_NoDup; [done | apply sublist_delete].
Qed.

(** ** Admission *)

Lemma find_queued_Some h m l :
  find_queued h m = Some l →
  ∃ before k after j,
    m = before ++ (k, l) :: after ∧ h !! l = Some j ∧
    Job.status j = Status.queued ∧
    Forall (λ e, ∀ j', h !! e.2 = Some j' → Job.status j' ≠ Status.queued) before.
Proof.
  induction m as [|[k0 l0] m IH]; simpl; [done|].
  destruct (h !! l0) as [j0|] eqn:E0.
  - destruct (decide (Job.status j0 = Status.queued)) as [Hq|Hq].
    + intros [= <-]. exists [], k0, m, j0. split_and!; auto.
    + intros H. destruct (IH H) as (before & k & after & j & -> & Hj & Hs & Hb).
      exists ((k0, l0) :: before), k, after, j. split_and!; auto.
      constructor; [|done]. simpl. intros j' Hj'. congruence.
  - intros H. destruct (IH H) as (before & k & after & j & -> & Hj & Hs & Hb).
    exists ((k0, l0) :: before), k, after, j. split_and!; auto.
    constructor; [|done]. simpl. intros j' Hj'. congruence.
Qed.

Lemma find_queued_None h m :
  find_queued h m = None →
  ∀ k l j, (k, l) ∈ m → h !! l = Some j → Job.status j ≠ Status.queued.
Proof.
  induction m as [|[k0 l0] m IH]; simpl; intros H k l j Hin Hj.
  - by apply elem_of_nil in Hin.
  - apply elem_of_cons in Hin as [[= -> ->]|Hin].
    + rewrite Hj in H. by destruct (decide (Job.status j = Status.queued)).
    + destruct (h !! l0) as [j0|]; [|by eapply IH].
      destruct (decide (Job.status j0 = Status.queued)); [done | by eapply IH].
Qed.

Definition analyzing_snapshot : Progress.t :=
  snapshot Stage.analyzing 10 "Analyzing video URL and extracting metadata...".

(** The state after [processNextJob] has admitted the object [j] at [l]. *)
Definition admission (l : nat) (j : Job.t) (w : World) : World :=
  let w3 :=
    update l analyzing_snapshot (Job.set_status Status.processing j)
      (assign l (Job.set_status Status.processing)
         (with_activeJobs ({[Job.id j]} ∪ activeJobs w) w)) in
  with_suspended (suspended w3 ++ [{| self := l; pc := AwaitAnalyze |}]) w3.

Lemma processNextJob_cases w :
  (processNextJob w = Some (None, w) ∧
   (maxConcurrentJobs w ≤ size (activeJobs w) ∨
    find_queued (heap w) (jobs w) = None)) ∨
  (∃ l j, size (activeJobs w) < maxConcurrentJobs w ∧
          find_queued (heap w) (jobs w) = Some l ∧ heap w !! l = Some j ∧
          processNextJob w = Some (Some (Job.id j), admission l j w)).
Proof.
  unfold processNextJob.
  destruct (decide (maxConcurrentJobs w ≤ size (activeJobs w))) as [Hfull|Hfree].
  { left. auto. }
  destruct (find_queued (heap w) (jobs w)) as [l|] eqn:Hfind.
  2:{ left. auto. }
  right. destruct (find_queued_Some _ _ _ Hfind) as (_ & _ & _ & j & _ & Hj & _).
  exists l, j. split_and!; [lia | done | done |].
  rewrite Hj. simpl.
  erewrite updateProgress_eq; [done|].
  simpl. by rewrite list_lookup_alter_eq, Hj.
Qed.

Lemma processNextJob_total w : is_Some (processNextJob w).
Proof.
  destruct (processNextJob_cases w) as [[-> _]|(l & j & _ & _ & _ & ->)]; eauto.
Qed.

Lemma wf_admission l j w :
  find_queued (heap w) (jobs w) = Some l → heap w !! l = Some j →
  wf w → wf (admission l j w).
Proof.
  intros Hfind Hj [Hkeys Hr Hs Hn].
  destruct (find_queued_Some _ _ _ Hfind) as (before & k & after & j0 & Hm & Hj0 & Hq & _).
  assert (j0 = j) as -> by congruence.
  assert ((k, l) ∈ jobs w) as Hin.
  { rewrite Hm, elem_of_app, elem_of_cons. auto. }
  destruct (Hr _ _ Hin) as (j1 & Hj1 & Hid & He & Hc & Hst).
  assert (j1 = j) as -> by congruence.
  assert (l ∉ self <$> suspended w) as Hfresh.
  { intros Hl. destruct (Hs _ Hl) as (j2 & Hj2 & Hst2 & _). congruence. }
  assert (l < length (heap w)) as Hlt by (by eapply lookup_lt_Some).
  set (P := analyzing_snapshot).
  set (j' := Job.set_progress P (Job.set_status Status.processing j)).
  assert (∀ k' l', (k', l') ∈ map_set (Job.id j) (length (heap w)) (jobs w) →
                   l' ≠ l) as Hsep.
  { intros k' l' [[-> ->]|[Hne Hin']]%map_set_elem; [lia | | done].
    intros ->. destruct (Hr _ _ Hin') as (j2 & Hj2 & Hid2 & _). congruence. }
  split; simpl; rewrite ?length_alter, ?list_alter_alter_eq.
  - by apply map_set_NoDup.
  - intros k' l' Hin'. pose proof (Hsep _ _ Hin') as Hne.
    apply map_set_elem in Hin' as [[-> ->]|[Hk' Hin']]; [| |done].
    + exists j'. rewrite lookup_app_r, length_alter, Nat.sub_diag by (by rewrite length_alter).
      split_and!; auto.
    + apply registry_record_app, registry_record_alter; [done | by apply Hr].
  - intros l'. rewrite fmap_app, elem_of_app. simpl.
    rewrite list_elem_of_singleton. intros [Hl'| ->].
    + destruct (Hs _ Hl') as (j2 & Hj2 & Hst2 & He2 & Hc2 & Hid2 & Hsep2).
      exists j2. split_and!; auto.
      * apply lookup_app_l_Some. rewrite list_lookup_alter_ne; [done|].
        intros ->. done.
      * rewrite map_set_keys_in; [done|]. rewrite Hid. apply list_elem_of_fmap.
        by exists (k, l).
      * intros k' [[-> Heq]|[_ Hin']]%map_set_elem; [|by apply (Hsep2 k')|done].
        apply lookup_lt_Some in Hj2. lia.
    + exists j'. split_and!; auto.
      * apply lookup_app_l_Some. by rewrite list_lookup_alter_eq, Hj.
      * rewrite map_set_keys_in; [|rewrite Hid; apply list_elem_of_fmap; by exists (k, l)].
        simpl. rewrite Hid. apply list_elem_of_fmap. by exists (k, l).
      * intros k' Hin'. by apply Hsep in Hin'.
  - rewrite fmap_app. simpl. apply NoDup_app. split_and!; [done | | apply NoDup_singleton].
    intros x Hx ->%list_elem_of_singleton. done.
Qed.

(** ** Submission *)

Lemma wf_addJob env url settings w : wf w → wf (addJob env url settings w).2.
Proof.
  intros [Hkeys Hr Hs Hn]. unfold addJob, alloc. simpl.
  split; simpl; [by apply map_set_NoDup | | | done].
  - intros k l [[-> ->]|[Hne Hin]]%map_set_elem; [| |done].
    + eexists. rewrite lookup_app_r, Nat.sub_diag by done. simpl.
      split_and!; eauto.
    + by apply registry_record_app, Hr.
  - intros l Hl. destruct (Hs _ Hl) as (j & Hj & Hst & He & Hc & Hid & Hsep).
    exists j. split_and!; auto.
    + by apply lookup_app_l_Some.
    + destruct (decide (jobId env ∈ (jobs w).*1)) as [Hin|Hin].
      * by rewrite map_set_keys_in.
      * rewrite map_set_fresh, fmap_app, elem_of_app by done. auto.
    + intros k [[-> Heq]|[_ Hin]]%map_set_elem; [|by apply (Hsep k)|done].
      apply lookup_lt_Some in Hj. lia.
Qed.

(** ** Resumption of an activation *)

Section Verification.

Context (hostname : string → option string).
Context (base64url toUpperCase : string → string).

Local Abbreviation resume_ := (resume hostname base64url toUpperCase).
Local Abbreviation step_ := (step hostname base64url toUpperCase).
Local Abbreviation run_ := (run hostname base64url toUpperCase).
Local Abbreviation extractMetadata_ := (extractMetadata hostname).
Local Abbreviation downloadVideo_ := (downloadVideo hostname).

Definition downloading_snapshot : Progress.t :=
  snapshot Stage.downloading 30 "Downloading video content...".
Definition watermark_snapshot : Progress.t :=
  snapshot Stage.processing 65 "Removing watermarks...".
Definition converting_snapshot (j : Job.t) : Progress.t :=
  snapshot Stage.converting 80
    ("Converting to " +:+ toUpperCase (format (Job.settings j)) +:+ "...").
Definition finalizing_snapshot : Progress.t :=
  snapshot Stage.finalizing 95 "Finalizing download...".
Definition completed_snapshot : Progress.t :=
  snapshot Stage.finalizing 100 "Download completed successfully!".

Definition job_result (m : VideoMetadata) (path : string) (j : Job.t) : JobResult :=
  {| filePath := path; metadata := m;
     downloadUrl :=
       "/api/download/file?id=" +:+ base64url (Job.id j) +:+
       "&format=" +:+ format (Job.settings j) |}.

(** [Resumption k env a j w w'] : the activation [a], number [k] in [w],
    whose object is [j], continues and leaves the state [w']. *)
Inductive Resumption (k : nat) (env : Env) (a : Activation) (j : Job.t)
    (w : World) : World → Prop :=
  | R_analyzed :
      pc a = AwaitAnalyze →
      Resumption k env a j w (set_pc k AwaitMetadata w)
  | R_no_metadata :
      pc a = AwaitMetadata →
      extractMetadata_ env (Job.url j) = None →
      Resumption k env a j w
        (settled k (self a) env (inr "Failed to extract video metadata") j w)
  | R_metadata m :
      pc a = AwaitMetadata →
      extractMetadata_ env (Job.url j) = Some m →
      Resumption k env a j w
        (set_pc k (AwaitDownloadStep 0 m)
           (assign_progress (self a) (download_substep 0)
              (update (self a) downloading_snapshot j w)))
  | R_download i m :
      pc a = AwaitDownloadStep i m → S i < steps →
      Resumption k env a j w
        (set_pc k (AwaitDownloadStep (S i) m)
           (assign_progress (self a) (download_substep (S i)) w))
  | R_watermark i m :
      pc a = AwaitDownloadStep i m → ¬ S i < steps →
      removeWatermark (Job.settings j) = true →
      Resumption k env a j w
        (set_pc k (AwaitWatermark m) (update (self a) watermark_snapshot j w))
  | R_convert m :
      (∃ i, pc a = AwaitDownloadStep i m ∧ ¬ S i < steps ∧
            removeWatermark (Job.settings j) = false) ∨
      pc a = AwaitWatermark m →
      Resumption k env a j w
        (set_pc k (AwaitConvert m) (update (self a) (converting_snapshot j) j w))
  | R_finalize m :
      pc a = AwaitConvert m →
      Resumption k env a j w
        (set_pc k (AwaitFinalize m) (update (self a) finalizing_snapshot j w))
  | R_download_failed m message :
      pc a = AwaitFinalize m →
      downloadVideo_ env (Job.url j) (Job.settings j) = inr message →
      Resumption k env a j w (settled k (self a) env (inr message) j w)
  | R_completed m path :
      pc a = AwaitFinalize m →
      downloadVideo_ env (Job.url j) (Job.settings j) = inl path →
      let j1 := Job.set_result (job_result m path j) j in
      Resumption k env a j w
        (settled k (self a) env (inl ())
           (Job.set_progress completed_snapshot j1)
           (update (self a) completed_snapshot j1
              (assign (self a) (Job.set_result (job_result m path j)) w))).

Lemma resume_cases k env w w' :
  resume_ k env w = Some w' →
  ∃ a j, suspended w !! k = Some a ∧ heap w !! self a = Some j ∧
         Resumption k env a j w w'.
Proof.
  unfold resume. intros H.
  destruct (suspended w !! k) as [a|] eqn:Ha; [|done]. simpl in H.
  destruct (heap w !! self a) as [j|] eqn:Hj; [|done]. simpl in H.
  exists a, j. split_and!; [done..|].
  destruct (pc a) as [| |i m|m|m|m] eqn:Hpc.
  - injection H as <-. by constructor.
  - destruct (extractMetadata_ env (Job.url j)) as [m|] eqn:Hm.
    + erewrite updateProgress_eq in H by done. simpl in H.
      unfold download_loop in H. rewrite decide_True in H by (unfold steps; lia).
      injection H as <-. by apply R_metadata.
    + erewrite settle_eq in H by done. injection H as <-. by apply R_no_metadata.
  - unfold download_loop in H.
    destruct (decide (S i < steps)) as [Hi|Hi].
    + injection H as <-. by apply R_download.
    + destruct (removeWatermark (Job.settings j)) eqn:Hwm.
      * erewrite updateProgress_eq in H by done. simpl in H.
        injection H as <-. by eapply R_watermark.
      * unfold convert in H. erewrite updateProgress_eq in H by done. simpl in H.
        injection H as <-. apply R_convert. left. eauto.
  - unfold convert in H. erewrite updateProgress_eq in H by done. simpl in H.
    injection H as <-. apply R_convert. by right.
  - erewrite updateProgress_eq in H by done. simpl in H.
    injection H as <-. by apply R_finalize.
  - destruct (downloadVideo_ env (Job.url j) (Job.settings j)) as [path|message] eqn:Hd.
    + erewrite updateProgress_eq in H; [|simpl; by rewrite list_lookup_alter_eq, Hj].
      simpl in H. erewrite settle_eq in H.
      2:{ apply heap_update_eq. simpl. by rewrite list_lookup_alter_eq, Hj. }
      injection H as <-. by eapply R_completed.
    + erewrite settle_eq in H by done. injection H as <-. by eapply R_download_failed.
Qed.

(** An activation that exists can always continue. *)
Lemma resume_total k env w :
  wf w → k < length (suspended w) → is_Some (resume_ k env w).
Proof.
  intros Hw Hk. apply lookup_lt_is_Some in Hk as [a Ha].
  destruct (wf_running w Hw (self a)) as (j & Hj & _).
  { apply list_elem_of_fmap. exists a. split; [done|]. by eapply list_elem_of_lookup_2. }
  unfold resume. rewrite Ha. simpl. rewrite Hj. simpl.
  destruct (pc a) as [| |i m|m|m|m]; unfold download_loop, convert.
  - eauto.
  - destruct (extractMetadata_ env (Job.url j)).
    + erewrite updateProgress_eq by done. simpl. eauto.
    + erewrite settle_eq by done. eauto.
  - destruct (decide (S i < steps)); [eauto|].
    destruct (removeWatermark (Job.settings j));
      erewrite updateProgress_eq by done; simpl; eauto.
  - erewrite updateProgress_eq by done; simpl; eauto.
  - erewrite updateProgress_eq by done; simpl; eauto.
  - destruct (downloadVideo_ env (Job.url j) (Job.settings j)).
    + erewrite updateProgress_eq; [|simpl; by rewrite list_lookup_alter_eq, Hj].
      simpl. erewrite settle_eq; [eauto|].
      apply heap_update_eq. simpl. by rewrite list_lookup_alter_eq, Hj.
    + erewrite settle_eq by done. eauto.
Qed.

Lemma self_lookup (s : list Activation) k a :
  s !! k = Some a → (self <$> s) !! k = Some (self a).
Proof. intros H. by rewrite list_lookup_fmap, H. Qed.

Lemma self_elem (s : list Activation) k a :
  s !! k = Some a → self a ∈ self <$> s.
Proof. intros H. eapply list_elem_of_lookup_2. by apply self_lookup. Qed.

Lemma wf_resumption k env a j w w' :
  wf w → suspended w !! k = Some a → heap w !! self a = Some j →
  Resumption k env a j w w' → wf w'.
Proof.
  intros Hw Ha Hj HR.
  pose proof (self_elem _ _ _ Ha) as Hl.
  pose proof (self_lookup _ _ _ Ha) as Hk.
  destruct HR.
  - by apply wf_set_pc.
  - by apply wf_settled.
  - apply wf_set_pc, wf_assign_progress; [done|]. by apply wf_update.
  - by apply wf_set_pc, wf_assign_progress.
  - by apply wf_set_pc, wf_update.
  - by apply wf_set_pc, wf_update.
  - by apply wf_set_pc, wf_update.
  - by apply wf_settled.
  - apply wf_settled; [done|]. apply wf_update; [done | |].
    + simpl. by rewrite list_lookup_alter_eq, Hj.
    + apply wf_assign; [apply keeps_set_result | done..].
Qed.

Lemma wf_step env ev w o w' : wf w → step_ env ev w = Some (o, w') → wf w'.
Proof.
  intros Hw. destruct ev as [url settings| |k]; simpl.
  - intros [= _ <-]. by apply wf_addJob.
  - destruct (timers w) as [|n] eqn:Ht; [done|].
    apply (wf_with_timers n) in Hw.
    destruct (processNextJob_cases (with_timers n w))
      as [[-> _]|(l & j & _ & Hfind & Hj & ->)]; simpl.
    + by intros [= _ <-].
    + intros [= _ <-]. by apply wf_admission.
  - destruct (resume_ k env w) as [w1|] eqn:Hr; [|done]. simpl. intros [= _ <-].
    destruct (resume_cases _ _ _ _ Hr) as (a & j & Ha & Hj & HR).
    by eapply wf_resumption.
Qed.

Lemma wf_run evs w os w' : wf w → run_ evs w = Some (os, w') → wf w'.
Proof.
  revert w os. induction evs as [|[env ev] evs IH]; intros w os Hw; simpl.
  - by intros [= _ <-].
  - destruct (step_ env ev w) as [[o w1]|] eqn:Hs; [|done]. simpl.
    destruct (run_ evs w1) as [[os' w2]|] eqn:Hr; [|done]. simpl.
    intros [= _ <-]. eapply IH; [|done]. by eapply wf_step.
Qed.

(** An enabled event always has an effect: the model never blocks on a
    missing object. *)
Lemma step_total env ev w :
  wf w →
  match ev with
  | AddJob _ _ => True
  | Timer => 0 < timers w
  | Resume k => k < length (suspended w)
  end →
  is_Some (step_ env ev w).
Proof.
  intros Hw. destruct ev as [url settings| |k]; simpl.
  - eauto.
  - destruct (timers w) as [|n]; [lia|]. intros _.
    destruct (processNextJob_total (with_timers n w)) as [[adm w'] ->]. simpl. eauto.
  - intros Hk. destruct (resume_total k env w Hw Hk) as [w' ->]. simpl. eauto.
Qed.

(** What a caller of [getJob] can see: a record it obtains is never in a
    terminal state. *)
Lemma getJob_registry_record jobId w j :
  wf w → getJob jobId w = Some j →
  Job.id j = jobId ∧ Job.error j = None ∧ Job.completedAt j = None ∧
  (Job.status j = Status.processing ∨
   (Job.status j = Status.queued ∧ Job.progress j = initial_progress ∧
    Job.result j = None)).
Proof.
  intros Hw. unfold getJob.
  destruct (map_get jobId (jobs w)) as [l|] eqn:Hl; [|done]. simpl. intros Hj.
  apply map_get_Some_elem in Hl.
  destruct (wf_registry w Hw _ _ Hl) as (j' & Hj' & H).
  assert (j' = j) as -> by congruence. done.
Qed.

(** ** The history of progress assignments *)

(** Of two assignments to the [progress] property of one object, the later
    one does not carry the smaller percentage.  The history has the newest
    assignment first. *)
Definition history_monotone (w : World) : Prop :=
  ∀ i i' l p q,
    i < i' → history w !! i = Some (l, q) → history w !! i' = Some (l, p) →
    (Progress.progress p <= Progress.progress q)%Q.

Definition needs_watermark (p : Progress.t) (j : Job.t) : Prop :=
  Progress.stage p = Stage.processing → removeWatermark (Job.settings j) = true.

Record hist_inv (w : World) : Prop := {
  hist_max : ∀ l j p,
    heap w !! l = Some j → (l, p) ∈ history w →
    (Progress.progress p <= Progress.progress (Job.progress j))%Q;
  hist_mono : history_monotone w;
  hist_wm : ∀ l p,
    (l, p) ∈ history w → ∃ j, heap w !! l = Some j ∧ needs_watermark p j;
  heap_wm : ∀ l j, heap w !! l = Some j → needs_watermark (Job.progress j) j
}.

Lemma hist_valid w l p : hist_inv w → (l, p) ∈ history w → l < length (heap w).
Proof.
  intros H Hin. destruct (hist_wm w H _ _ Hin) as (j & Hj & _).
  by eapply lookup_lt_Some.
Qed.

Lemma hist_new_queue : hist_inv new_queue.
Proof.
  split; simpl.
  - intros l j p H. by destruct l.
  - intros i i' l p q _ H. by destruct i.
  - intros l p H. by apply elem_of_nil in H.
  - intros l j H. by destruct l.
Qed.

Definition keeps_progress (f : Job.t → Job.t) : Prop :=
  ∀ j, Job.progress (f j) = Job.progress j ∧ Job.settings (f j) = Job.settings j.

Lemma hist_assign l f w : keeps_progress f → hist_inv w → hist_inv (assign l f w).
Proof.
  intros Hf [Hmax Hmono Hwm Hheap]. split; simpl.
  - intros l' j' p Hj' Hin. rewrite list_lookup_alter in Hj'.
    destruct (decide (l = l')) as [->|Hne]; [|by eapply Hmax].
    destruct (heap w !! l') as [j|] eqn:Hj; [|done]. injection Hj' as <-.
    destruct (Hf j) as [-> _]. by eapply Hmax.
  - done.
  - intros l' p Hin. destruct (Hwm _ _ Hin) as (j & Hj & Hp).
    rewrite list_lookup_alter. destruct (decide (l = l')) as [->|Hne]; [|eauto].
    rewrite Hj. eexists. split; [done|]. unfold needs_watermark.
    by destruct (Hf j) as [_ ->].
  - intros l' j' Hj'. rewrite list_lookup_alter in Hj'.
    destruct (decide (l = l')) as [->|Hne]; [|by eapply Hheap].
    destruct (heap w !! l') as [j|] eqn:Hj; [|done]. injection Hj' as <-.
    unfold needs_watermark. destruct (Hf j) as [-> ->]. by eapply Hheap.
Qed.

Lemma hist_assign_progress l p j w :
  heap w !! l = Some j →
  (Progress.progress (Job.progress j) <= Progress.progress p)%Q →
  needs_watermark p j →
  hist_inv w → hist_inv (assign_progress l p w).
Proof.
  intros Hj Hle Hp [Hmax Hmono Hwm Hheap]. split; simpl.
  - intros l' j' p' Hj' Hin. rewrite list_lookup_alter in Hj'.
    destruct (decide (l = l')) as [<-|Hne].
    + rewrite Hj in Hj'. injection Hj' as <-. simpl.
      apply elem_of_cons in Hin as [[= <-]|Hin]; [apply Qle_refl|].
      eapply Qle_trans; [|exact Hle]. by eapply Hmax.
    + apply elem_of_cons in Hin as [[= ? ?]|Hin]; [done|]. by eapply Hmax.
  - intros [|i] [|i'] l' p' q Hlt Hi Hi'; simpl in *; try lia.
    + injection Hi as <- <-. eapply Qle_trans; [|exact Hle].
      eapply Hmax; [done|]. by eapply list_elem_of_lookup_2.
    + eapply (Hmono i i'); [lia | done..].
  - intros l' p' Hin. rewrite list_lookup_alter.
    apply elem_of_cons in Hin as [[= -> ->]|Hin].
    + rewrite decide_True, Hj by done. eexists. split; [done|]. exact Hp.
    + destruct (Hwm _ _ Hin) as (j' & Hj' & Hp').
      destruct (decide (l = l')) as [<-|Hne]; [|eauto].
      rewrite Hj'. eexists. split; [done|]. exact Hp'.
  - intros l' j' Hj'. rewrite list_lookup_alter in Hj'.
    destruct (decide (l = l')) as [<-|Hne]; [|by eapply Hheap].
    rewrite Hj in Hj'. injection Hj' as <-. exact Hp.
Qed.

Lemma hist_publish j w :
  needs_watermark (Job.progress j) j → hist_inv w → hist_inv (publish j w).
Proof.
  intros Hp Hw. pose proof (λ l p, hist_valid w l p Hw) as Hvalid.
  destruct Hw as [Hmax Hmono Hwm Hheap]. split; simpl.
  - intros l' j' p' Hj' Hin.
    rewrite lookup_app_l in Hj' by (by eapply Hvalid). by eapply Hmax.
  - done.
  - intros l' p' Hin. destruct (Hwm _ _ Hin) as (j' & Hj' & Hp').
    exists j'. split; [by apply lookup_app_l_Some | done].
  - intros l' j' [Hj'|[_ Hj']]%lookup_app_Some; [by eapply Hheap|].
    apply list_lookup_singleton_Some in Hj' as [_ <-]. done.
Qed.

Lemma hist_update l p j w :
  heap w !! l = Some j →
  (Progress.progress (Job.progress j) <= Progress.progress p)%Q →
  needs_watermark p j →
  hist_inv w → hist_inv (update l p j w).
Proof.
  intros Hj Hle Hp Hw. apply hist_publish; [done|].
  by eapply hist_assign_progress.
Qed.

Lemma hist_ext w w' :
  heap w' = heap w → history w' = history w → hist_inv w → hist_inv w'.
Proof.
  intros Hh Hy [Hmax Hmono Hwm Hheap].
  split; unfold history_monotone; rewrite ?Hh, ?Hy; done.
Qed.

Lemma hist_addJob env url settings w :
  hist_inv w → hist_inv (addJob env url settings w).2.
Proof.
  intros Hw. pose proof (λ l p, hist_valid w l p Hw) as Hvalid.
  destruct Hw as [Hmax Hmono Hwm Hheap]. unfold addJob, alloc. split; simpl.
  - intros l j p Hj [[= -> ->]|Hin]%elem_of_cons.
    + rewrite lookup_app_r, Nat.sub_diag in Hj by done. injection Hj as <-.
      apply Qle_refl.
    + rewrite lookup_app_l in Hj by (by eapply Hvalid). by eapply Hmax.
  - intros [|i] [|i'] l p q Hlt Hi Hi'; simpl in *; try lia.
    + injection Hi as <- <-.
      apply list_elem_of_lookup_2, Hvalid in Hi'. lia.
    + eapply (Hmono i i'); [lia | done..].
  - intros l p [[= -> ->]|Hin]%elem_of_cons.
    + eexists. rewrite lookup_app_r, Nat.sub_diag by done. split; [done|]. done.
    + destruct (Hwm _ _ Hin) as (j & Hj & Hp). exists j.
      split; [by apply lookup_app_l_Some | done].
  - intros l j [Hj|[_ Hj]]%lookup_app_Some; [by eapply Hheap|].
    apply list_lookup_singleton_Some in Hj as [_ <-]. done.
Qed.

(** ** Progress of the running activations *)

(** The percentage last written by an activation suspended at [p]. *)
Definition pc_level (p : Pc) : Q :=
  match p with
  | AwaitAnalyze | AwaitMetadata => 10
  | AwaitDownloadStep i _ => Progress.progress (download_substep i)
  | AwaitWatermark _ => 65
  | AwaitConvert _ => 80
  | AwaitFinalize _ => 95
  end.

Definition pc_bound (p : Pc) : Prop :=
  match p with
  | AwaitDownloadStep i _ => i < steps
  | _ => True
  end.

Definition level_inv (w : World) : Prop :=
  ∀ a, a ∈ suspended w →
    ∃ j, heap w !! self a = Some j ∧
         (Progress.progress (Job.progress j) <= pc_level (pc a))%Q ∧
         pc_bound (pc a).

Record Inv (w : World) : Prop := {
  inv_wf : wf w;
  inv_hist : hist_inv w;
  inv_level : level_inv w
}.

Lemma download_progress_eq i :
  (Progress.progress (download_substep i)
   == inject_Z (30 + 3 * Z.of_nat i))%Q.
Proof.
  unfold download_substep, download_snapshot, steps. cbn [Progress.progress].
  unfold Qeq, Qplus, Qmult, Qdiv, Qminus, Qopp, Qinv, inject_Z.
  cbn [Qnum Qden]. simpl. lia.
Qed.

Lemma download_progress_le i (z : Z) :
  (30 + 3 * Z.of_nat i ≤ z)%Z →
  (Progress.progress (download_substep i) <= inject_Z z)%Q.
Proof.
  intros H. rewrite download_progress_eq. unfold Qle, inject_Z. simpl. lia.
Qed.

Lemma download_progress_step i :
  (Progress.progress (download_substep i)
   <= Progress.progress (download_substep (S i)))%Q.
Proof.
  rewrite !download_progress_eq. unfold Qle, inject_Z. simpl. lia.
Qed.

Lemma keeps_progress_conclude outcome env : keeps_progress (conclude outcome env).
Proof. intros j. by destruct outcome. Qed.

Lemma keeps_progress_set_status s : keeps_progress (Job.set_status s).
Proof. by intros j. Qed.

Lemma keeps_progress_set_result r : keeps_progress (Job.set_result r).
Proof. by intros j. Qed.

Lemma hist_settled k l env outcome j w :
  hist_inv w → hist_inv (settled k l env outcome j w).
Proof.
  intros Hw. eapply hist_ext; [| |apply (hist_assign l (conclude outcome env) w)];
    [done | done | apply keeps_progress_conclude | done].
Qed.

Lemma hist_set_pc k p w : hist_inv w → hist_inv (set_pc k p w).
Proof. by apply hist_ext. Qed.

Lemma not_processing_stage s q m j :
  s ≠ Stage.processing → needs_watermark (snapshot s q m) j.
Proof. intros Hs H. done. Qed.

Lemma hist_resumption k env a j w w' :
  hist_inv w → level_inv w →
  suspended w !! k = Some a → heap w !! self a = Some j →
  Resumption k env a j w w' → hist_inv w'.
Proof.
  intros Hh Hl Ha Hj HR.
  destruct (Hl a) as (j0 & Hj0 & Hcur & Hb); [by eapply list_elem_of_lookup_2|].
  assert (j0 = j) as -> by congruence.
  destruct HR as [Hpc|Hpc Hm|m Hpc Hm|i m Hpc Hi|i m Hpc Hi Hwm|m Hpc|m Hpc
                  |m message Hpc Hd|m path Hpc Hd];
    try (rewrite Hpc in Hcur, Hb; simpl in Hcur, Hb).
  - by apply hist_set_pc.
  - by apply hist_settled.
  - apply hist_set_pc.
    eapply hist_assign_progress; [by apply heap_update_eq | | done |].
    { simpl. unfold Qle. simpl. lia. }
    eapply hist_update; [done | | done | done].
    eapply Qle_trans; [exact Hcur|]. done.
  - apply hist_set_pc. eapply hist_assign_progress; [done | | done | done].
    eapply Qle_trans; [exact Hcur|]. apply download_progress_step.
  - apply hist_set_pc. eapply hist_update; [done | | by intros _ | done].
    eapply Qle_trans; [exact Hcur|].
    apply (download_progress_le i 65). unfold steps in Hb. lia.
  - apply hist_set_pc. eapply hist_update; [done | | done | done].
    destruct Hpc as [(i & Hpc & Hi & Hwm)|Hpc]; rewrite Hpc in Hcur, Hb;
      simpl in Hcur, Hb; (eapply Qle_trans; [exact Hcur|]).
    + apply (download_progress_le i 80). unfold steps in Hb. lia.
    + done.
  - apply hist_set_pc. eapply hist_update; [done | | done | done].
    eapply Qle_trans; [exact Hcur|]. done.
  - by apply hist_settled.
  - apply hist_settled.
    eapply hist_update; [simpl; by rewrite list_lookup_alter_eq, Hj | | done |].
    { simpl. eapply Qle_trans; [exact Hcur|]. done. }
    apply hist_assign; [apply keeps_progress_set_result | done].
Qed.

(** What a resumption does to the object store and to the activations:
    only the object of the activation changes, and the activation either
    moves to a later [await], with its object at the level of that
    [await], or ends. *)
Lemma resumption_summary k env a j w w' :
  heap w !! self a = Some j →
  (Progress.progress (Job.progress j) <= pc_level (pc a))%Q →
  Resumption k env a j w w' →
  (∀ l', l' ≠ self a → l' < length (heap w) → heap w' !! l' = heap w !! l') ∧
  ((∃ pc' j',
      suspended w' = alter (λ a, {| self := self a; pc := pc' |}) k (suspended w) ∧
      heap w' !! self a = Some j' ∧
      (Progress.progress (Job.progress j') <= pc_level pc')%Q ∧ pc_bound pc') ∨
   suspended w' = delete k (suspended w)).
Proof.
  intros Hj Hcur HR.
  assert (∀ f l' (h : list Job.t), l' ≠ self a → alter f (self a) h !! l' = h !! l')
    as Hother by (intros; by apply list_lookup_alter_ne).
  destruct HR as [Hpc|Hpc Hm|m Hpc Hm|i m Hpc Hi|i m Hpc Hi Hwm|m Hpc|m Hpc
                  |m message Hpc Hd|m path Hpc Hd]; simpl;
    (split; [intros l' Hne Hlt;
             rewrite ?Hother, ?lookup_app_l, ?Hother
               by (rewrite ?length_app, ?length_alter; simpl; first [done|lia]);
             done|]).
  - left. exists AwaitMetadata, j. split_and!; [done.. | | done].
    by rewrite Hpc in Hcur.
  - by right.
  - left. eexists (AwaitDownloadStep 0 m), _. split_and!; [done | | | ].
    + rewrite list_lookup_alter_eq. rewrite lookup_app_l_Some with (x := Job.set_progress downloading_snapshot j);
        [done|]. by rewrite list_lookup_alter_eq, Hj.
    + apply Qle_refl.
    + simpl. unfold steps. lia.
  - left. eexists (AwaitDownloadStep (S i) m), _. split_and!; [done | | | done].
    + by rewrite list_lookup_alter_eq, Hj.
    + apply Qle_refl.
  - left. eexists (AwaitWatermark m), _. split_and!; [done | | | done].
    + apply lookup_app_l_Some. by rewrite list_lookup_alter_eq, Hj.
    + apply Qle_refl.
  - left. eexists (AwaitConvert m), _. split_and!; [done | | | done].
    + apply lookup_app_l_Some. by rewrite list_lookup_alter_eq, Hj.
    + apply Qle_refl.
  - left. eexists (AwaitFinalize m), _. split_and!; [done | | | done].
    + apply lookup_app_l_Some. by rewrite list_lookup_alter_eq, Hj.
    + apply Qle_refl.
  - by right.
  - by right.
Qed.

Lemma level_resumption k env a j w w' :
  wf w → level_inv w →
  suspended w !! k = Some a → heap w !! self a = Some j →
  Resumption k env a j w w' → level_inv w'.
Proof.
  intros Hw Hl Ha Hj HR.
  destruct (Hl a) as (j0 & Hj0 & Hcur & Hb); [by eapply list_elem_of_lookup_2|].
  assert (j0 = j) as -> by congruence.
  destruct (resumption_summary _ _ _ _ _ _ Hj Hcur HR) as [Hother Hsusp].
  assert (∀ k' a', k' ≠ k → suspended w !! k' = Some a' →
            ∃ j', heap w' !! self a' = Some j' ∧
                  (Progress.progress (Job.progress j') <= pc_level (pc a'))%Q ∧
                  pc_bound (pc a')) as Hrest.
  { intros k' a' Hne Ha'.
    destruct (Hl a') as (j' & Hj' & H); [by eapply list_elem_of_lookup_2|].
    exists j'. split; [|done]. rewrite Hother; [done | | by eapply lookup_lt_Some].
    intros Heq. apply Hne.
    eapply (NoDup_lookup (self <$> suspended w)); [apply Hw | |].
    - by apply self_lookup.
    - rewrite Heq. by apply self_lookup. }
  intros a' [k' Ha']%list_elem_of_lookup.
  destruct Hsusp as [(pc' & j' & Hs & Hj' & Hle & Hb')| Hs]; rewrite Hs in Ha'.
  - rewrite list_lookup_alter in Ha'. destruct (decide (k = k')) as [<-|Hne].
    + rewrite Ha in Ha'. injection Ha' as <-. simpl. eauto.
    + by eapply (Hrest k').
  - rewrite list_lookup_delete in Ha'. destruct (decide (k' < k)).
    + eapply (Hrest k'); [lia | done].
    + eapply (Hrest (S k')); [lia | done].
Qed.

Lemma inv_resumption k env a j w w' :
  Inv w → suspended w !! k = Some a → heap w !! self a = Some j →
  Resumption k env a j w w' → Inv w'.
Proof.
  intros [Hw Hh Hl] Ha Hj HR. split.
  - by eapply wf_resumption.
  - by eapply hist_resumption.
  - by eapply level_resumption.
Qed.

Lemma inv_new_queue : Inv new_queue.
Proof.
  split; [apply wf_new_queue | apply hist_new_queue |].
  intros a H. by apply elem_of_nil in H.
Qed.

Lemma inv_addJob env url settings w : Inv w → Inv (addJob env url settings w).2.
Proof.
  intros [Hw Hh Hl]. split; [by apply wf_addJob | by apply hist_addJob |].
  intros a Ha. destruct (Hl a) as (j & Hj & H); [done|].
  exists j. split; [|done]. unfold addJob, alloc. simpl. by apply lookup_app_l_Some.
Qed.

Lemma inv_with_timers n w : Inv w → Inv (with_timers n w).
Proof.
  intros [Hw Hh Hl]. split; [by apply wf_with_timers | by apply (hist_ext w) | done].
Qed.

Lemma inv_admission l j w :
  find_queued (heap w) (jobs w) = Some l → heap w !! l = Some j →
  Inv w → Inv (admission l j w).
Proof.
  intros Hfind Hj [Hw Hh Hl].
  destruct (find_queued_Some _ _ _ Hfind) as (before & k & after & j0 & Hm & Hj0 & Hq & _).
  assert (j0 = j) as -> by congruence.
  assert ((k, l) ∈ jobs w) as Hin.
  { rewrite Hm, elem_of_app, elem_of_cons. auto. }
  destruct (wf_registry w Hw _ _ Hin) as (j1 & Hj1 & Hid & He & Hc & Hst).
  assert (j1 = j) as -> by congruence.
  destruct Hst as [Hst|(_ & Hinit & _)]; [congruence|].
  split.
  - by apply wf_admission.
  - unfold admission.
    eapply hist_ext; [| |eapply (hist_update l analyzing_snapshot
      (Job.set_status Status.processing j)
      (assign l (Job.set_status Status.processing)
         (with_activeJobs ({[Job.id j]} ∪ activeJobs w) w)))]; [done | done | | | done |].
    + simpl. by rewrite list_lookup_alter_eq, Hj.
    + simpl. rewrite Hinit. done.
    + apply hist_assign; [apply keeps_progress_set_status|]. by apply (hist_ext w).
  - intros a. unfold admission. simpl. rewrite elem_of_app, list_elem_of_singleton.
    intros [Ha| ->].
    + destruct (Hl a Ha) as (j' & Hj' & H). exists j'. split; [|done].
      apply lookup_app_l_Some. rewrite !list_lookup_alter_ne; [done | |].
      * intros ->. destruct (wf_running w Hw (self a)) as (j2 & Hj2 & Hst2 & _).
        { apply list_elem_of_fmap. eauto. }
        congruence.
      * intros ->. destruct (wf_running w Hw (self a)) as (j2 & Hj2 & Hst2 & _).
        { apply list_elem_of_fmap. eauto. }
        congruence.
    + exists (Job.set_progress analyzing_snapshot
                (Job.set_status Status.processing j)).
      simpl. split_and!; [|apply Qle_refl|done].
      apply lookup_app_l_Some. rewrite list_alter_alter_eq, list_lookup_alter_eq, Hj.
      done.
Qed.

Lemma inv_step env ev w o w' : Inv w → step_ env ev w = Some (o, w') → Inv w'.
Proof.
  intros Hw. destruct ev as [url settings| |k]; simpl.
  - intros [= _ <-]. by apply inv_addJob.
  - destruct (timers w) as [|n] eqn:Ht; [done|].
    apply (inv_with_timers n) in Hw.
    destruct (processNextJob_cases (with_timers n w))
      as [[-> _]|(l & j & _ & Hfind & Hj & ->)]; simpl.
    + by intros [= _ <-].
    + intros [= _ <-]. by apply inv_admission.
  - destruct (resume_ k env w) as [w1|] eqn:Hr; [|done]. simpl. intros [= _ <-].
    destruct (resume_cases _ _ _ _ Hr) as (a & j & Ha & Hj & HR).
    by eapply inv_resumption.
Qed.

Lemma inv_run evs w os w' : Inv w → run_ evs w = Some (os, w') → Inv w'.
Proof.
  revert w os. induction evs as [|[env ev] evs IH]; intros w os Hw; simpl.
  - by intros [= _ <-].
  - destruct (step_ env ev w) as [[o w1]|] eqn:Hs; [|done]. simpl.
    destruct (run_ evs w1) as [[os' w2]|] eqn:Hr; [|done]. simpl.
    intros [= _ <-]. eapply IH; [|done]. by eapply inv_step.
Qed.

(** ** The identifiers in the map *)

Lemma keys_resumption k env a j w w' :
  wf w → suspended w !! k = Some a → heap w !! self a = Some j →
  Resumption k env a j w w' → (jobs w').*1 = (jobs w).*1.
Proof.
  intros Hw Ha Hj HR.
  destruct (wf_running w Hw (self a)) as (j0 & Hj0 & _ & _ & _ & Hid & _).
  { by eapply self_elem. }
  assert (j0 = j) as -> by congruence.
  destruct HR; simpl; rewrite ?map_set_keys_in; done.
Qed.

Lemma keys_admission l j w :
  wf w → find_queued (heap w) (jobs w) = Some l → heap w !! l = Some j →
  (jobs (admission l j w)).*1 = (jobs w).*1.
Proof.
  intros Hw Hfind Hj.
  destruct (find_queued_Some _ _ _ Hfind) as (before & k & after & j0 & Hm & Hj0 & _).
  assert (j0 = j) as -> by congruence.
  assert ((k, l) ∈ jobs w) as Hin.
  { rewrite Hm, elem_of_app, elem_of_cons. auto. }
  destruct (wf_registry w Hw _ _ Hin) as (j1 & Hj1 & Hid & _).
  assert (j1 = j) as -> by congruence.
  simpl. rewrite map_set_keys_in; [done|]. rewrite Hid.
  apply list_elem_of_fmap. by exists (k, l).
Qed.

Lemma keys_addJob env url settings w i :
  i ∈ (jobs (addJob env url settings w).2).*1 ↔ i = jobId env ∨ i ∈ (jobs w).*1.
Proof.
  unfold addJob, alloc. simpl.
  destruct (decide (jobId env ∈ (jobs w).*1)) as [Hin|Hin].
  - rewrite map_set_keys_in by done. split; [by right|]. by intros [->|?].
  - rewrite map_set_fresh, fmap_app, elem_of_app by done. simpl.
    rewrite list_elem_of_singleton. tauto.
Qed.

Lemma addJob_fst env url settings w : (addJob env url settings w).1 = jobId env.
Proof. done. Qed.

Lemma keys_step env ev w o w' i :
  wf w → step_ env ev w = Some (o, w') →
  i ∈ (jobs w').*1 ↔ o = Returned i ∨ i ∈ (jobs w).*1.
Proof.
  intros Hw. destruct ev as [url settings| |k]; simpl.
  - intros [= <- <-]. etrans; [apply (keys_addJob env url settings w i)|].
    split; intros [H|H]; auto; left; congruence.
  - destruct (timers w) as [|n] eqn:Ht; [done|].
    apply (wf_with_timers n) in Hw.
    destruct (processNextJob_cases (with_timers n w))
      as [[-> _]|(l & j & _ & Hfind & Hj & ->)]; simpl; intros [= <- <-].
    + split; [by right | by intros [?|?]].
    + rewrite keys_admission by done. split; [by right | by intros [?|?]].
  - destruct (resume_ k env w) as [w1|] eqn:Hr; [|done]. simpl. intros [= <- <-].
    destruct (resume_cases _ _ _ _ Hr) as (a & j & Ha & Hj & HR).
    erewrite keys_resumption by done. split; [by right | by intros [?|?]].
Qed.

Lemma keys_run evs w os w' i :
  wf w → run_ evs w = Some (os, w') →
  i ∈ (jobs w').*1 ↔ i ∈ returned os ∨ i ∈ (jobs w).*1.
Proof.
  revert w os. induction evs as [|[env ev] evs IH]; intros w os Hw; simpl.
  - intros [= <- <-]. unfold returned. simpl. rewrite elem_of_nil. tauto.
  - destruct (step_ env ev w) as [[o w1]|] eqn:Hs; [|done]. simpl.
    destruct (run_ evs w1) as [[os' w2]|] eqn:Hr; [|done]. simpl.
    intros [= <- <-]. rewrite (IH w1 os') by (done || by eapply wf_step).
    rewrite (keys_step _ _ _ _ _ _ Hw Hs). unfold returned.
    destruct o as [i'| |]; simpl; rewrite ?elem_of_cons;
      intuition (try congruence).
Qed.

Lemma getJob_is_Some i w : wf w → is_Some (getJob i w) ↔ i ∈ (jobs w).*1.
Proof.
  intros Hw. rewrite <-map_get_is_Some. unfold getJob.
  destruct (map_get i (jobs w)) as [l|] eqn:Hl; simpl.
  - apply map_get_Some_elem in Hl.
    destruct (wf_registry w Hw _ _ Hl) as (j & -> & _). split; eauto.
  - split; intros [? ?]; done.
Qed.

Lemma returned_ids evs w os w' i :
  run_ evs w = Some (os, w') → i ∈ returned os → ∃ env, i = jobId env.
Proof.
  revert w os. induction evs as [|[env ev] evs IH]; intros w os; simpl.
  - intros [= <- <-] H. by apply elem_of_nil in H.
  - destruct (step_ env ev w) as [[o w1]|] eqn:Hs; [|done]. simpl.
    destruct (run_ evs w1) as [[os' w2]|] eqn:Hr; [|done]. simpl.
    intros [= <- <-]. unfold returned.
    destruct ev as [url settings| |k]; simpl in Hs.
    + injection Hs as <- <-. simpl. rewrite elem_of_cons. intros [->|H].
      * by exists env.
      * by eapply IH.
    + destruct (timers w); [done|].
      destruct (processNextJob _) as [[adm w0]|]; [|done].
      injection Hs as <- <-. simpl. by eapply IH.
    + destruct (resume_ k env w); [|done].
      injection Hs as <- <-. simpl. by eapply IH.
Qed.

(** ** Lookups and progress *)


(** C10. A job just created by [addJob] is [queued] and its snapshot has
    stage [analyzing], 0 per cent and the message of a queued job; and
    after any execution, every record that [getJob] finds with status
    [queued] still shows exactly that snapshot, so a poller sees the stage
    [analyzing] before the job is dispatched. *)
Theorem queued_job_shows_analyzing evs os w env url settings :
  run_ evs new_queue = Some (os, w) →
  (let '(i, w1) := addJob env url settings w in
   ∃ job, getJob i w1 = Some job ∧ Job.status job = Status.queued ∧
          Job.progress job = initial_progress) ∧
  (∀ i job, getJob i w = Some job → Job.status job = Status.queued →
     Job.progress job = initial_progress) ∧
  Progress.stage initial_progress = Stage.analyzing ∧
  Progress.progress initial_progress = 0%Q ∧
  Progress.message initial_progress = "Job queued for processing".
Proof.
  intros Hrun. pose proof (wf_run _ _ _ _ wf_new_queue Hrun) as Hw.
  split_and!; [| |done..].
  - unfold addJob, alloc, getJob. simpl. rewrite map_get_set_eq. simpl.
    rewrite lookup_app_r, Nat.sub_diag by done. simpl. eauto.
  - intros i job Hjob Hq.
    destruct (getJob_registry_record _ _ _ Hw Hjob) as (_ & _ & _ & [Hp|(_ & Hinit & _)]);
      [congruence | done].
Qed.

(** C4. After any execution from a new queue: of any two assignments to
    the [progress] of one job object (the snapshot of [addJob], those of
    [updateProgress] and those of [simulateDownloadProgress]), the later
    one carries a percentage at least as large as the earlier one. *)
Theorem progress_never_decreases evs os w i i' l p q :
  run_ evs new_queue = Some (os, w) →
  i < i' → history w !! i = Some (l, q) → history w !! i' = Some (l, p) →
  (Progress.progress p <= Progress.progress q)%Q.
Proof.
  intros Hrun. pose proof (inv_run _ _ _ _ inv_new_queue Hrun) as [_ Hh _].
  apply (hist_mono w Hh).
Qed.

(** C8. After any execution from a new queue: when the request of a job
    does not ask for watermark removal, no snapshot assigned to the job
    has the stage [processing], and neither has the snapshot of any record
    that [getJob] finds for it. *)
Theorem no_watermark_stage_unless_requested evs os w :
  run_ evs new_queue = Some (os, w) →
  (∀ l p job, (l, p) ∈ history w → heap w !! l = Some job →
     removeWatermark (Job.settings job) = false →
     Progress.stage p ≠ Stage.processing) ∧
  (∀ i job, getJob i w = Some job →
     removeWatermark (Job.settings job) = false →
     Progress.stage (Job.progress job) ≠ Stage.processing).
Proof.
  intros Hrun. pose proof (inv_run _ _ _ _ inv_new_queue Hrun) as [_ Hh _].
  split.
  - intros l p job Hin Hjob Hwm Hst.
    destruct (hist_wm w Hh _ _ Hin) as (j & Hj & Hp).
    assert (j = job) as -> by congruence.
    rewrite (Hp Hst) in Hwm. done.
  - intros i job Hjob Hwm Hst. unfold getJob in Hjob.
    destruct (map_get i (jobs w)) as [l|]; [|done]. simpl in Hjob.
    rewrite (heap_wm w Hh _ _ Hjob Hst) in Hwm. done.
Qed.

(** ** Order of admission *)

(** The identifiers in the map with the status a caller sees, in the
    iteration order of the map. *)
Definition listing (h : list Job.t) (m : list (string * nat))
  : list (string * option Status.t) :=
  (λ e, (e.1, Job.status <$> h !! e.2)) <$> m.

Definition as_processing (k : string) : string * option Status.t :=
  (k, Some Status.processing).
Definition as_queued (k : string) : string * option Status.t :=
  (k, Some Status.queued).

(** [fifo w A Q]: the map lists the jobs admitted so far, [A], in the order
    of their admission, followed by the waiting jobs, [Q], in the order of
    their submission; the running activations work on jobs of [A]. *)
Definition fifo (w : World) (A Q : list string) : Prop :=
  listing (heap w) (jobs w) = (as_processing <$> A) ++ (as_queued <$> Q) ∧
  ∀ l j, l ∈ self <$> suspended w → heap w !! l = Some j → Job.id j ∈ A.

Lemma listing_keys h m : (listing h m).*1 = m.*1.
Proof. unfold listing. rewrite <-list_fmap_compose. by apply list_fmap_ext. Qed.

Lemma fifo_keys w A Q : fifo w A Q → (jobs w).*1 = A ++ Q.
Proof.
  intros [H _]. rewrite <-(listing_keys (heap w)), H, fmap_app.
  rewrite <-!list_fmap_compose.
  f_equal; (etrans; [|apply list_fmap_id]); by apply list_fmap_ext.
Qed.

Lemma listing_ext h h' m :
  (∀ k l, (k, l) ∈ m → h' !! l = h !! l) → listing h' m = listing h m.
Proof.
  intros H. unfold listing. apply list_fmap_ext.
  intros i [k l] Hi. simpl. rewrite (H k l); [done|].
  by eapply list_elem_of_lookup_2.
Qed.

Lemma listing_app h m1 m2 : listing h (m1 ++ m2) = listing h m1 ++ listing h m2.
Proof. unfold listing. apply fmap_app. Qed.

Lemma map_set_middle k v v' before after :
  k ∉ before.*1 →
  map_set k v' (before ++ (k, v) :: after) = before ++ (k, v') :: after.
Proof.
  induction before as [|[k0 v0] before IH]; simpl; intros Hk.
  - by rewrite decide_True.
  - apply not_elem_of_cons in Hk as [Hne Hk].
    rewrite decide_False by done. by rewrite IH.
Qed.

Lemma listing_split xs ys k A Q :
  xs ++ (k, Some Status.queued) :: ys = (as_processing <$> A) ++ (as_queued <$> Q) →
  Forall (λ e, e.2 ≠ Some Status.queued) xs →
  xs = as_processing <$> A ∧ ∃ Q', Q = k :: Q' ∧ ys = as_queued <$> Q'.
Proof.
  revert xs. induction A as [|a A IH]; intros xs; simpl.
  - destruct xs as [|x xs]; simpl.
    + destruct Q as [|q Q]; [done|]. simpl. intros [= -> ->] _.
      split; [done|]. eauto.
    + destruct Q as [|q Q]; [done|]. simpl. intros [= -> _] Hall.
      apply Forall_cons in Hall as [Hx _]. done.
  - destruct xs as [|x xs]; simpl.
    + by intros [=].
    + intros [= -> Heq] Hall. apply Forall_cons in Hall as [_ Hall].
      destruct (IH _ Heq Hall) as (-> & Q' & -> & ->). split; [done|]. eauto.
Qed.

(** Replacing the object of an entry by one with the same status leaves
    the listing as it is. *)
Lemma listing_map_set h h' m k c s :
  NoDup m.*1 →
  (∀ k' l, (k', l) ∈ m → h' !! l = h !! l) →
  Job.status <$> h' !! c = Some s →
  (k, Some s) ∈ listing h m →
  listing h' (map_set k c m) = listing h m.
Proof.
  intros Hnd Hagree Hc Hin.
  apply list_elem_of_fmap in Hin as ([k0 l0] & [= <- Hs] & Hin). simpl in Hs.
  apply list_elem_of_split in Hin as (before & after & ->).
  rewrite fmap_app in Hnd. apply NoDup_app in Hnd as (_ & Hd & _).
  rewrite map_set_middle.
  2:{ intros Hk. apply (Hd k Hk). simpl. apply list_elem_of_here. }
  rewrite !listing_app. simpl. f_equal; [|f_equal].
  - apply listing_ext. intros k' l Hin. apply (Hagree k').
    rewrite elem_of_app. auto.
  - by rewrite Hc, Hs.
  - apply listing_ext. intros k' l Hin. apply (Hagree k').
    rewrite elem_of_app, elem_of_cons. auto.
Qed.

Lemma as_processing_elem k (A : list string) :
  k ∈ A → as_processing k ∈ as_processing <$> A.
Proof. intros H. by apply list_elem_of_fmap_2. Qed.

Lemma fifo_addJob env url settings w A Q :
  wf w → fifo w A Q → jobId env ∉ A ++ Q →
  fifo (addJob env url settings w).2 A (Q ++ [jobId env]).
Proof.
  intros Hw HF Hfresh. pose proof (fifo_keys _ _ _ HF) as Hkeys.
  destruct HF as [Hlist Hrun]. unfold addJob, alloc. split; simpl.
  - rewrite map_set_fresh by (by rewrite Hkeys).
    rewrite listing_app, fmap_app, app_assoc, <-Hlist. f_equal.
    + apply listing_ext. intros k l Hin. apply lookup_app_l.
      by eapply registry_record_lt, wf_registry.
    + simpl. by rewrite lookup_app_r, Nat.sub_diag.
  - intros l j Hl Hj. apply (Hrun l j Hl).
    rewrite lookup_app_l in Hj; [done|].
    by eapply running_lt, wf_running.
Qed.

Lemma fifo_admission l j w A Q :
  wf w → fifo w A Q →
  find_queued (heap w) (jobs w) = Some l → heap w !! l = Some j →
  ∃ Q', Q = Job.id j :: Q' ∧ fifo (admission l j w) (A ++ [Job.id j]) Q'.
Proof.
  intros Hw [Hlist Hrun] Hfind Hj.
  destruct (find_queued_Some _ _ _ Hfind) as (before & k & after & j0 & Hm & Hj0 & Hq & Hb).
  assert (j0 = j) as -> by congruence.
  assert ((k, l) ∈ jobs w) as Hin.
  { rewrite Hm, elem_of_app, elem_of_cons. auto. }
  destruct (wf_registry w Hw _ _ Hin) as (j1 & Hj1 & Hid & _).
  assert (j1 = j) as -> by congruence. subst k.
  pose proof (wf_keys w Hw) as Hnd. rewrite Hm, fmap_app in Hnd.
  apply NoDup_app in Hnd as (_ & Hd & Hnd'). simpl in Hnd'.
  apply NoDup_cons in Hnd' as [Hafter _].
  rewrite Hm, listing_app in Hlist.
  change (listing (heap w) ((Job.id j, l) :: after))
    with ((Job.id j, Job.status <$> heap w !! l) :: listing (heap w) after) in Hlist.
  rewrite Hj in Hlist. cbn [fmap option_fmap option_map] in Hlist.
  rewrite Hq in Hlist.
  apply listing_split in Hlist as (Hbefore & Q' & -> & Hafter').
  2:{ apply Forall_fmap. eapply Forall_impl; [exact Hb|].
      intros [k' l'] H. simpl in *. destruct (heap w !! l') as [j'|]; [|done].
      simpl. intros [= Hs]. by apply (H j'). }
  exists Q'. split; [done|].
  assert (∀ k' l', (k', l') ∈ before ++ after → l' ≠ l ∧ l' < length (heap w)) as Hlocs.
  { intros k' l' Hin'.
    assert ((k', l') ∈ jobs w) as Hin''.
    { rewrite Hm, elem_of_app, elem_of_cons. apply elem_of_app in Hin'. tauto. }
    destruct (wf_registry w Hw _ _ Hin'') as (j' & Hj' & Hid' & _).
    split; [|by eapply lookup_lt_Some].
    intros ->. assert (j' = j) as -> by congruence.
    apply elem_of_app in Hin' as [Hin'|Hin'].
    - apply (Hd (Job.id j)); [|apply list_elem_of_here].
      apply list_elem_of_fmap. by exists (k', l).
    - apply Hafter. apply list_elem_of_fmap. by exists (k', l). }
  split; simpl.
  - rewrite list_alter_alter_eq, length_alter, Hm.
    rewrite map_set_middle.
    2:{ intros Hk. apply (Hd _ Hk). apply list_elem_of_here. }
    rewrite listing_app. simpl.
    rewrite lookup_app_r, length_alter, Nat.sub_diag by (by rewrite length_alter).
    simpl. rewrite fmap_app, <-app_assoc. simpl. f_equal; [|f_equal].
    + rewrite <-Hbefore. apply listing_ext. intros k' l' Hin'.
      destruct (Hlocs k' l') as [Hne Hlt]; [rewrite elem_of_app; auto|].
      rewrite lookup_app_l by (by rewrite length_alter).
      by rewrite list_lookup_alter_ne.
    + rewrite <-Hafter'. apply listing_ext. intros k' l' Hin'.
      destruct (Hlocs k' l') as [Hne Hlt]; [rewrite elem_of_app; auto|].
      rewrite lookup_app_l by (by rewrite length_alter).
      by rewrite list_lookup_alter_ne.
  - intros l' j'. rewrite fmap_app, elem_of_app. simpl.
    rewrite list_elem_of_singleton, list_alter_alter_eq.
    intros Hl' Hj'. rewrite elem_of_app, list_elem_of_singleton.
    destruct (decide (l' = l)) as [->|Hne].
    + right. rewrite lookup_app_l in Hj'
        by (rewrite length_alter; by eapply lookup_lt_Some).
      rewrite list_lookup_alter_eq, Hj in Hj'. by injection Hj' as <-.
    + left. destruct Hl' as [Hl'|?]; [|done]. apply (Hrun l' j' Hl').
      rewrite lookup_app_l in Hj'.
      2:{ rewrite length_alter. by eapply running_lt, wf_running. }
      by rewrite list_lookup_alter_ne in Hj'.
Qed.

Lemma resumption_heap_other k env a j w w' l :
  Resumption k env a j w w' →
  l ≠ self a → l < length (heap w) → heap w' !! l = heap w !! l.
Proof.
  intros HR Hne Hlt.
  assert (∀ f (h : list Job.t), alter f (self a) h !! l = h !! l)
    as Hother by (intros; by apply list_lookup_alter_ne).
  destruct HR; simpl;
    rewrite ?Hother, ?lookup_app_l, ?Hother
      by (rewrite ?length_app, ?length_alter; simpl; first [done|lia]);
    done.
Qed.

Lemma resumption_self k env a j w w' j' :
  heap w !! self a = Some j → Resumption k env a j w w' →
  heap w' !! self a = Some j' → Job.id j' = Job.id j.
Proof.
  intros Hj HR. pose proof (lookup_lt_Some _ _ _ Hj) as Hlt.
  destruct HR as [| | | | | | |? message|]; simpl;
    repeat first
      [ rewrite list_lookup_alter_eq
      | rewrite lookup_app_l by (rewrite ?length_alter; done)
      | rewrite Hj
      | progress simpl ];
    intros [= <-]; done.
Qed.

Lemma resumption_selfs k env a j w w' l :
  Resumption k env a j w w' →
  l ∈ self <$> suspended w' → l ∈ self <$> suspended w.
Proof.
  intros HR.
  destruct HR; simpl; rewrite ?self_set_pc, ?list_fmap_delete;
    first [done | apply list_elem_of_delete_inv].
Qed.

(** The map after a resumption: unchanged, or the entry of the job now
    refers to a new copy, which is [processing]. *)
Lemma resumption_jobs k env a j w w' :
  heap w !! self a = Some j → Job.status j = Status.processing →
  Resumption k env a j w w' →
  jobs w' = jobs w ∨
  (jobs w' = map_set (Job.id j) (length (heap w)) (jobs w) ∧
   Job.status <$> heap w' !! length (heap w) = Some Status.processing).
Proof.
  intros Hj Hst HR. pose proof (lookup_lt_Some _ _ _ Hj) as Hlt.
  destruct HR as [| | | | | | |? message|]; simpl; auto; right;
    (split; [by rewrite ?length_alter|]);
    repeat first
      [ rewrite list_lookup_alter_ne by lia
      | rewrite lookup_app_r by (rewrite ?length_alter; done)
      | rewrite length_alter
      | rewrite Nat.sub_diag
      | rewrite lookup_app_l by (rewrite ?length_app, ?length_alter; simpl; lia)
      | progress simpl ];
    by rewrite ?Hst.
Qed.

Lemma fifo_resumption k env a j w w' A Q :
  wf w → fifo w A Q →
  suspended w !! k = Some a → heap w !! self a = Some j →
  Resumption k env a j w w' → fifo w' A Q.
Proof.
  intros Hw [Hlist Hrun] Ha Hj HR.
  pose proof (self_elem _ _ _ Ha) as Hl.
  destruct (wf_running w Hw _ Hl) as (j0 & Hj0 & Hst & _ & _ & _ & Hsep).
  assert (j0 = j) as -> by congruence.
  assert (∀ k' l, (k', l) ∈ jobs w → heap w' !! l = heap w !! l) as Hagree.
  { intros k' l Hin. eapply resumption_heap_other; [done | |].
    - intros ->. by apply (Hsep k').
    - by eapply registry_record_lt, wf_registry. }
  split.
  - rewrite <-Hlist.
    destruct (resumption_jobs _ _ _ _ _ _ Hj Hst HR) as [->|[-> Hc]].
    + by apply listing_ext.
    + eapply listing_map_set; [apply Hw | done | done |].
      rewrite Hlist, elem_of_app. left.
      apply as_processing_elem. by eapply Hrun.
  - intros l j' Hl' Hj'. apply (resumption_selfs _ _ _ _ _ _ _ HR) in Hl'.
    destruct (decide (l = self a)) as [->|Hne].
    + rewrite (resumption_self _ _ _ _ _ _ _ Hj HR Hj'). by eapply Hrun.
    + apply (Hrun l j' Hl').
      erewrite <-resumption_heap_other; [done.. |].
      by eapply running_lt, wf_running.
Qed.

Lemma returned_cons o os : returned (o :: os) = returned [o] ++ returned os.
Proof. by destruct o. Qed.

Lemma admitted_cons o os : admitted (o :: os) = admitted [o] ++ admitted os.
Proof. by destruct o as [|[]|]. Qed.

Lemma fifo_step env ev w o w' A Q :
  wf w → fifo w A Q → step_ env ev w = Some (o, w') →
  (∀ i, o = Returned i → i ∉ A ++ Q) →
  ∃ Q', fifo w' (A ++ admitted [o]) Q' ∧
        (A ++ admitted [o]) ++ Q' = A ++ Q ++ returned [o].
Proof.
  intros Hw HF. destruct ev as [url settings| |k]; simpl.
  - intros [= <- <-] Hfresh. exists (Q ++ [jobId env]). simpl.
    rewrite app_nil_r. split; [|done].
    apply fifo_addJob; [done..|]. by apply Hfresh.
  - destruct (timers w) as [|n] eqn:Ht; [done|].
    assert (fifo (with_timers n w) A Q) as HF' by done.
    apply (wf_with_timers n) in Hw.
    destruct (processNextJob_cases (with_timers n w))
      as [[-> _]|(l & j & _ & Hfind & Hj & ->)]; simpl; intros [= <- <-] _.
    + exists Q. simpl. by rewrite !app_nil_r.
    + destruct (fifo_admission _ _ _ _ _ Hw HF' Hfind Hj) as (Q' & -> & HF'').
      exists Q'. simpl. split; [done|]. by rewrite app_nil_r, <-app_assoc.
  - destruct (resume_ k env w) as [w1|] eqn:Hr; [|done]. simpl. intros [= <- <-] _.
    destruct (resume_cases _ _ _ _ Hr) as (a & j & Ha & Hj & HR).
    exists Q. simpl. rewrite !app_nil_r. split; [|done].
    by eapply fifo_resumption.
Qed.

Lemma fifo_run evs w os w' A Q :
  wf w → fifo w A Q → run_ evs w = Some (os, w') →
  NoDup (A ++ Q ++ returned os) →
  ∃ Q', fifo w' (A ++ admitted os) Q' ∧
        (A ++ admitted os) ++ Q' = A ++ Q ++ returned os.
Proof.
  revert w os A Q. induction evs as [|[env ev] evs IH]; intros w os A Q Hw HF; simpl.
  - intros [= <- <-] _. exists Q. simpl. by rewrite !app_nil_r.
  - destruct (step_ env ev w) as [[o w1]|] eqn:Hs; [|done]. simpl.
    destruct (run_ evs w1) as [[os' w2]|] eqn:Hr; [|done]. simpl.
    intros [= <- <-]. rewrite returned_cons, admitted_cons. intros Hnd.
    destruct (fifo_step _ _ _ _ _ _ _ Hw HF Hs) as (Q1 & HF1 & Heq1).
    { intros i ->. simpl in Hnd. rewrite app_assoc in Hnd.
      apply NoDup_app in Hnd as (_ & Hd & _). intros Hin.
      apply (Hd i Hin). apply list_elem_of_here. }
    destruct (IH w1 os' _ Q1 (wf_step _ _ _ _ _ Hw Hs) HF1 Hr) as (Q' & HF' & Heq').
    { rewrite app_assoc, Heq1. by rewrite <-!app_assoc. }
    exists Q'. rewrite (app_assoc A (admitted [o]) (admitted os')).
    split; [done|]. rewrite Heq'.
    rewrite (app_assoc _ Q1 (returned os')), Heq1. by rewrite <-!app_assoc.
Qed.

Lemma listing_getJob i s w :
  wf w → (i, Some s) ∈ listing (heap w) (jobs w) →
  Job.status <$> getJob i w = Some s.
Proof.
  intros Hw Hin.
  apply list_elem_of_fmap in Hin as ([k l] & [= <- Hs] & Hin). simpl in Hs.
  unfold getJob. rewrite (map_get_elem _ _ _ (wf_keys w Hw) Hin). simpl. done.
Qed.

Lemma fifo_queue_with_limit n : fifo (queue_with_limit n) [] [].
Proof. split; [done|]. intros l j H. by apply elem_of_nil in H. Qed.


(** ** The limit on running jobs *)

Lemma size_add_le (i : string) (X : gset string) : size ({[i]} ∪ X) ≤ S (size X).
Proof.
  rewrite size_union_alt, size_singleton.
  assert (size (X ∖ {[i]}) ≤ size X); [|lia].
  apply subseteq_size. intros x Hx. by apply elem_of_difference in Hx as [? _].
Qed.

Lemma size_delete_le (i : string) (X : gset string) : size (X ∖ {[i]}) ≤ size X.
Proof.
  apply subseteq_size. intros x Hx. by apply elem_of_difference in Hx as [? _].
Qed.

Lemma activeJobs_step env ev w o w' :
  size (activeJobs w) ≤ maxConcurrentJobs w →
  step_ env ev w = Some (o, w') →
  size (activeJobs w') ≤ maxConcurrentJobs w' ∧
  maxConcurrentJobs w' = maxConcurrentJobs w.
Proof.
  intros Hb. destruct ev as [url settings| |k]; simpl.
  - by intros [= <- <-].
  - destruct (timers w) as [|n] eqn:Ht; [done|].
    destruct (processNextJob_cases (with_timers n w))
      as [[-> _]|(l & j & Hfree & _ & _ & ->)]; simpl; intros [= <- <-]; [done|].
    simpl in *. split; [|done]. pose proof (size_add_le (Job.id j) (activeJobs w)). lia.
  - destruct (resume_ k env w) as [w1|] eqn:Hr; [|done]. simpl. intros [= <- <-].
    destruct (resume_cases _ _ _ _ Hr) as (a & j & Ha & Hj & HR).
    destruct HR; simpl; try done; (split; [|done]);
      (etrans; [apply size_delete_le | done]).
Qed.

(** X1. In every execution, on a queue with any limit, [activeJobs] never
    holds more identifiers than the limit, and the limit does not
    change. *)
Lemma activeJobs_bounded n evs os w :
  run_ evs (queue_with_limit n) = Some (os, w) →
  size (activeJobs w) ≤ maxConcurrentJobs w ∧ maxConcurrentJobs w = n.
Proof.
  assert (∀ evs w0 os w, size (activeJobs w0) ≤ maxConcurrentJobs w0 →
            run_ evs w0 = Some (os, w) →
            size (activeJobs w) ≤ maxConcurrentJobs w ∧
            maxConcurrentJobs w = maxConcurrentJobs w0) as H.
  { clear. induction evs as [|[env ev] evs IH]; intros w0 os w Hb; simpl.
    - by intros [= _ <-].
    - destruct (step_ env ev w0) as [[o w1]|] eqn:Hs; [|done]. simpl.
      destruct (run_ evs w1) as [[os' w2]|] eqn:Hr; [|done]. simpl.
      intros [= _ <-].
      destruct (activeJobs_step _ _ _ _ _ Hb Hs) as [Hb1 Hm1].
      destruct (IH _ _ _ Hb1 Hr) as [Hb2 Hm2]. split; [done | congruence]. }
  intros Hrun. apply (H _ _ _ _) in Hrun; [done|].
  change (size (∅ : gset string) ≤ n). rewrite size_empty. lia.
Qed.


(** ** The sub-steps of the downloading stage *)

(** C6, as the code has it.  The [downloading] stage starts at 30 per cent,
    not at 10: its sub-steps are [steps = 10] snapshots of stage
    [downloading] at 30 + ((60 - 30) / 10) * i per cent, that is
    30, 33, ..., 57, each with an estimated remaining time of one half
    second for each of the [steps - i] sub-steps left.  The first is
    written on entering the stage, right after the snapshot of
    [updateProgress("downloading", 30, ..)]; each following one is written
    by the next resumption; and after the tenth the next snapshot belongs
    to a later stage. *)
Theorem download_substeps_from_30 :
  steps = 10 ∧
  (∀ i, i < steps →
     Progress.stage (download_substep i) = Stage.downloading ∧
     (Progress.progress (download_substep i)
      == 30 + ((60 - 30) / 10) * inject_Z (Z.of_nat i))%Q ∧
     (Progress.progress (download_substep i)
      == inject_Z (30 + 3 * Z.of_nat i))%Q ∧
     ∃ t, Progress.estimatedTimeRemaining (download_substep i) = Some t ∧
          (t == inject_Z (Z.of_nat (steps - i)) * (1 # 2))%Q) ∧
  (∀ k env w a j m,
     suspended w !! k = Some a → heap w !! self a = Some j →
     pc a = AwaitMetadata → extractMetadata_ env (Job.url j) = Some m →
     ∃ w', resume_ k env w = Some w' ∧
           history w' =
             (self a, download_substep 0) :: (self a, downloading_snapshot)
               :: history w ∧
           pc <$> suspended w' !! k = Some (AwaitDownloadStep 0 m)) ∧
  (∀ k env w a j i m,
     suspended w !! k = Some a → heap w !! self a = Some j →
     pc a = AwaitDownloadStep i m → S i < steps →
     ∃ w', resume_ k env w = Some w' ∧
           history w' = (self a, download_substep (S i)) :: history w ∧
           pc <$> suspended w' !! k = Some (AwaitDownloadStep (S i) m)) ∧
  (∀ k env w a j i m,
     suspended w !! k = Some a → heap w !! self a = Some j →
     pc a = AwaitDownloadStep i m → ¬ S i < steps →
     ∃ w' p, resume_ k env w = Some w' ∧
             history w' = (self a, p) :: history w ∧
             Progress.stage p ≠ Stage.downloading).
Proof.
  split_and!.
  - done.
  - intros i Hi. split_and!.
    + done.
    + rewrite download_progress_eq.
      unfold Qeq, Qplus, Qmult, Qdiv, Qminus, Qopp, Qinv, inject_Z.
      cbn [Qnum Qden]. simpl. lia.
    + apply download_progress_eq.
    + eexists. split; [done|]. reflexivity.
  - intros k env w a j m Ha Hj Hpc Hm.
    unfold resume. rewrite Ha. simpl. rewrite Hj. simpl. rewrite Hpc, Hm.
    erewrite updateProgress_eq by done. simpl.
    eexists. split; [done|]. simpl. split; [done|].
    by rewrite list_lookup_alter_eq, Ha.
  - intros k env w a j i m Ha Hj Hpc Hi.
    unfold resume. rewrite Ha. simpl. rewrite Hj. simpl. rewrite Hpc.
    unfold download_loop. rewrite decide_True by done.
    eexists. split; [done|]. simpl. split; [done|].
    by rewrite list_lookup_alter_eq, Ha.
  - intros k env w a j i m Ha Hj Hpc Hi.
    unfold resume. rewrite Ha. simpl. rewrite Hj. simpl. rewrite Hpc.
    unfold download_loop, convert. rewrite decide_False by done.
    destruct (removeWatermark (Job.settings j));
      erewrite updateProgress_eq by done; simpl;
      eexists _, _; (split; [done|]); simpl; (split; [done|]); done.
Qed.

(** ** Result and error of the job objects

    The objects the activations work on, as opposed to the copies in the
    map: a [queued] or [processing] job has neither a result nor an error,
    a [completed] job has a result only, a [failed] job an error only. *)

Definition lifecycle_ok (j : Job.t) : Prop :=
  match Job.status j with
  | Status.queued | Status.processing =>
      Job.result j = None ∧ Job.error j = None
  | Status.completed => is_Some (Job.result j) ∧ Job.error j = None
  | Status.failed => Job.result j = None ∧ is_Some (Job.error j)
  end.

(** The objects that were assigned a snapshot are the job objects: a copy
    is never assigned to. *)
Record lifecycle_inv (w : World) : Prop := {
  life_objects : ∀ l j p,
    heap w !! l = Some j → (l, p) ∈ history w → lifecycle_ok j;
  life_running : ∀ l j,
    l ∈ self <$> suspended w → heap w !! l = Some j → Job.result j = None
}.

Lemma resumption_history k env a j w w' l p :
  Resumption k env a j w w' →
  (l, p) ∈ history w' → l = self a ∨ (l, p) ∈ history w.
Proof.
  intros HR.
  destruct HR as [| | | | | | |? message|]; simpl; rewrite ?elem_of_cons;
    intros Hin;
    repeat match type of Hin with _ ∨ _ => destruct Hin as [Hin|Hin] end;
    try (injection Hin as -> ->); auto.
Qed.

(** The object of the activation after the resumption. *)
Lemma resumption_self_object k env a j w w' :
  heap w !! self a = Some j → Resumption k env a j w w' →
  ∃ j', heap w' !! self a = Some j' ∧
    ((Job.status j' = Job.status j ∧ Job.result j' = Job.result j ∧
      Job.error j' = Job.error j) ∨
     (suspended w' = delete k (suspended w) ∧
      Job.status j' = Status.failed ∧ Job.result j' = Job.result j ∧
      is_Some (Job.error j')) ∨
     (suspended w' = delete k (suspended w) ∧
      Job.status j' = Status.completed ∧ is_Some (Job.result j') ∧
      Job.error j' = Job.error j)).
Proof.
  intros Hj HR. pose proof (lookup_lt_Some _ _ _ Hj) as Hlt.
  destruct HR as [| | | | | | |? message|]; simpl;
    repeat first
      [ rewrite list_lookup_alter_eq
      | rewrite lookup_app_l by (rewrite ?length_alter; done)
      | rewrite Hj
      | progress simpl ];
    (eexists; split; [done|]); simpl;
    first [ by left
          | right; left; split_and!; by eauto
          | right; right; split_and!; by eauto ].
Qed.

Lemma lifecycle_new_queue : lifecycle_inv new_queue.
Proof.
  split; simpl.
  - intros l j p _ H. by apply elem_of_nil in H.
  - intros l j H. by apply elem_of_nil in H.
Qed.

Lemma lifecycle_addJob env url settings w :
  hist_inv w → lifecycle_inv w → lifecycle_inv (addJob env url settings w).2.
Proof.
  intros Hh [Hobj Hrun]. unfold addJob, alloc. split; simpl.
  - intros l j p Hj [[= -> ->]|Hin]%elem_of_cons.
    + rewrite lookup_app_r, Nat.sub_diag in Hj by done. by injection Hj as <-.
    + rewrite lookup_app_l in Hj by (by eapply hist_valid). by eapply Hobj.
  - intros l j Hl [Hj|[_ Hj]]%lookup_app_Some; [by eapply Hrun|].
    apply list_lookup_singleton_Some in Hj as [_ <-]. done.
Qed.

Lemma lifecycle_admission l j w :
  wf w → hist_inv w →
  find_queued (heap w) (jobs w) = Some l → heap w !! l = Some j →
  lifecycle_inv w → lifecycle_inv (admission l j w).
Proof.
  intros Hw Hh Hfind Hj [Hobj Hrun].
  destruct (find_queued_Some _ _ _ Hfind) as (before & k & after & j0 & Hm & Hj0 & Hq & _).
  assert (j0 = j) as -> by congruence.
  assert ((k, l) ∈ jobs w) as Hin.
  { rewrite Hm, elem_of_app, elem_of_cons. auto. }
  destruct (wf_registry w Hw _ _ Hin) as (j1 & Hj1 & _ & He & _ & Hst).
  assert (j1 = j) as -> by congruence.
  destruct Hst as [Hst|(_ & _ & Hres)]; [congruence|].
  pose proof (lookup_lt_Some _ _ _ Hj) as Hlt.
  assert (∀ l' j', l' ≠ l → l' < length (heap w) →
            (alter (Job.set_progress analyzing_snapshot)
               l (alter (Job.set_status Status.processing) l (heap w)) ++
             [Job.set_progress analyzing_snapshot
                (Job.set_status Status.processing j)]) !! l' = Some j' →
            heap w !! l' = Some j') as Hother.
  { intros l' j' Hne Hlt'. rewrite lookup_app_l by (by rewrite !length_alter).
    by rewrite !list_lookup_alter_ne. }
  assert (∀ j',
            (alter (Job.set_progress analyzing_snapshot)
               l (alter (Job.set_status Status.processing) l (heap w)) ++
             [Job.set_progress analyzing_snapshot
                (Job.set_status Status.processing j)]) !! l = Some j' →
            j' = Job.set_progress analyzing_snapshot
                   (Job.set_status Status.processing j)) as Hself.
  { intros j'. rewrite lookup_app_l by (by rewrite !length_alter).
    rewrite !list_lookup_alter_eq, Hj. simpl. by intros [= <-]. }
  split; simpl.
  - intros l' j' p Hj' Hin'. destruct (decide (l' = l)) as [->|Hne].
    + rewrite (Hself _ Hj'). done.
    + apply elem_of_cons in Hin' as [[= ? ?]|Hin']; [done|].
      eapply Hobj; [|done]. apply Hother; [done | by eapply hist_valid | done].
  - intros l' j'. rewrite fmap_app, elem_of_app. simpl.
    rewrite list_elem_of_singleton. intros Hl' Hj'.
    destruct (decide (l' = l)) as [->|Hne].
    + rewrite (Hself _ Hj'). done.
    + destruct Hl' as [Hl'|?]; [|done]. apply (Hrun l' j' Hl').
      apply Hother; [done | by eapply running_lt, wf_running | done].
Qed.

Lemma lifecycle_resumption k env a j w w' :
  wf w → hist_inv w → lifecycle_inv w →
  suspended w !! k = Some a → heap w !! self a = Some j →
  Resumption k env a j w w' → lifecycle_inv w'.
Proof.
  intros Hw Hh [Hobj Hrun] Ha Hj HR.
  pose proof (self_elem _ _ _ Ha) as Hl.
  destruct (wf_running w Hw _ Hl) as (j0 & Hj0 & Hst & He & _).
  assert (j0 = j) as -> by congruence.
  pose proof (Hrun _ _ Hl Hj) as Hres.
  destruct (resumption_self_object _ _ _ _ _ _ Hj HR) as (j' & Hj' & Hcases).
  pose proof (lookup_lt_Some _ _ _ Hj) as Hlt.
  assert (lifecycle_ok j') as Hok.
  { unfold lifecycle_ok.
    destruct Hcases as [(-> & -> & ->)|[(_ & -> & -> & ?)|(_ & -> & ? & ->)]];
      by rewrite ?Hst. }
  split.
  - intros l j1 p Hj1 Hin. destruct (decide (l = self a)) as [->|Hne].
    + by assert (j1 = j') as -> by congruence.
    + apply (resumption_history _ _ _ _ _ _ _ _ HR) in Hin as [?|Hin]; [done|].
      eapply Hobj; [|done].
      erewrite <-resumption_heap_other; [done.. |]. by eapply hist_valid.
  - intros l j1 Hl' Hj1. destruct (decide (l = self a)) as [->|Hne].
    + assert (j1 = j') as -> by congruence.
      destruct Hcases as [(_ & -> & _)|[(Hs & _)|(Hs & _)]]; [done | |];
        rewrite Hs, list_fmap_delete in Hl'; exfalso;
        (eapply NoDup_delete_lookup; [apply (wf_selfs w Hw) | by apply self_lookup | done]).
    + apply (resumption_selfs _ _ _ _ _ _ _ HR) in Hl'.
      apply (Hrun l j1 Hl').
      erewrite <-resumption_heap_other; [done.. |].
      by eapply running_lt, wf_running.
Qed.

Lemma lifecycle_step env ev w o w' :
  Inv w → lifecycle_inv w → step_ env ev w = Some (o, w') → lifecycle_inv w'.
Proof.
  intros [Hw Hh _] HL. destruct ev as [url settings| |k]; simpl.
  - intros [= _ <-]. by apply lifecycle_addJob.
  - destruct (timers w) as [|n] eqn:Ht; [done|].
    destruct (processNextJob_cases (with_timers n w))
      as [[-> _]|(l & j & _ & Hfind & Hj & ->)]; simpl; intros [= _ <-].
    + by destruct HL.
    + apply lifecycle_admission; [by apply wf_with_timers | by apply (hist_ext w)
                                  | done | done | by destruct HL].
  - destruct (resume_ k env w) as [w1|] eqn:Hr; [|done]. simpl. intros [= _ <-].
    destruct (resume_cases _ _ _ _ Hr) as (a & j & Ha & Hj & HR).
    by eapply lifecycle_resumption.
Qed.

(** X3. After any execution, every job object has a result or an error as
    its status says. *)
Lemma job_objects_lifecycle evs os w l j p :
  run_ evs new_queue = Some (os, w) →
  heap w !! l = Some j → (l, p) ∈ history w → lifecycle_ok j.
Proof.
  assert (∀ evs w0 os w, Inv w0 → lifecycle_inv w0 →
            run_ evs w0 = Some (os, w) → lifecycle_inv w) as H.
  { clear. induction evs as [|[env ev] evs IH]; intros w0 os w HI HL; simpl.
    - by intros [= _ <-].
    - destruct (step_ env ev w0) as [[o w1]|] eqn:Hs; [|done]. simpl.
      destruct (run_ evs w1) as [[os' w2]|] eqn:Hr; [|done]. simpl.
      intros [= _ <-]. eapply IH; [| |done].
      + by eapply inv_step.
      + by eapply lifecycle_step. }
  intros Hrun. apply (life_objects w). by eapply H, Hrun; [apply inv_new_queue | apply lifecycle_new_queue].
Qed.

End Verification.

(** ** Identifiers *)

Fixpoint occurs (c : ascii) (s : string) : Prop :=
  match s with
  | EmptyString => False
  | String c' s' => c = c' ∨ occurs c s'
  end.

Lemma pretty_N_go_no_underscore x s :
  ¬ occurs "_" s → ¬ occurs "_" (pretty_N_go x s).
Proof.
  revert s. induction (N.lt_wf_0 x) as [x _ IH]; intros s Hs.
  destruct (decide (x = 0)%N) as [->|Hx].
  - by rewrite pretty_N_go_0.
  - rewrite pretty_N_go_step by lia. apply IH.
    + apply N.div_lt; lia.
    + simpl. intros [Hc|Hc]; [|done].
      unfold pretty_N_char in Hc. by repeat case_match.
Qed.

Lemma pretty_N_no_underscore (n : N) : ¬ occurs "_" (pretty n).
Proof.
  unfold pretty, pretty_N. case_decide.
  - simpl. by intros [?|[]].
  - apply pretty_N_go_no_underscore. simpl. tauto.
Qed.

Lemma append_separator_inj c s1 s2 r1 r2 :
  ¬ occurs c s1 → ¬ occurs c s2 →
  s1 +:+ String c r1 = s2 +:+ String c r2 → s1 = s2 ∧ r1 = r2.
Proof.
  revert s2. induction s1 as [|a s1 IH]; intros [|b s2]; simpl; intros H1 H2.
  - by intros [= ->].
  - intros [= -> _]. tauto.
  - intros [= -> _]. tauto.
  - intros [= -> Heq]. destruct (IH s2) as [-> ->]; [tauto | tauto | done | done].
Qed.

(** The identifier determines the clock reading and the random suffix it
    was built from. *)
Lemma jobId_inj env env' :
  jobId env = jobId env' →
  dateNow env = dateNow env' ∧ random36 env = random36 env'.
Proof.
  unfold jobId. simpl. intros [= Heq].
  apply append_separator_inj in Heq as [Hn Hr];
    [|apply pretty_N_no_underscore..].
  split; [|done]. by apply (inj pretty).
Qed.

(** ** Submission *)

Definition shown_queued (i : string) (w : World) : Prop :=
  ∃ job, getJob i w = Some job ∧ Job.status job = Status.queued ∧
         Progress.progress (Job.progress job) = 0%Q.

Lemma addJob_shown_queued env url settings w :
  shown_queued (jobId env) (addJob env url settings w).2.
Proof.
  unfold shown_queued, addJob, alloc, getJob. simpl.
  rewrite map_get_set_eq. simpl.
  rewrite lookup_app_r, Nat.sub_diag by done. simpl. eauto.
Qed.

Lemma shown_queued_addJob i env url settings w :
  shown_queued i w → shown_queued i (addJob env url settings w).2.
Proof.
  intros (job & Hjob & Hq & Hp).
  destruct (decide (jobId env = i)) as [<-|Hne]; [apply addJob_shown_queued|].
  exists job. split; [|done]. unfold getJob in *. unfold addJob, alloc. simpl.
  rewrite map_get_set_ne by done.
  destruct (map_get i (jobs w)) as [l|]; [|done]. simpl in *.
  by apply lookup_app_l_Some.
Qed.

Lemma shown_queued_submissions i more w :
  shown_queued i w → shown_queued i (submissions more w).
Proof.
  revert w. induction more as [|[[e u] s] more IH]; intros w H; [done|].
  simpl. apply IH. by apply shown_queued_addJob.
Qed.

(** C5, as the code has it.  [addJob] always returns, having created a
    record that is [queued] at 0 per cent under the identifier it returns,
    without running any stage: it only schedules one dispatch.  The
    identifier is built from the clock reading and the random suffix and
    determines both, so two submissions get different identifiers unless
    they have the same reading and the same suffix.  A lookup of the
    identifier right away, or after further submissions with no dispatch
    in between, finds a [queued] record. *)
Theorem addJob_queues_job env url settings w :
  let '(i, w1) := addJob env url settings w in
  i = jobId env ∧
  (∃ job, getJob i w1 = Some job ∧ Job.status job = Status.queued ∧
          Progress.progress (Job.progress job) = 0%Q ∧
          Job.url job = url ∧ Job.settings job = settings ∧
          Job.result job = None ∧ Job.error job = None) ∧
  (suspended w1 = suspended w ∧ activeJobs w1 = activeJobs w ∧
   timers w1 = S (timers w)) ∧
  (∀ env', jobId env' = i ↔
           dateNow env' = dateNow env ∧ random36 env' = random36 env) ∧
  (∀ more, shown_queued i (submissions more w1)).
Proof.
  pose proof (addJob_shown_queued env url settings w) as Hq.
  unfold addJob, alloc in *. simpl in *.
  split; [done|]. split; [|split; [done|split]].
  - unfold getJob. simpl. rewrite map_get_set_eq. simpl.
    rewrite lookup_app_r, Nat.sub_diag by done. simpl. eexists. split_and!; done.
  - intros env'. split; [apply jobId_inj|]. intros [Hn Hr]. unfold jobId.
    by rewrite Hn, Hr.
  - intros more. by apply shown_queued_submissions.
Qed.

(** C5, as the specification states it, fails: two submissions that read
    the same clock value and draw the same random suffix return the same
    identifier. *)
Lemma identifiers_can_collide : ¬ spec_identifiers_unique.
Proof.
  intros H.
  specialize (H (at_time 1000 "k3j9x2m1q") "https://youtu.be/A" (sample_options false)
                (at_time 1000 "k3j9x2m1q") "https://youtu.be/B" (sample_options false)
                new_queue).
  by apply H.
Qed.

(** C6, as the specification states it, fails: the first sub-step of the
    [downloading] stage is written at 30 per cent, where a stage spanning
    10 to 60 per cent would start at 10. *)
Lemma download_substeps_do_not_start_at_10 : ¬ spec_download_range.
Proof.
  intros H. specialize (H 0 ltac:(unfold steps; lia)).
  vm_compute in H. discriminate.
Qed.

(** ** Sample executions, checked *)

Lemma youtube_job_runs :
  sample_run youtube_job new_queue
  = Some (outputs_of youtube_job new_queue, state_of youtube_job new_queue).
Proof. vm_compute. reflexivity. Defined.

Lemma tiktok_job_runs :
  sample_run tiktok_job new_queue
  = Some (outputs_of tiktok_job new_queue, state_of tiktok_job new_queue).
Proof. vm_compute. reflexivity. Defined.

Lemma four_jobs_one_at_a_time_runs :
  sample_run four_jobs_one_at_a_time (queue_with_limit 1)
  = Some (outputs_of four_jobs_one_at_a_time (queue_with_limit 1),
          state_of four_jobs_one_at_a_time (queue_with_limit 1)).
Proof. vm_compute. reflexivity. Defined.


(** A fifth submission after the execution [tiktok_job]. *)
Lemma queued_job_shows_analyzing_witness :
  ∃ job,
    getJob "job_5000_zzzzzzzzz"
      (addJob (at_time 5000 "zzzzzzzzz") "https://youtu.be/E" (sample_options true)
         (state_of tiktok_job new_queue)).2 = Some job ∧
    Job.status job = Status.queued ∧ Job.progress job = initial_progress.
Proof.
  exact (proj1 (queued_job_shows_analyzing sample_hostname sample_base64url
                  sample_toUpperCase tiktok_job _ _ (at_time 5000 "zzzzzzzzz")
                  "https://youtu.be/E" (sample_options true) tiktok_job_runs)).
Defined.

(** The last two assignments of [youtube_job]: 95 per cent, then 100. *)
Lemma progress_never_decreases_witness :
  history (state_of youtube_job new_queue) !! 0 = Some (0, completed_snapshot) ∧
  history (state_of youtube_job new_queue) !! 1 = Some (0, finalizing_snapshot) ∧
  (Progress.progress finalizing_snapshot <= Progress.progress completed_snapshot)%Q.
Proof.
  assert (history (state_of youtube_job new_queue) !! 0
          = Some (0, completed_snapshot)) as H0 by (vm_compute; reflexivity).
  assert (history (state_of youtube_job new_queue) !! 1
          = Some (0, finalizing_snapshot)) as H1 by (vm_compute; reflexivity).
  split; [exact H0|]. split; [exact H1|].
  exact (progress_never_decreases sample_hostname sample_base64url
           sample_toUpperCase youtube_job _ _ 0 1 0 _ _ youtube_job_runs
           (Nat.lt_0_succ 0) H0 H1).
Defined.

(** [youtube_job] does not ask for watermark removal. *)
Lemma no_watermark_stage_unless_requested_witness :
  ∃ job,
    getJob "job_1000_k3j9x2m1q" (state_of youtube_job new_queue) = Some job ∧
    removeWatermark (Job.settings job) = false ∧
    Progress.stage (Job.progress job) ≠ Stage.processing.
Proof.
  destruct (getJob "job_1000_k3j9x2m1q" (state_of youtube_job new_queue))
    as [job|] eqn:E; [|vm_compute in E; discriminate].
  pose proof E as E'. vm_compute in E'. injection E' as <-.
  eexists. split; [reflexivity|]. split; [reflexivity|].
  exact (proj2 (no_watermark_stage_unless_requested sample_hostname
                  sample_base64url sample_toUpperCase youtube_job _ _
                  youtube_job_runs) _ _ E eq_refl).
Defined.


(** ** Where the code departs from the specification

    [updateProgress] stores a copy of the job in the map.  From the first
    call on, the record [getJob] returns is that copy, and the assignments
    that [processNextJob] makes to [queuedJob] afterwards ([status],
    [error], [completedAt]) never reach it. *)

(** X4. After any execution, whatever record [getJob] returns is [queued]
    or [processing], with no [error] and no [completedAt]. *)
Lemma getJob_never_terminal hostname base64url toUpperCase evs os w i job :
  run hostname base64url toUpperCase evs new_queue = Some (os, w) →
  getJob i w = Some job →
  Job.status job ≠ Status.completed ∧ Job.status job ≠ Status.failed ∧
  Job.error job = None ∧ Job.completedAt job = None.
Proof.
  intros Hrun Hjob.
  pose proof (wf_run hostname base64url toUpperCase _ _ _ _ wf_new_queue Hrun) as Hw.
  destruct (getJob_registry_record _ _ _ Hw Hjob) as (_ & He & Hc & [Hs|(Hs & _)]);
    rewrite Hs; done.
Qed.

(** When metadata resolution yields nothing, the activation ends at once:
    no snapshot is written, the map is left as it is, and the object the
    activation worked on becomes [failed] with the error message, its
    result untouched. *)
Lemma metadata_failure_aborts hostname base64url toUpperCase k env w a j :
  suspended w !! k = Some a → heap w !! self a = Some j →
  pc a = AwaitMetadata → hostname (Job.url j) = None →
  let j' := conclude (inr "Failed to extract video metadata") env j in
  resume hostname base64url toUpperCase k env w
    = Some (settled k (self a) env (inr "Failed to extract video metadata") j w) ∧
  suspended (settled k (self a) env (inr "Failed to extract video metadata") j w)
    = delete k (suspended w) ∧
  history (settled k (self a) env (inr "Failed to extract video metadata") j w)
    = history w ∧
  jobs (settled k (self a) env (inr "Failed to extract video metadata") j w)
    = jobs w ∧
  heap (settled k (self a) env (inr "Failed to extract video metadata") j w)
    !! self a = Some j' ∧
  Job.status j' = Status.failed ∧
  Job.error j' = Some "Failed to extract video metadata" ∧
  Job.result j' = Job.result j.
Proof.
  intros Ha Hj Hpc Hurl. simpl. split_and!; try done.
  - unfold resume. rewrite Ha. simpl. rewrite Hj. simpl. rewrite Hpc.
    unfold extractMetadata, detectPlatform. rewrite Hurl. simpl.
    by apply settle_eq.
  - by rewrite list_lookup_alter_eq, Hj.
Qed.

Lemma four_jobs_runs :
  sample_run four_jobs (queue_with_limit 3)
  = Some (outputs_of four_jobs (queue_with_limit 3),
          state_of four_jobs (queue_with_limit 3)).
Proof. vm_compute. reflexivity. Defined.

(** The limit holds at the end of [four_jobs]. *)
Lemma activeJobs_bounded_witness :
  size (activeJobs (state_of four_jobs (queue_with_limit 3)))
    ≤ maxConcurrentJobs (state_of four_jobs (queue_with_limit 3)) ∧
  maxConcurrentJobs (state_of four_jobs (queue_with_limit 3)) = 3.
Proof.
  exact (activeJobs_bounded sample_hostname sample_base64url sample_toUpperCase
           3 four_jobs _ _ four_jobs_runs).
Defined.


(** C1. Four jobs on the queue of limit 3: when A, B and C have run to
    their end and D has been admitted, one activation runs and
    [activeJobs] holds one identifier, yet four jobs are shown with status
    [processing] and none as [completed]. *)
Theorem four_jobs_shown_processing :
  count_status Status.processing <$> final four_jobs new_queue = Some 4 ∧
  maxConcurrentJobs <$> final four_jobs new_queue = Some 3 ∧
  size ∘ activeJobs <$> final four_jobs new_queue = Some 1 ∧
  length ∘ suspended <$> final four_jobs new_queue = Some 1 ∧
  count_status Status.completed <$> final four_jobs new_queue = Some 0.
Proof. vm_compute. done. Qed.

(** C2. The job of [youtube_job] after its activation has ended: the
    object the activation worked on is [completed] with a result, but the
    record [getJob] returns is [processing] and has the result set, with
    neither [error] nor [completedAt]; the status route reports the
    same. *)
Theorem completed_job_shown_processing :
  let w := final youtube_job new_queue in
  let shown := w ≫= getJob "job_1000_k3j9x2m1q" in
  length ∘ suspended <$> w = Some 0 ∧
  Job.status <$> (w ≫= λ w, heap w !! 0) = Some Status.completed ∧
  Job.status <$> shown = Some Status.processing ∧
  shown ≫= Job.result ≠ None ∧
  Job.error <$> shown = Some None ∧
  Job.completedAt <$> shown = Some None ∧
  Progress.progress ∘ Job.progress <$> shown = Some 100%Q ∧
  (match status_GET (Some "job_1000_k3j9x2m1q") <$> w with
   | Some (Json body) =>
       Some (body_status body, body_completedAt body,
             bool_decide (is_Some (body_result body)))
   | _ => None
   end) = Some (Status.processing, None, true).
Proof. vm_compute. split_and!; done. Qed.

(** The object the activation of [youtube_job] worked on ends [completed]
    with a result and without an error. *)
Lemma job_objects_lifecycle_witness :
  ∃ j, heap (state_of youtube_job new_queue) !! 0 = Some j ∧
       Job.status j = Status.completed ∧ lifecycle_ok j.
Proof.
  destruct (heap (state_of youtube_job new_queue) !! 0) as [j|] eqn:Hj;
    [|by vm_compute in Hj].
  exists j. split; [done|]. split.
  - vm_compute in Hj. by injection Hj as <-.
  - destruct (history (state_of youtube_job new_queue) !! 0) as [[l p]|] eqn:Hp;
      [|by vm_compute in Hp].
    apply (job_objects_lifecycle sample_hostname sample_base64url
             sample_toUpperCase youtube_job _ _ 0 j p youtube_job_runs Hj).
    apply list_elem_of_lookup_2 with 0.
    rewrite Hp. vm_compute in Hp. by injection Hp as <- <-.
Defined.

(** C7. The job of [rejected_url_job], whose metadata resolution yields
    nothing: its activation ends with no further stage, the object it
    worked on is [failed] with the error message and without a result, but
    the record [getJob] returns stays [processing] without an error, and
    the status route reports that record. *)
Theorem failed_job_shown_processing :
  let w := final rejected_url_job new_queue in
  let shown := w ≫= getJob "job_1000_k3j9x2m1q" in
  length ∘ suspended <$> w = Some 0 ∧
  (w ≫= λ w, heap w !! 0) ≫= Job.error
    = Some "Failed to extract video metadata" ∧
  Job.status <$> (w ≫= λ w, heap w !! 0) = Some Status.failed ∧
  Job.result <$> (w ≫= λ w, heap w !! 0) = Some None ∧
  Progress.stage ∘ snd <$> default [] (history <$> w)
    = [Stage.analyzing; Stage.analyzing] ∧
  Job.status <$> shown = Some Status.processing ∧
  Job.error <$> shown = Some None ∧
  Job.result <$> shown = Some None ∧
  (match status_GET (Some "job_1000_k3j9x2m1q") <$> w with
   | Some (Json body) => Some (body_status body, body_error body)
   | _ => None
   end) = Some (Status.processing, None).
Proof. vm_compute. split_and!; done. Qed.

(** Membership in a list that is written out. *)
Ltac in_list :=
  repeat first [apply list_elem_of_here | apply list_elem_of_further].

(** ** The list of all jobs *)

Definition not_newer (a b : Job.t) : Prop := (Job.createdAt b ≤ Job.createdAt a)%N.

Lemma insert_by_createdAt_Permutation j l : insert_by_createdAt j l ≡ₚ j :: l.
Proof.
  induction l as [|j' l IH]; simpl; [done|].
  case_decide; [|done]. rewrite IH. apply Permutation_swap.
Qed.

Lemma sort_by_createdAt_Permutation l : sort_by_createdAt l ≡ₚ l.
Proof.
  induction l as [|j l IH]; simpl; [done|].
  by rewrite insert_by_createdAt_Permutation, IH.
Qed.

Lemma insert_by_createdAt_sorted j l :
  StronglySorted not_newer l → StronglySorted not_newer (insert_by_createdAt j l).
Proof.
  induction l as [|j' l IH]; simpl; intros Hs.
  - repeat constructor.
  - apply StronglySorted_inv in Hs as [Hs Hall]. case_decide as Hlt.
    + constructor; [by apply IH|].
      rewrite insert_by_createdAt_Permutation. constructor; [|done].
      unfold not_newer. lia.
    + constructor; [by constructor|]. constructor.
      * unfold not_newer. lia.
      * eapply Forall_impl; [done|]. unfold not_newer. intros; simpl in *; lia.
Qed.

Lemma sort_by_createdAt_sorted l : StronglySorted not_newer (sort_by_createdAt l).
Proof.
  induction l as [|j l IH]; simpl; [constructor|].
  by apply insert_by_createdAt_sorted.
Qed.

Lemma StronglySorted_lookup {A} (R : A → A → Prop) l i i' a b :
  StronglySorted R l → i < i' → l !! i = Some a → l !! i' = Some b → R a b.
Proof.
  intros Hs. revert i i'. induction Hs as [|x l Hs IH Hall]; intros i i' Hlt Ha Hb.
  - by destruct i.
  - destruct i' as [|i']; [lia|]. destruct i as [|i]; simpl in *.
    + injection Ha as <-. rewrite Forall_forall in Hall. apply Hall.
      by eapply list_elem_of_lookup_2.
    + eapply (IH i i'); [lia|done..].
Qed.

Lemma insert_by_createdAt_filter (t : N) j l :
  filter (λ x, Job.createdAt x = t) (insert_by_createdAt j l)
  = filter (λ x, Job.createdAt x = t) (j :: l).
Proof.
  induction l as [|j' l IH]; simpl; [done|].
  case_decide as Hlt; [|done].
  rewrite !filter_cons in *. rewrite IH.
  destruct (decide (Job.createdAt j' = t)) as [E'|E'];
    destruct (decide (Job.createdAt j = t)) as [E|E]; try done.
  lia.
Qed.

Lemma sort_by_createdAt_filter (t : N) l :
  filter (λ x, Job.createdAt x = t) (sort_by_createdAt l)
  = filter (λ x, Job.createdAt x = t) l.
Proof.
  induction l as [|j l IH]; simpl; [done|].
  rewrite insert_by_createdAt_filter, !filter_cons. by rewrite IH.
Qed.

(** The sorted arrangement is the only one: a list with the same records,
    newest first, that keeps records of equal creation time in their
    order, is the list [sort_by_createdAt] computes. *)
Lemma stable_sort_unique (l1 l2 : list Job.t) :
  l1 ≡ₚ l2 → StronglySorted not_newer l1 → StronglySorted not_newer l2 →
  (∀ t : N, filter (λ x, Job.createdAt x = t) l1
            = filter (λ x, Job.createdAt x = t) l2) →
  l1 = l2.
Proof.
  revert l2. induction l1 as [|a l1 IH]; intros l2 Hp Hs1 Hs2 Hf.
  - by apply Permutation_nil_l in Hp.
  - destruct l2 as [|b l2]; [by apply Permutation_nil_r in Hp|].
    apply StronglySorted_inv in Hs1 as [Hs1 Ha].
    apply StronglySorted_inv in Hs2 as [Hs2 Hb].
    rewrite Forall_forall in Ha, Hb.
    assert (Job.createdAt a = Job.createdAt b) as Hab.
    { assert (a ∈ b :: l2) as Ha2 by (rewrite <-Hp; left).
      assert (b ∈ a :: l1) as Hb1 by (rewrite Hp; left).
      apply elem_of_cons in Ha2 as [->|Ha2]; [done|].
      apply elem_of_cons in Hb1 as [->|Hb1]; [done|].
      apply Hb in Ha2. apply Ha in Hb1. unfold not_newer in *. lia. }
    pose proof (Hf (Job.createdAt a)) as Hfa.
    rewrite !filter_cons in Hfa.
    rewrite decide_True in Hfa by done. rewrite decide_True in Hfa by done.
    injection Hfa as -> Hfa. f_equal.
    apply IH; [by eapply Permutation_cons_inv | done | done |].
    intros t. specialize (Hf t). rewrite !filter_cons in Hf.
    destruct (decide (Job.createdAt b = t)); [by injection Hf | done].
Qed.

(** X5. [getAllJobs] returns the records of the map, each as often as the
    map holds it, later creation times first and records of equal creation
    time in the iteration order of the map; and no other arrangement has
    these three properties. *)
Theorem getAllJobs_newest_first w :
  getAllJobs w ≡ₚ values w ∧
  (∀ i i' a b, i < i' → getAllJobs w !! i = Some a → getAllJobs w !! i' = Some b →
     (Job.createdAt b ≤ Job.createdAt a)%N) ∧
  (∀ t : N, filter (λ j, Job.createdAt j = t) (getAllJobs w)
            = filter (λ j, Job.createdAt j = t) (values w)) ∧
  (∀ l, l ≡ₚ values w →
     (∀ i i' a b, i < i' → l !! i = Some a → l !! i' = Some b →
        (Job.createdAt b ≤ Job.createdAt a)%N) →
     (∀ t : N, filter (λ j, Job.createdAt j = t) l
               = filter (λ j, Job.createdAt j = t) (values w)) →
     l = getAllJobs w).
Proof.
  unfold getAllJobs. split_and!.
  - apply sort_by_createdAt_Permutation.
  - intros i i' a b. apply (StronglySorted_lookup not_newer).
    apply sort_by_createdAt_sorted.
  - intros t. apply sort_by_createdAt_filter.
  - intros l Hp Hs Hf. apply stable_sort_unique.
    + by rewrite sort_by_createdAt_Permutation.
    + clear Hp Hf. induction l as [|x l IH]; [constructor|].
      constructor.
      * apply IH. intros i i' a b Hlt Ha Hb. apply (Hs (S i) (S i') a b); [lia|done..].
      * apply Forall_forall. intros y [k Hk]%list_elem_of_lookup_1.
        apply (Hs 0 (S k) x y); [lia|done..].
    + apply sort_by_createdAt_sorted.
    + intros t. by rewrite Hf, sort_by_createdAt_filter.
Qed.

(** ** Substrings *)

Lemma prefix_nil s : String.prefix "" s = true.
Proof. by destruct s. Qed.

Lemma prefix_cons_inv c p s :
  String.prefix (String c p) s = true → ∃ s', s = String c s' ∧ String.prefix p s' = true.
Proof.
  destruct s as [|c' s']; simpl; [done|].
  destruct (Ascii.ascii_dec c c') as [->|]; [eauto | done].
Qed.

Lemma prefix_trans a b c :
  String.prefix a b = true → String.prefix b c = true → String.prefix a c = true.
Proof.
  revert b c. induction a as [|x a IH]; intros b c Hab Hbc; [apply prefix_nil|].
  apply prefix_cons_inv in Hab as (b' & -> & Hab).
  apply prefix_cons_inv in Hbc as (c' & -> & Hbc).
  simpl. destruct (Ascii.ascii_dec x x); [by eapply IH | done].
Qed.

Lemma includes_tail c s sub : includes s sub = true → includes (String c s) sub = true.
Proof. intros H. cbn [includes]. rewrite H. by rewrite orb_true_r. Qed.

Lemma includes_prefix s sub : String.prefix sub s = true → includes s sub = true.
Proof. intros H. destruct s; cbn [includes]; by rewrite H. Qed.

Lemma includes_inv s sub :
  includes s sub = true →
  String.prefix sub s = true ∨ ∃ c s', s = String c s' ∧ includes s' sub = true.
Proof.
  destruct s as [|c s']; cbn [includes]; intros [H|H]%orb_true_iff;
    try done; eauto.
Qed.

Lemma prefix_includes a b c :
  String.prefix b a = true → includes b c = true → includes a c = true.
Proof.
  revert a. induction b as [|x b IH]; intros a Hba Hbc.
  - apply includes_inv in Hbc as [Hc|(? & ? & [=] & _)].
    destruct c; [|done]. apply includes_prefix, prefix_nil.
  - apply includes_inv in Hbc as [Hc|(x' & b' & [= <- <-] & Hc)].
    + apply includes_prefix. by eapply prefix_trans.
    + apply prefix_cons_inv in Hba as (a' & -> & Hba).
      apply includes_tail. by apply IH.
Qed.

(** [a.includes(b)] and [b.includes(c)] give [a.includes(c)]. *)
Lemma includes_trans a b c :
  includes a b = true → includes b c = true → includes a c = true.
Proof.
  induction a as [|x a IH]; intros Hab Hbc.
  - apply includes_inv in Hab as [Hp|(? & ? & [=] & _)].
    by eapply prefix_includes.
  - apply includes_inv in Hab as [Hp|(x' & a' & [= <- <-] & Hab)].
    + by eapply prefix_includes.
    + apply includes_tail. by apply IH.
Qed.

(** ** The records of the map *)

Lemma values_registry h m :
  (∀ k l, (k, l) ∈ m → registry_record h k l) →
  Job.id <$> omap (λ e : string * nat, h !! e.2) m = m.*1 ∧
  Forall (λ j, Job.error j = None ∧ Job.completedAt j = None ∧
               (Job.status j = Status.processing ∨ Job.status j = Status.queued))
    (omap (λ e : string * nat, h !! e.2) m).
Proof.
  induction m as [|[k l] m IH]; intros Hreg; csimpl; [by split|].
  destruct (Hreg k l) as (j & Hj & Hid & He & Hc & Hst); [left|].
  destruct IH as [IH1 IH2].
  { intros k' l' Hin. apply Hreg. by right. }
  rewrite Hj. csimpl. split.
  - by rewrite Hid, IH1.
  - constructor; [|done]. split_and!; [done..|]. tauto.
Qed.

Section Routes.

Context (hostname : string → option string).
Context (base64url toUpperCase : string → string).

Local Abbreviation run_ := (run hostname base64url toUpperCase).
Local Abbreviation step_ := (step hostname base64url toUpperCase).
Local Abbreviation serve_ := (serve hostname base64url toUpperCase).
Local Abbreviation serve_all_ := (serve_all hostname base64url toUpperCase).
Local Abbreviation POST_ := (DownloadRoute.POST hostname).

(** X6. After any execution from a new queue, the [list] action of the
    status route shows one entry for each identifier [addJob] has returned
    and no other, later creation times first; every entry is [queued] or
    [processing] and none has a completion time.  Any other action is
    answered with status 400. *)
Theorem list_shows_every_submitted_job evs os w :
  run_ evs new_queue = Some (os, w) →
  (∃ l, status_POST (Some "list") w = JobList l ∧
        NoDup (summary_id <$> l) ∧
        (∀ i, i ∈ summary_id <$> l ↔ i ∈ returned os) ∧
        (∀ i i' a b, i < i' → l !! i = Some a → l !! i' = Some b →
           (summary_createdAt b ≤ summary_createdAt a)%N) ∧
        (∀ s, s ∈ l →
           (summary_status s = Status.queued ∨ summary_status s = Status.processing) ∧
           summary_completedAt s = None)) ∧
  (∀ action, action ≠ Some "list" →
     status_POST action w = ListError "Invalid action" 400).
Proof.
  intros Hrun.
  pose proof (wf_run hostname base64url toUpperCase _ _ _ _ wf_new_queue Hrun) as Hw.
  destruct (values_registry (heap w) (jobs w) (wf_registry w Hw)) as [Hids Hall].
  fold (values w) in Hids, Hall.
  assert (getAllJobs w ≡ₚ values w) as Hperm
    by apply sort_by_createdAt_Permutation.
  pose proof (λ i i' a b,
                StronglySorted_lookup not_newer (getAllJobs w) i i' a b
                  (sort_by_createdAt_sorted (values w))) as Hsorted.
  split.
  - exists (summary <$> getAllJobs w). split_and!.
    + done.
    + rewrite <-list_fmap_compose.
      change (summary_id ∘ summary) with Job.id.
      rewrite Hperm, Hids. apply Hw.
    + intros i. rewrite <-list_fmap_compose.
      change (summary_id ∘ summary) with Job.id.
      rewrite Hperm, Hids.
      rewrite (keys_run hostname base64url toUpperCase _ _ _ _ i wf_new_queue Hrun).
      simpl. rewrite elem_of_nil. tauto.
    + intros i i' a b Hlt. rewrite !list_lookup_fmap.
      destruct (getAllJobs w !! i) as [ja|] eqn:Ha; [|done].
      destruct (getAllJobs w !! i') as [jb|] eqn:Hb; [|done].
      intros [= <-] [= <-]. simpl. by eapply Hsorted.
    + intros s (j & -> & Hj)%list_elem_of_fmap. rewrite Hperm in Hj.
      rewrite Forall_forall in Hall. destruct (Hall j Hj) as (_ & Hc & Hst).
      simpl. tauto.
  - intros action Hne. unfold status_POST. by rewrite decide_False.
Qed.

(** ** The download route *)

Lemma find_config_known (f : string * PlatformConfig.t → bool) key config :
  find f DownloadRoute.PLATFORM_CONFIGS = Some (key, config) →
  (key, config) ∈ DownloadRoute.PLATFORM_CONFIGS ∧ f (key, config) = true.
Proof.
  intros H. apply find_some in H as [Hin Hf]. split; [|done].
  by apply list_elem_of_In.
Qed.

(** What the route does with a request. *)
Lemma POST_cases env body w :
  (∃ message status,
     POST_ env body w = (DownloadRoute.Refused message status, w) ∧
     (status = 500 ∧ body = DownloadRoute.Unparsable ∨
      status = 400 ∧ body ≠ DownloadRoute.Unparsable)) ∨
  (∃ url settings key config,
     body = DownloadRoute.Parsed (Some url) settings ∧
     url ≠ "" ∧ is_Some (hostname url) ∧
     DownloadRoute.detectPlatform hostname url = Some (key, config) ∧
     DownloadRoute.validatePlatformUrl hostname url key = Some DownloadRoute.Valid ∧
     (DownloadRoute.wants_audio settings = true →
        PlatformConfig.audioExtraction config = true) ∧
     POST_ env body w
       = (DownloadRoute.Queued "Video added to processing queue" (jobId env)
            ("/api/download/status?id=" +:+ jobId env),
          (addJob env url (DownloadRoute.job_options settings) w).2)).
Proof.
  destruct body as [|[url|] settings].
  - left. eauto 10.
  - destruct (decide (url = "")) as [->|Hne]; [left; eauto 10|].
    assert (∀ A (a b : A),
              match url with "" => a | String _ _ => b end = b) as Hmatch.
    { intros. by destruct url. }
    unfold DownloadRoute.POST. rewrite Hmatch. clear Hmatch.
    destruct (hostname url) as [h|] eqn:Hh; [|left; eauto 10].
    destruct (DownloadRoute.detectPlatform hostname url) as [[key config]|] eqn:Hd;
      [|left; eauto 10].
    destruct (DownloadRoute.validatePlatformUrl hostname url key)
      as [[|error]|] eqn:Hv.
    + destruct (DownloadRoute.wants_audio settings) eqn:Haudio;
        destruct (PlatformConfig.audioExtraction config) eqn:Hext;
        cbn [andb negb]; [| left; eauto 10 | |].
      all: right; exists url, settings, key, config.
      all: rewrite (surjective_pairing (addJob env url _ w)).
      all: split_and!; first [done | by eauto | congruence].
    + left. eauto 10.
    + unfold DownloadRoute.validatePlatformUrl in Hv. by rewrite Hh in Hv.
  - left. eauto 10.
Qed.

(** X7. The download route answers a request either with a refusal, which
    leaves the queue as it was (status 500 exactly when the body could not
    be read, 400 otherwise), or by queueing one job through [addJob] for a
    URL that the [URL] constructor accepts; the status link it returns
    then leads to that job, shown [queued] with the initial snapshot. *)
Theorem POST_queues_or_leaves_queue env body w :
  match POST_ env body w with
  | (DownloadRoute.Refused message status, w') =>
      w' = w ∧
      (status = 500 ∧ body = DownloadRoute.Unparsable ∨
       status = 400 ∧ body ≠ DownloadRoute.Unparsable)
  | (DownloadRoute.Queued message jobId statusUrl, w') =>
      ∃ url settings,
        body = DownloadRoute.Parsed (Some url) settings ∧
        is_Some (hostname url) ∧
        (jobId, w') = addJob env url (DownloadRoute.job_options settings) w ∧
        statusUrl = "/api/download/status?id=" +:+ jobId ∧
        ∃ shown, status_GET (Some jobId) w' = Json shown ∧
                 body_id shown = jobId ∧
                 body_status shown = Status.queued ∧
                 body_progress shown = initial_progress ∧
                 body_result shown = None ∧ body_error shown = None
  end.
Proof.
  destruct (POST_cases env body w)
    as [(message & status & -> & H)|(url & settings & key & config & -> & Hne & Hurl & _ & _ & _ & ->)].
  - done.
  - exists url, settings. split_and!; [done..|].
    unfold status_GET, getJob, addJob, alloc. cbn [snd jobs heap with_timers with_jobs with_history with_heap].
    rewrite map_get_set_eq. cbn [mbind option_bind].
    rewrite lookup_app_r, Nat.sub_diag by done. cbn [lookup list_lookup].
    unfold jobId. simpl. eauto 10.
Qed.

(** ** Jobs that come in through the route *)

(** The URL of every job object is one the [URL] constructor accepts, and
    no job object has failed. *)
Definition no_failure (j : Job.t) : Prop :=
  is_Some (hostname (Job.url j)) ∧ Job.status j ≠ Status.failed ∧ Job.error j = None.

Lemma no_failure_set_status s j :
  s ≠ Status.failed → no_failure j → no_failure (Job.set_status s j).
Proof. intros Hs (? & ? & ?). by split_and!. Qed.

Lemma no_failure_set_progress p j : no_failure j → no_failure (Job.set_progress p j).
Proof. done. Qed.

Lemma no_failure_set_result r j : no_failure j → no_failure (Job.set_result r j).
Proof. done. Qed.

Lemma no_failure_completed env j : no_failure j → no_failure (conclude (inl ()) env j).
Proof. intros (? & ? & ?). by split_and!. Qed.

Lemma no_failure_addJob env url settings w :
  is_Some (hostname url) →
  Forall no_failure (heap w) → Forall no_failure (heap (addJob env url settings w).2).
Proof.
  intros Hurl Hall. unfold addJob, alloc. simpl.
  apply Forall_app. split; [done|]. by apply Forall_singleton.
Qed.

Lemma no_failure_admission l j w :
  heap w !! l = Some j →
  Forall no_failure (heap w) → Forall no_failure (heap (admission l j w)).
Proof.
  intros Hj Hall. pose proof (Forall_lookup_1 _ _ _ _ Hall Hj) as Hok.
  unfold admission, update, publish, assign_progress, assign. simpl.
  apply Forall_app. split.
  - apply Forall_alter; [|done].
    apply Forall_alter; [done|]. intros. by apply no_failure_set_status.
  - apply Forall_singleton. by apply no_failure_set_progress, no_failure_set_status.
Qed.

Lemma no_failure_resumption k env a j w w' :
  heap w !! self a = Some j →
  Resumption hostname base64url toUpperCase k env a j w w' →
  Forall no_failure (heap w) → Forall no_failure (heap w').
Proof.
  intros Hj HR Hall. pose proof (Forall_lookup_1 _ _ _ _ Hall Hj) as Hok.
  assert (∀ f, (∀ x, no_failure x → no_failure (f x)) →
            ∀ h, Forall no_failure h → Forall no_failure (alter f (self a) h)) as Halter.
  { intros f Hf h Hh. apply Forall_alter; [done|]. intros x _. apply Hf. }
  destruct Hok as (Hurl & Hst & He).
  destruct HR as [| Hpc Hm | | | | | |m message Hpc Hd|]; simpl.
  - done.
  - unfold extractMetadata, detectPlatform in Hm.
    destruct Hurl as [h Hh]. by rewrite Hh in Hm.
  - apply Halter; [done|]. apply Forall_app. split; [by apply Halter|].
    by apply Forall_singleton.
  - by apply Halter.
  - apply Forall_app. split; [by apply Halter|]. by apply Forall_singleton.
  - apply Forall_app. split; [by apply Halter|]. by apply Forall_singleton.
  - apply Forall_app. split; [by apply Halter|]. by apply Forall_singleton.
  - unfold downloadVideo, detectPlatform in Hd.
    destruct Hurl as [h Hh]. by rewrite Hh in Hd.
  - apply Halter; [apply no_failure_completed|].
    apply Forall_app. split; [by apply Halter, Halter|]. by apply Forall_singleton.
Qed.

Lemma no_failure_serve env i w o w' :
  serve_ env i w = Some (o, w') →
  Forall no_failure (heap w) → Forall no_failure (heap w').
Proof.
  destruct i as [body| |k]; simpl.
  - destruct (POST_cases env body w)
      as [(message & status & -> & _)|(url & settings & key & config & -> & _ & Hurl & _ & _ & _ & ->)];
      intros [= _ <-]; [done|]. by apply no_failure_addJob.
  - destruct (timers w) as [|n] eqn:Ht; [done|].
    destruct (processNextJob_cases (with_timers n w))
      as [[-> _]|(l & j & _ & _ & Hj & ->)]; simpl; intros [= _ <-]; [done|].
    by apply (no_failure_admission l j (with_timers n w)).
  - destruct (resume hostname base64url toUpperCase k env w) as [w1|] eqn:Hr; [|done].
    simpl. intros [= _ <-].
    destruct (resume_cases _ _ _ _ _ _ _ Hr) as (a & j & Ha & Hj & HR).
    by eapply no_failure_resumption.
Qed.

(** The states the server reaches are states of the queue: the accepted
    requests are the calls of [addJob]. *)
Lemma serve_all_run reqs w os w' :
  serve_all_ reqs w = Some (os, w') →
  ∃ evs os', run_ evs w = Some (os', w').
Proof.
  revert w os. induction reqs as [|[env i] reqs IH]; intros w os; simpl.
  - intros [= _ <-]. by exists [], [].
  - destruct (serve_ env i w) as [[o w1]|] eqn:Hs; [|done]. simpl.
    destruct (serve_all_ reqs w1) as [[os1 w2]|] eqn:Hr; [|done]. simpl.
    intros [= _ <-]. destruct (IH _ _ Hr) as (evs & os' & Hrun).
    destruct i as [body| |k]; cbn [serve] in Hs.
    + destruct (POST_cases env body w)
        as [(message & status & Hp & _)|(url & settings & key & config & -> & _ & _ & _ & _ & _ & Hp)];
        rewrite Hp in Hs; injection Hs as _ <-.
      * eauto.
      * exists ((env, AddJob url (DownloadRoute.job_options settings)) :: evs).
        eexists. simpl. unfold addJob, alloc. simpl.
        rewrite Hrun. simpl. reflexivity.
    + destruct (step_ env Timer w) as [[o' w0]|] eqn:Hstep; [|done].
      simpl in Hs. injection Hs as _ <-.
      exists ((env, Timer) :: evs). eexists.
      cbn [run]. rewrite Hstep. simpl. rewrite Hrun. simpl. reflexivity.
    + destruct (step_ env (Resume k) w) as [[o' w0]|] eqn:Hstep; [|done].
      simpl in Hs. injection Hs as _ <-.
      exists ((env, Resume k) :: evs). eexists.
      cbn [run]. rewrite Hstep. simpl. rewrite Hrun. simpl. reflexivity.
Qed.


(** X9. The job the route queues carries the URL of the request and
    options filled in from the settings: quality and format are never
    empty ([best] and [mp4] when the request leaves them out), a request
    for audio extraction gives the format [mp3], and it is accepted only
    for a platform whose configuration allows audio extraction, which
    excludes LinkedIn. *)
Theorem queued_job_options env url settings w message jobId statusUrl w' :
  POST_ env (DownloadRoute.Parsed (Some url) settings) w
    = (DownloadRoute.Queued message jobId statusUrl, w') →
  ∃ job key config,
    getJob jobId w' = Some job ∧ Job.url job = url ∧
    Job.settings job = DownloadRoute.job_options settings ∧
    DownloadRoute.detectPlatform hostname url = Some (key, config) ∧
    quality (Job.settings job) ≠ "" ∧ format (Job.settings job) ≠ "" ∧
    (audioOnly (Job.settings job) = true →
       format (Job.settings job) = "mp3" ∧
       PlatformConfig.audioExtraction config = true ∧ key ≠ "linkedin") ∧
    (settings = None →
       Job.settings job
       = {| quality := "best"; format := "mp4"; audioOnly := false;
            removeWatermark := false |}).
Proof.
  intros HP.
  destruct (POST_cases env (DownloadRoute.Parsed (Some url) settings) w)
    as [(m & s & Hp & _)|(url' & settings' & key & config & [= <- <-] & _ & _ & Hd & _ & Haudio & Hp)];
    rewrite Hp in HP; [done|]. injection HP as _ <- _ <-.
  eexists _, key, config. split_and!.
  - unfold getJob, addJob, alloc. simpl. rewrite map_get_set_eq. simpl.
    by rewrite lookup_app_r, Nat.sub_diag.
  - done.
  - done.
  - done.
  - simpl. destruct settings as [[[|] ? ? ?]|]; done.
  - simpl. destruct (DownloadRoute.wants_audio settings); [done|].
    destruct settings as [[? [|] ? ?]|]; done.
  - simpl. intros Hw. rewrite Hw. split_and!; [done | by apply Haudio |].
    intros ->. specialize (Haudio Hw).
    unfold DownloadRoute.detectPlatform in Hd.
    destruct (hostname url) as [h|]; [|done].
    apply find_config_known in Hd as [Hin _].
    unfold DownloadRoute.PLATFORM_CONFIGS in Hin.
    rewrite !elem_of_cons, elem_of_nil in Hin.
    destruct Hin as [[=]|[[=]|[[=]|[[= ->]|[]]]]]. done.
  - by intros ->.
Qed.

(** ** The two platform detections *)


Definition platform_names : list string :=
  ["tiktok"; "instagram"; "youtube"; "linkedin"].

(** X10. A URL for which the download route detects a platform is never
    [unknown] to [VideoProcessor.detectPlatform]: the processor finds one
    of the four platforms, and the same one as the route whenever the host
    name contains the name of no other platform. *)
Theorem route_platform_known_to_processor url key config :
  DownloadRoute.detectPlatform hostname url = Some (key, config) →
  ∃ h p,
    hostname url = Some h ∧ detectPlatform hostname url = Some p ∧
    key ∈ platform_names ∧ p ∈ platform_names ∧
    (key = "tiktok" → p = "tiktok") ∧
    ((∀ other, other ∈ platform_names → other ≠ key → includes h other = false) →
     p = key).
Proof.
  unfold DownloadRoute.detectPlatform, detectPlatform.
  destruct (hostname url) as [h|]; [|done]. intros Hd.
  exists h. eexists. split; [done|]. split; [done|].
  assert (∀ d n, includes d n = true → includes h d = true → includes h n = true)
    as Hsub by (intros d n H1 H2; by eapply includes_trans).
  pose proof (Hsub "tiktok.com" "tiktok" eq_refl) as Htiktok.
  pose proof (Hsub "vm.tiktok.com" "tiktok" eq_refl) as Hvm.
  pose proof (Hsub "instagram.com" "instagram" eq_refl) as Hinsta.
  pose proof (Hsub "youtube.com" "youtube" eq_refl) as Hyoutube.
  pose proof (Hsub "m.youtube.com" "youtube" eq_refl) as Hm.
  pose proof (Hsub "linkedin.com" "linkedin" eq_refl) as Hlinkedin.
  clear Hsub. unfold platform_names.
  cbn [find DownloadRoute.PLATFORM_CONFIGS existsb PlatformConfig.domains snd] in Hd.
  assert (∀ P : Prop, (∀ other, other ∈ ["tiktok"; "instagram"; "youtube"; "linkedin"] →
                         other ≠ key → includes h other = false) →
            ((key = "tiktok" ∨ includes h "tiktok" = false) →
             (key = "instagram" ∨ includes h "instagram" = false) →
             (key = "youtube" ∨ includes h "youtube" = false) →
             (key = "linkedin" ∨ includes h "linkedin" = false) → P) → P) as Hothers.
  { intros P Ho HP.
    apply HP; [destruct (decide (key = "tiktok"))
              | destruct (decide (key = "instagram"))
              | destruct (decide (key = "youtube"))
              | destruct (decide (key = "linkedin"))];
      first [by left | right; apply Ho; [in_list | congruence]]. }
  destruct (includes h "tiktok.com") eqn:E1; cbn [orb] in Hd.
  { injection Hd as <- <-. rewrite Htiktok by done.
    split_and!; [in_list | in_list | done | done]. }
  destruct (includes h "vm.tiktok.com") eqn:E2; cbn [orb] in Hd.
  { injection Hd as <- <-. rewrite Hvm by done.
    split_and!; [in_list | in_list | done | done]. }
  destruct (includes h "instagram.com") eqn:E3; cbn [orb] in Hd.
  { injection Hd as <- <-. rewrite Hinsta by done.
    destruct (includes h "tiktok") eqn:T.
    - split_and!; [in_list | in_list | done |].
      intros Ho. apply (Hothers _ Ho). intros [?|?]; [done | congruence].
    - split_and!; [in_list | in_list | done | done]. }
  destruct (includes h "youtube.com") eqn:E4; cbn [orb] in Hd.
  { injection Hd as <- <-. rewrite Hyoutube by done. cbn [orb].
    destruct (includes h "tiktok") eqn:T; [|destruct (includes h "instagram") eqn:I].
    - split_and!; [in_list | in_list | done |].
      intros Ho. apply (Hothers _ Ho). intros [?|?]; [done | congruence].
    - split_and!; [in_list | in_list | done |].
      intros Ho. apply (Hothers _ Ho). intros _ [?|?]; [done | congruence].
    - split_and!; [in_list | in_list | done | done]. }
  destruct (includes h "youtu.be") eqn:E5; cbn [orb] in Hd.
  { injection Hd as <- <-. rewrite orb_true_r.
    destruct (includes h "tiktok") eqn:T; [|destruct (includes h "instagram") eqn:I].
    - split_and!; [in_list | in_list | done |].
      intros Ho. apply (Hothers _ Ho). intros [?|?]; [done | congruence].
    - split_and!; [in_list | in_list | done |].
      intros Ho. apply (Hothers _ Ho). intros _ [?|?]; [done | congruence].
    - split_and!; [in_list | in_list | done | done]. }
  destruct (includes h "m.youtube.com") eqn:E6; cbn [orb] in Hd.
  { injection Hd as <- <-. rewrite Hm by done. cbn [orb].
    destruct (includes h "tiktok") eqn:T; [|destruct (includes h "instagram") eqn:I].
    - split_and!; [in_list | in_list | done |].
      intros Ho. apply (Hothers _ Ho). intros [?|?]; [done | congruence].
    - split_and!; [in_list | in_list | done |].
      intros Ho. apply (Hothers _ Ho). intros _ [?|?]; [done | congruence].
    - split_and!; [in_list | in_list | done | done]. }
  destruct (includes h "linkedin.com") eqn:E7; cbn [orb] in Hd; [|done].
  injection Hd as <- <-. rewrite Hlinkedin by done.
  destruct (includes h "tiktok") eqn:T; [|destruct (includes h "instagram") eqn:I];
    [| |destruct (includes h "youtube") eqn:Y; cbn [orb]].
  - split_and!; [in_list | in_list | done |].
    intros Ho. apply (Hothers _ Ho). intros [?|?]; [done | congruence].
  - split_and!; [in_list | in_list | done |].
    intros Ho. apply (Hothers _ Ho). intros _ [?|?]; [done | congruence].
  - split_and!; [in_list | in_list | done |].
    intros Ho. apply (Hothers _ Ho). intros _ _ [?|?]; [done | congruence].
  - split_and!; [in_list | in_list | done | done].
Qed.

End Routes.

(** ** The closest available quality *)

Module OptimalQuality.
Import DownloadRoute.

(** The step of the loop. *)
Definition next (requested : option Z) (best : option string * option Z)
    (quality : string) : option string * option Z :=
  let diff := diffOf requested (Some quality) in
  if less diff best.2 then (Some quality, diff) else best.

Lemma getOptimalQuality_eq r qs :
  getOptimalQuality r qs
  = fst (foldl (next (requestedHeight r))
           (head qs, diffOf (requestedHeight r) (head qs)) qs).
Proof. done. Qed.

Lemma heightOf_Some q n : heightOf q = Some n ↔ (q, n) ∈ qualityMap.
Proof.
  unfold heightOf. split.
  - destruct (find _ qualityMap) as [[q' n']|] eqn:Hf; [|done].
    intros [= <-]. apply find_some in Hf as [Hin Hq].
    apply bool_decide_eq_true in Hq. simpl in Hq. subst q'.
    by apply list_elem_of_In.
  - unfold qualityMap. rewrite !elem_of_cons, elem_of_nil.
    intros [[= -> ->]|[[= -> ->]|[[= -> ->]|[[= -> ->]|[[= -> ->]|[[= -> ->]|[]]]]]]];
      done.
Qed.

(** Two qualities of the table with the same height are the same. *)
Lemma heightOf_inj a b n : heightOf a = Some n → heightOf b = Some n → a = b.
Proof.
  rewrite !heightOf_Some. unfold qualityMap. rewrite !elem_of_cons, !elem_of_nil.
  intros [[= -> ->]|[[= -> ->]|[[= -> ->]|[[= -> ->]|[[= -> ->]|[[= -> ->]|[]]]]]]]
         [[= ->]|[[= ->]|[[= ->]|[[= ->]|[[= ->]|[[= ->]|[]]]]]]]; done.
Qed.

Lemma heightOf_nonzero q n : heightOf q = Some n → n ≠ 0%Z.
Proof.
  rewrite heightOf_Some. unfold qualityMap. rewrite !elem_of_cons, !elem_of_nil.
  intros [[= -> ->]|[[= -> ->]|[[= -> ->]|[[= -> ->]|[[= -> ->]|[[= -> ->]|[]]]]]]];
    done.
Qed.

(** The loop never leaves the array. *)
Lemma foldl_next_member requested qs best :
  (foldl (next requested) best qs).1 = best.1 ∨
  ∃ q, (foldl (next requested) best qs).1 = Some q ∧ q ∈ qs.
Proof.
  revert best. induction qs as [|q qs IH]; intros best; simpl; [by left|].
  destruct (IH (next requested best q)) as [->|(q' & -> & Hin)].
  - unfold next. destruct (less _ _); simpl; [|by left].
    right. exists q. split; [done | left].
  - right. exists q'. split; [done | by right].
Qed.

(** [q] is the first of the qualities of [qs] that are closest to the
    requested height [r]. *)
Definition first_closest (r : Z) (qs : list string) (q : string) : Prop :=
  ∃ before after h,
    qs = before ++ q :: after ∧ heightOf q = Some h ∧
    (∀ x hx, x ∈ before → heightOf x = Some hx → Z.abs (h - r) < Z.abs (hx - r))%Z ∧
    (∀ x hx, x ∈ after → heightOf x = Some hx → Z.abs (h - r) ≤ Z.abs (hx - r))%Z.

Lemma foldl_next_first_closest r rest :
  ∀ seen b h,
    Forall (λ q, is_Some (heightOf q)) rest →
    heightOf b = Some h → first_closest r seen b →
    ∃ q, (foldl (next (Some r)) (Some b, Some (Z.abs (h - r))) rest).1 = Some q ∧
         first_closest r (seen ++ rest) q.
Proof.
  induction rest as [|x rest IH]; intros seen b h Hknown Hb Hfirst; simpl.
  - exists b. by rewrite app_nil_r.
  - apply Forall_cons_1 in Hknown as [[hx Hx] Hknown].
    replace (seen ++ x :: rest) with ((seen ++ [x]) ++ rest) by by rewrite <-app_assoc.
    unfold next at 2. unfold diffOf. simpl. rewrite Hx. simpl.
    destruct Hfirst as (before & after & h' & -> & Hb' & Hbefore & Hafter).
    assert (h' = h) as -> by congruence.
    case_bool_decide as Hlt.
    + apply IH; [done..|].
      exists ((before ++ b :: after)), [], hx. split_and!.
      * done.
      * done.
      * intros y hy Hy Hhy. apply elem_of_app in Hy as [Hy|Hy].
        -- specialize (Hbefore y hy Hy Hhy). lia.
        -- apply elem_of_cons in Hy as [->|Hy].
           ++ assert (hy = h) as -> by congruence. done.
           ++ specialize (Hafter y hy Hy Hhy). lia.
      * intros y hy Hy. by apply elem_of_nil in Hy.
    + apply IH; [done..|].
      exists before, (after ++ [x]), h. split_and!.
      * by rewrite <-app_assoc.
      * done.
      * done.
      * intros y hy Hy Hhy. apply elem_of_app in Hy as [Hy|Hy].
        -- by apply (Hafter y hy).
        -- apply list_elem_of_singleton in Hy as ->.
           assert (hy = hx) as -> by congruence. lia.
Qed.

End OptimalQuality.

(** X11. [getOptimalQuality] answers with a member of the array of
    available qualities, and with [undefined] exactly when the array is
    empty. *)
Theorem getOptimalQuality_available requested available :
  match DownloadRoute.getOptimalQuality requested available with
  | Some q => q ∈ available
  | None => available = []
  end.
Proof.
  rewrite OptimalQuality.getOptimalQuality_eq.
  destruct available as [|q0 qs]; [done|].
  destruct (OptimalQuality.foldl_next_member
              (DownloadRoute.requestedHeight requested) (q0 :: qs)
              (head (q0 :: qs),
               DownloadRoute.diffOf (DownloadRoute.requestedHeight requested)
                 (head (q0 :: qs))))
    as [->|(q & -> & Hin)]; [left | done].
Qed.

(** X12. When every available quality is a key of the quality table and
    the requested quality is no name inherited from [Object.prototype],
    [getOptimalQuality] answers with the first of the available qualities
    whose height is closest to the requested height, which is the height
    of the requested quality when the table has it and 1080 otherwise; in
    particular a requested quality that is available is the answer. *)
Theorem getOptimalQuality_closest requested available :
  available ≠ [] →
  Forall (λ q, is_Some (DownloadRoute.heightOf q)) available →
  requested ∉ object_prototype_names →
  ∃ q r,
    DownloadRoute.getOptimalQuality requested available = Some q ∧
    r = default 1080%Z (DownloadRoute.heightOf requested) ∧
    OptimalQuality.first_closest r available q ∧
    (requested ∈ available → q = requested).
Proof.
  intros Hne Hknown Hreq.
  destruct available as [|q0 qs]; [done|]. clear Hne.
  pose proof Hknown as [[h0 Hq0] _]%Forall_cons_1.
  set (r := default 1080%Z (DownloadRoute.heightOf requested)).
  assert (DownloadRoute.requestedHeight requested = Some r) as Hr.
  { unfold DownloadRoute.requestedHeight, r.
    destruct (DownloadRoute.heightOf requested) as [n|] eqn:Hn; simpl.
    - apply OptimalQuality.heightOf_nonzero in Hn. by rewrite decide_False.
    - by rewrite bool_decide_eq_false_2. }
  rewrite OptimalQuality.getOptimalQuality_eq, Hr.
  unfold DownloadRoute.diffOf at 1. cbn [head mbind option_bind]. rewrite Hq0.
  cbn [mbind option_bind].
  cbn [foldl]. unfold OptimalQuality.next at 2. unfold DownloadRoute.diffOf.
  cbn [mbind option_bind snd]. rewrite Hq0. cbn [mbind option_bind DownloadRoute.less].
  rewrite bool_decide_eq_false_2 by lia.
  apply Forall_cons_1 in Hknown as [_ Hknown].
  destruct (OptimalQuality.foldl_next_first_closest r qs [q0] q0 h0)
    as (q & Hq & Hfirst); [done | done | |].
  { exists [], [], h0. split_and!; [done | done | |];
      intros x hx Hx; by apply elem_of_nil in Hx. }
  exists q, r. split_and!; [done | done | done |].
  intros Hin. destruct Hfirst as (before & after & h & Heq & Hh & Hbefore & Hafter).
  simpl in Heq.
  assert (is_Some (DownloadRoute.heightOf requested)) as [hr Hhr].
  { apply elem_of_cons in Hin as [->|Hin]; [by eauto|].
    rewrite Forall_forall in Hknown. by apply Hknown. }
  rewrite Heq in Hin.
  assert (r = hr) as -> by (unfold r; by rewrite Hhr).
  apply elem_of_app in Hin as [Hin|Hin].
  - specialize (Hbefore requested hr Hin Hhr). lia.
  - apply elem_of_cons in Hin as [->|Hin]; [done|].
    specialize (Hafter requested hr Hin Hhr).
    apply (OptimalQuality.heightOf_inj _ _ hr); [|done].
    rewrite Hh. f_equal. lia.
Qed.

(** X13. When the first available quality is no key of the quality table,
    or the requested quality is a name inherited from [Object.prototype],
    every difference the loop compares with is [NaN] and the answer is the
    first available quality, whatever else is available. *)
Theorem getOptimalQuality_not_a_number requested q0 rest :
  DownloadRoute.heightOf q0 = None ∨
  requested ∈ object_prototype_names →
  DownloadRoute.getOptimalQuality requested (q0 :: rest) = Some q0.
Proof.
  intros Hnan. rewrite OptimalQuality.getOptimalQuality_eq.
  assert (DownloadRoute.diffOf (DownloadRoute.requestedHeight requested)
            (head (q0 :: rest)) = None) as ->.
  { unfold DownloadRoute.diffOf. simpl. destruct Hnan as [->|Hin]; [done|].
    destruct (DownloadRoute.heightOf q0); [|done]. simpl.
    unfold DownloadRoute.requestedHeight.
    assert (DownloadRoute.heightOf requested = None) as ->.
    { unfold object_prototype_names in Hin.
      rewrite !elem_of_cons, elem_of_nil in Hin.
      repeat destruct Hin as [->|Hin]; done. }
    by rewrite bool_decide_eq_true_2. }
  cbn [head]. generalize (q0 :: rest). intros qs.
  induction qs as [|q qs IH]; [done|]. cbn [foldl].
  unfold OptimalQuality.next at 2. cbn [snd].
  by destruct (DownloadRoute.diffOf _ _).
Qed.

(** ** Tables of supported formats and qualities *)

(** X14. For a platform name that is not inherited from
    [Object.prototype], [getSupportedFormats] and [getSupportedQualities]
    answer with arrays that are never empty: the formats always offer
    [mp4] and the qualities always offer [720p]; every quality offered is
    a key of the table of [getOptimalQuality]; and for the platforms of
    the download route the qualities are those of its configuration.  For
    an inherited name the answer is the inherited member, not an array. *)
Theorem supported_formats_and_qualities platform :
  (platform ∉ object_prototype_names →
   ∃ formats qualities,
     VideoProcessor.getSupportedFormats platform = VideoProcessor.Listed formats ∧
     VideoProcessor.getSupportedQualities platform = VideoProcessor.Listed qualities ∧
     "mp4" ∈ formats ∧ "720p" ∈ qualities ∧
     Forall (λ q, is_Some (DownloadRoute.heightOf q)) qualities ∧
     ∀ config, (platform, config) ∈ DownloadRoute.PLATFORM_CONFIGS →
               PlatformConfig.supportedQualities config = qualities) ∧
  (platform ∈ object_prototype_names →
   VideoProcessor.getSupportedFormats platform = VideoProcessor.Inherited platform ∧
   VideoProcessor.getSupportedQualities platform = VideoProcessor.Inherited platform).
Proof.
  split.
  - intros Hn.
    unfold VideoProcessor.getSupportedFormats, VideoProcessor.getSupportedQualities,
      VideoProcessor.supported.
    rewrite (bool_decide_eq_false_2 _ Hn).
    unfold DownloadRoute.PLATFORM_CONFIGS.
    cbn [find VideoProcessor.formatMap VideoProcessor.qualityMap fst snd].
    repeat case_bool_decide; subst; eexists _, _;
      (split_and!; [done | done | in_list | in_list | by repeat constructor |]);
      intros config; rewrite !elem_of_cons, elem_of_nil;
      intros [[=]|[[=]|[[=]|[[=]|[]]]]]; subst; (done || congruence).
  - unfold object_prototype_names. rewrite !elem_of_cons, elem_of_nil.
    intros H. repeat destruct H as [->|H]; done.
Qed.

(** ** Replacing the extension of a path *)

Lemma extension_chars_dot a b :
  VideoProcessor.extension_chars (a +:+ String "."%char b) = false.
Proof.
  induction a as [|c a IH]; simpl.
  - done.
  - rewrite IH. apply andb_false_r.
Qed.

Lemma match_extension_suffix stem ext :
  ext ≠ "" → VideoProcessor.extension_chars ext = true →
  VideoProcessor.match_extension (stem +:+ String "."%char ext)
  = Some (stem, String "."%char ext).
Proof.
  intros Hne Hext. induction stem as [|c stem IH].
  - simpl. rewrite Hext. by rewrite bool_decide_eq_false_2.
  - change (String c stem +:+ String "."%char ext)
      with (String c (stem +:+ String "."%char ext)).
    cbn [VideoProcessor.match_extension].
    rewrite extension_chars_dot, andb_false_r. by rewrite IH.
Qed.

Lemma match_extension_Some s before matched :
  VideoProcessor.match_extension s = Some (before, matched) →
  ∃ ext, s = before +:+ String "."%char ext ∧ matched = String "."%char ext ∧
         ext ≠ "" ∧ VideoProcessor.extension_chars ext = true.
Proof.
  revert before. induction s as [|c s IH]; intros before; simpl; [done|].
  destruct (bool_decide (c = "."%char) && negb (bool_decide (s = ""))
            && VideoProcessor.extension_chars s) eqn:E.
  - intros [= <- <-].
    apply andb_true_iff in E as [[Hc Hs]%andb_true_iff He].
    apply bool_decide_eq_true in Hc as ->.
    apply negb_true_iff, bool_decide_eq_false in Hs. eauto.
  - destruct (VideoProcessor.match_extension s) as [[b m]|]; [|done]. simpl.
    intros [= <- <-]. destruct (IH b eq_refl) as (ext & -> & -> & ? & ?).
    eauto.
Qed.

Lemma occurs_app c a b : occurs c (a +:+ b) ↔ occurs c a ∨ occurs c b.
Proof.
  induction a as [|x a IH].
  - change ("" +:+ b) with b. simpl. tauto.
  - change (String x a +:+ b) with (String x (a +:+ b)). simpl. rewrite IH. tauto.
Qed.

(** A replacement text without a dollar sign stands for itself. *)
Lemma substitution_plain before matched after replacement :
  ¬ occurs "$" replacement →
  VideoProcessor.substitution before matched after replacement = replacement.
Proof.
  induction replacement as [|c r IH]; simpl; [done|]. intros Hn.
  rewrite decide_False by (intros ->; apply Hn; by left).
  rewrite IH by (intros ?; apply Hn; by right). done.
Qed.

Lemma replace_extension_suffix stem ext replacement :
  ext ≠ "" → VideoProcessor.extension_chars ext = true →
  ¬ occurs "$" replacement →
  VideoProcessor.replace_extension (stem +:+ String "."%char ext) replacement
  = stem +:+ replacement.
Proof.
  intros Hne Hext Hplain. unfold VideoProcessor.replace_extension.
  rewrite match_extension_suffix by done. by rewrite substitution_plain.
Qed.

(** X15. For a path [stem.ext] whose extension is not empty and holds
    neither [/] nor [.], the three post-processing functions replace the
    extension and keep the stem: [removeWatermark] gives
    [stem.nowatermark.mp4], [processVideo] gives [stem.processed.<format>]
    and [extractAudio] gives [stem.<outputFormat>], [mp3] when no format is
    passed; for the last two the format must hold no dollar sign, which
    [replace] would expand. *)
Theorem post_processing_replaces_extension stem ext options outputFormat platform :
  ext ≠ "" → VideoProcessor.extension_chars ext = true →
  ¬ occurs "$" (format options) → ¬ occurs "$" (default "mp3" outputFormat) →
  let path := stem +:+ "." +:+ ext in
  VideoProcessor.removeWatermark path platform = stem +:+ ".nowatermark.mp4" ∧
  VideoProcessor.processVideo path options
    = stem +:+ ".processed." +:+ format options ∧
  VideoProcessor.extractAudio path outputFormat
    = stem +:+ "." +:+ default "mp3" outputFormat.
Proof.
  intros Hne Hext Hf Ho. simpl.
  unfold VideoProcessor.removeWatermark, VideoProcessor.processVideo,
    VideoProcessor.extractAudio.
  change ("." +:+ ext) with (String "."%char ext).
  rewrite !replace_extension_suffix; try done.
  - rewrite occurs_app. intros [[]|?]; done.
  - rewrite occurs_app. by intros [?|?]; [vm_compute in H; intuition congruence|].
  - by vm_compute; intuition congruence.
Qed.

(** X16. A path that does not end in a dot followed by one or more
    characters other than [/] and [.] (no dot at all, a dot at the very
    end, or a last dot inside a directory name) is returned unchanged by
    the three post-processing functions. *)
Theorem post_processing_without_extension path options outputFormat platform :
  (¬ ∃ stem ext, path = stem +:+ "." +:+ ext ∧ ext ≠ "" ∧
                 VideoProcessor.extension_chars ext = true) →
  VideoProcessor.removeWatermark path platform = path ∧
  VideoProcessor.processVideo path options = path ∧
  VideoProcessor.extractAudio path outputFormat = path.
Proof.
  intros Hno.
  assert (VideoProcessor.match_extension path = None) as Hnone.
  { destruct (VideoProcessor.match_extension path) as [[before matched]|] eqn:E;
      [|done].
    exfalso. apply Hno.
    destruct (match_extension_Some _ _ _ E) as (ext & -> & _ & ? & ?). eauto. }
  unfold VideoProcessor.removeWatermark, VideoProcessor.processVideo,
    VideoProcessor.extractAudio, VideoProcessor.replace_extension.
  by rewrite Hnone.
Qed.

(** ** Download links *)

Lemma pretty_N_go_no_dash x s :
  ¬ occurs "-" s → ¬ occurs "-" (pretty_N_go x s).
Proof.
  revert s. induction (N.lt_wf_0 x) as [x _ IH]; intros s Hs.
  destruct (decide (x = 0)%N) as [->|Hx].
  - by rewrite pretty_N_go_0.
  - rewrite pretty_N_go_step by lia. apply IH.
    + apply N.div_lt; lia.
    + simpl. intros [Hc|Hc]; [|done].
      unfold pretty_N_char in Hc. by repeat case_match.
Qed.

Lemma pretty_N_no_dash (n : N) : ¬ occurs "-" (pretty n).
Proof.
  unfold pretty, pretty_N. case_decide.
  - simpl. by intros [?|[]].
  - apply pretty_N_go_no_dash. simpl. tauto.
Qed.

Lemma first_segment_whole s : ¬ occurs "-" s → first_segment s = s.
Proof.
  induction s as [|c s IH]; simpl; [done|]. intros Hn.
  rewrite decide_False by (intros ->; apply Hn; by left).
  rewrite IH; [done|]. intros ?. apply Hn. by right.
Qed.

Lemma first_segment_no_dash s : ¬ occurs "-" (first_segment s).
Proof.
  induction s as [|c s IH]; simpl; [tauto|].
  case_decide as Hc; simpl; [tauto|]. intros [<-|?]; [done | by apply IH].
Qed.

Lemma jobId_no_dash env : ¬ occurs "-" (random36 env) → ¬ occurs "-" (jobId env).
Proof.
  intros Hr. unfold jobId. rewrite !occurs_app. simpl.
  pose proof (pretty_N_no_dash (dateNow env)).
  intros [[H0|[H0|[H0|[H0|[]]]]]|[?|[[H0|[]]|?]]]; done.
Qed.

Section FileLinks.

Context (hostname : string → option string).
Context (base64url toUpperCase decode_base64url : string → string).
Context (length_of : string → N).

Local Abbreviation run_ := (run hostname base64url toUpperCase).
Local Abbreviation file_GET_ := (file_GET decode_base64url toUpperCase length_of).

(** The link [processJob] stores in the result of a job. *)
Definition link_of (j : Job.t) : string :=
  "/api/download/file?id=" +:+ base64url (Job.id j) +:+
  "&format=" +:+ format (Job.settings j).

Definition linked (j : Job.t) : Prop :=
  ¬ occurs "-" (Job.id j) ∧ Job.id j ≠ "" ∧
  ∀ r, Job.result j = Some r → downloadUrl r = link_of j.

Lemma linked_alter (f : Job.t → Job.t) l h :
  (∀ j, Job.id (f j) = Job.id j ∧ Job.settings (f j) = Job.settings j ∧
        Job.result (f j) = Job.result j) →
  Forall linked h → Forall linked (alter f l h).
Proof.
  intros Hf Hall. apply Forall_alter; [done|]. intros j _ (Hd & Hne & Hr).
  destruct (Hf j) as (Hid & Hs & Hres). unfold linked, link_of.
  rewrite Hid, Hs, Hres. done.
Qed.

Lemma linked_resumption k env a j w w' :
  heap w !! self a = Some j →
  Resumption hostname base64url toUpperCase k env a j w w' →
  Forall linked (heap w) → Forall linked (heap w').
Proof.
  intros Hj HR Hall. pose proof (Forall_lookup_1 _ _ _ _ Hall Hj) as Hok.
  assert (∀ p, linked (Job.set_progress p j)) as Hcopy by done.
  assert (∀ m path, linked (Job.set_result (job_result base64url m path j) j)) as Hres.
  { intros m path. destruct Hok as (? & ? & _). split_and!; [done..|].
    simpl. by intros r [= <-]. }
  assert (∀ f h, (∀ x, Job.id (f x) = Job.id x ∧ Job.settings (f x) = Job.settings x ∧
                       Job.result (f x) = Job.result x) →
            Forall linked h → Forall linked (alter f (self a) h)) as Halter.
  { intros f h Hf Hh. by apply linked_alter. }
  assert (∀ c h, linked c → Forall linked h → Forall linked (h ++ [c])) as Hpush.
  { intros c h Hc Hh. apply Forall_app. split; [done | by apply Forall_singleton]. }
  destruct HR as [| | | | | | |m message|m path]; simpl.
  - done.
  - apply Halter; [by intros []|]. done.
  - apply Halter; [by intros []|]. apply Hpush; [done|].
    apply Halter; [by intros []|]. done.
  - apply Halter; [by intros []|]. done.
  - apply Hpush; [done|]. apply Halter; [by intros []|]. done.
  - apply Hpush; [done|]. apply Halter; [by intros []|]. done.
  - apply Hpush; [done|]. apply Halter; [by intros []|]. done.
  - apply Halter; [by intros []|]. done.
  - apply Halter; [by intros []|]. apply Hpush; [by apply (Hres m path)|].
    apply Halter; [by intros []|].
    apply Forall_alter; [done|]. intros j' Hj' _.
    assert (j' = j) as -> by congruence. apply Hres.
Qed.

Lemma linked_step env ev w o w' :
  ¬ occurs "-" (random36 env) →
  step hostname base64url toUpperCase env ev w = Some (o, w') →
  Forall linked (heap w) → Forall linked (heap w').
Proof.
  intros Hr. destruct ev as [url settings| |k]; simpl.
  - intros [= _ <-] Hall. simpl. apply Forall_app. split; [done|].
    apply Forall_singleton. split_and!; [by apply jobId_no_dash | done | done].
  - destruct (timers w) as [|n] eqn:Ht; [done|].
    destruct (processNextJob_cases (with_timers n w))
      as [[-> _]|(l & j & _ & _ & Hj & ->)]; simpl; intros [= _ <-]; [done|].
    intros Hall. pose proof (Forall_lookup_1 _ _ _ _ Hall Hj) as Hok.
    apply Forall_app. split; [|by apply Forall_singleton].
    apply linked_alter; [by intros []|]. by apply linked_alter; [intros []|].
  - destruct (resume hostname base64url toUpperCase k env w) as [w1|] eqn:Hres; [|done].
    simpl. intros [= _ <-].
    destruct (resume_cases _ _ _ _ _ _ _ Hres) as (a & j & Ha & Hj & HR).
    by eapply linked_resumption.
Qed.


End FileLinks.

(** ** PlatformValidator *)

Module ValidatorFacts.
Import PlatformValidator.

Lemma strip_prefix_Some t s s' : strip_prefix t s = Some s' → s = t +:+ s'.
Proof.
  revert s. induction t as [|a t IH]; intros [|b s]; simpl; try done.
  - by intros [= <-].
  - by intros [= <-].
  - case_decide as Hab; [|done]. subst b. intros H. by rewrite (IH _ H).
Qed.

Lemma prefix_app t r : String.prefix t (t +:+ r) = true.
Proof.
  induction t as [|a t IH]; [apply prefix_nil|].
  change (String a t +:+ r) with (String a (t +:+ r)). simpl.
  by destruct (Ascii.ascii_dec a a).
Qed.

Lemma includes_app_r a s t : includes s t = true → includes (a +:+ s) t = true.
Proof.
  intros H. induction a as [|c a IH]; [done|].
  change (String c a +:+ s) with (String c (a +:+ s)). by apply includes_tail.
Qed.

Lemma includes_app_l t r : includes (t +:+ r) t = true.
Proof. apply includes_prefix, prefix_app. Qed.

(** The loop of a character class ends where the rest of the pattern
    matches a suffix. *)
Lemma run_suffix class rest s :
  (fix run (s : string) : bool :=
     match s with
     | "" => false
     | String c s' => class c && (run s' || test rest s')
     end) s = true →
  ∃ a s', s = a +:+ s' ∧ test rest s' = true.
Proof.
  induction s as [|c s IH]; [done|].
  intros [_ [H|H]%orb_true_iff]%andb_true_iff.
  - destruct (IH H) as (a & s' & -> & Ht). by exists (String c a), s'.
  - by exists (String c ""), s.
Qed.

(** A URL that matches a pattern contains every literal text of it. *)
Lemma test_text_includes before t after s :
  test (before ++ Text t :: after) s = true → includes s t = true.
Proof.
  revert s. induction before as [|[t0|t0|class] before IH]; intros s; simpl.
  - destruct (strip_prefix t s) as [s'|] eqn:Hs; [|done]. intros _.
    rewrite (strip_prefix_Some _ _ _ Hs). apply includes_app_l.
  - destruct (strip_prefix t0 s) as [s'|] eqn:Hs; [|done]. intros H.
    rewrite (strip_prefix_Some _ _ _ Hs). by apply includes_app_r, IH.
  - destruct (strip_prefix t0 s) as [s'|] eqn:Hs; [|by apply IH].
    intros [H|H]%orb_true_iff; [|by apply IH].
    rewrite (strip_prefix_Some _ _ _ Hs). by apply includes_app_r, IH.
  - intros H. apply run_suffix in H as (a & s' & -> & H).
    by apply includes_app_r, IH.
Qed.

Lemma test_scheme p s :
  test (scheme p) s = true →
  String.prefix "http://" s = true ∨ String.prefix "https://" s = true.
Proof.
  unfold scheme. cbn [test].
  destruct (strip_prefix "http" s) as [s1|] eqn:H1; [|done].
  apply strip_prefix_Some in H1 as ->.
  destruct (strip_prefix "s" s1) as [s2|] eqn:H2.
  - apply strip_prefix_Some in H2 as ->.
    destruct (strip_prefix "://" s2) as [s3|] eqn:H3.
    + apply strip_prefix_Some in H3 as ->. intros _. right.
      apply (prefix_app "https://" s3).
    + change ("s" +:+ s2) with (String "s"%char s2). by simpl.
  - destruct (strip_prefix "://" s1) as [s3|] eqn:H3; [|done].
    apply strip_prefix_Some in H3 as ->. intros _. left.
    apply (prefix_app "http://" s3).
Qed.

Lemma pattern_known key config :
  (key, config) ∈ PLATFORM_PATTERNS →
  name config ∈ ["TikTok"; "Instagram"; "YouTube"; "LinkedIn"] ∧
  Forall (λ p, ∃ q, p = scheme q) (patterns config).
Proof.
  intros Hin. unfold PLATFORM_PATTERNS in Hin.
  rewrite !elem_of_cons, elem_of_nil in Hin.
  destruct Hin as [[= -> ->]|[[= -> ->]|[[= -> ->]|[[= -> ->]|[]]]]];
    (split; [simpl; in_list | repeat constructor; by eexists]).
Qed.

Lemma test_all_texts p s t :
  test p s = true → Text t ∈ p → includes s t = true.
Proof.
  intros Htest (before & after & ->)%list_elem_of_split.
  by eapply test_text_includes.
Qed.

End ValidatorFacts.

Section Validator.

Context (hostname : string → option string).
Context (toLowerCase : string → string).

Local Abbreviation validateUrl_ := (PlatformValidator.validateUrl hostname).

(** X18. [validateUrl] accepts a URL only if it starts with [http://] or
    [https://] and the [URL] constructor accepts it, and then names one of
    TikTok, Instagram, YouTube and LinkedIn, with no error and no
    suggestions; every refusal carries an error message and at least one
    suggestion.  An empty URL is refused with [URL is required] and one
    the constructor rejects with [Invalid URL format]. *)
Theorem validateUrl_accepts_or_explains url :
  (if PlatformValidator.isValid (PlatformValidator.validateUrl hostname url) then
     (String.prefix "http://" url = true ∨ String.prefix "https://" url = true) ∧
     is_Some (hostname url) ∧
     ∃ name, name ∈ ["TikTok"; "Instagram"; "YouTube"; "LinkedIn"] ∧
             PlatformValidator.validateUrl hostname url
             = {| PlatformValidator.isValid := true;
                  PlatformValidator.platform := Some name;
                  PlatformValidator.error := None;
                  PlatformValidator.suggestions := None |}
   else
     PlatformValidator.platform (PlatformValidator.validateUrl hostname url) = None ∧
     ∃ message first more,
       PlatformValidator.error (PlatformValidator.validateUrl hostname url) = Some message ∧
       PlatformValidator.suggestions (PlatformValidator.validateUrl hostname url) = Some (first :: more)) ∧
  PlatformValidator.error (PlatformValidator.validateUrl hostname "") = Some "URL is required" ∧
  (url ≠ "" → hostname url = None →
   PlatformValidator.error (PlatformValidator.validateUrl hostname url) = Some "Invalid URL format").
Proof.
  split_and!.
  - unfold PlatformValidator.validateUrl.
    case_decide as Hurl; [simpl; eauto 10|].
    destruct (hostname url) as [h|] eqn:Hh; [|simpl; eauto 10].
    destruct (find _ PlatformValidator.PLATFORM_PATTERNS) as [[key config]|] eqn:Hf.
    + simpl. apply find_some in Hf as [Hin Hex].
      apply list_elem_of_In in Hin.
      destruct (ValidatorFacts.pattern_known _ _ Hin) as [Hname Hscheme].
      apply existsb_exists in Hex as (p & Hp & Htest). simpl in Hp.
      apply list_elem_of_In in Hp. rewrite Forall_forall in Hscheme.
      destruct (Hscheme p Hp) as [q ->].
      split_and!; [by eapply ValidatorFacts.test_scheme | by eauto | by eauto].
    + simpl. split; [done|].
      repeat case_match; eauto 10.
  - done.
  - intros Hne Hh. unfold PlatformValidator.validateUrl.
    rewrite decide_False by done. by rewrite Hh.
Qed.

(** X19. Every example URL the validator lists for a platform is accepted
    by [validateUrl] as a URL of that platform, as soon as the [URL]
    constructor accepts it. *)
Theorem validateUrl_accepts_examples key config example :
  (key, config) ∈ PlatformValidator.PLATFORM_PATTERNS →
  example ∈ PlatformValidator.examples config →
  is_Some (hostname example) →
  validateUrl_ example
  = {| PlatformValidator.isValid := true;
       PlatformValidator.platform := Some (PlatformValidator.name config);
       PlatformValidator.error := None;
       PlatformValidator.suggestions := None |}.
Proof.
  intros Hin Hex [h Hh]. unfold PlatformValidator.PLATFORM_PATTERNS in Hin.
  rewrite !elem_of_cons, elem_of_nil in Hin.
  destruct Hin as [[= -> ->]|[[= -> ->]|[[= -> ->]|[[= -> ->]|[]]]]];
    simpl in Hex; rewrite !elem_of_cons, elem_of_nil in Hex;
    destruct Hex as [->|[->|[]]];
    unfold PlatformValidator.validateUrl; rewrite Hh; reflexivity.
Qed.

(** X20. The examples [getPlatformExamples] gives without a platform are
    those of all platforms in the order of [getSupportedPlatforms]; for a
    name whose lower case is the key of a platform they are the examples
    of that platform, as for each name [getSupportedPlatforms] lists when
    [toLowerCase] turns it into its key; for any other name there are
    none. *)
Theorem getPlatformExamples_by_platform :
  PlatformValidator.getPlatformExamples toLowerCase None
    = mjoin (snd <$> PlatformValidator.getSupportedPlatforms) ∧
  PlatformValidator.getPlatformExamples toLowerCase (Some "")
    = mjoin (snd <$> PlatformValidator.getSupportedPlatforms) ∧
  (∀ platform key config,
     platform ≠ "" → toLowerCase platform = key →
     (key, config) ∈ PlatformValidator.PLATFORM_PATTERNS →
     PlatformValidator.getPlatformExamples toLowerCase (Some platform)
       = PlatformValidator.examples config ∧
     (PlatformValidator.name config, PlatformValidator.examples config)
       ∈ PlatformValidator.getSupportedPlatforms) ∧
  (∀ platform,
     platform ≠ "" → toLowerCase platform ∉ PlatformValidator.PLATFORM_PATTERNS.*1 →
     PlatformValidator.getPlatformExamples toLowerCase (Some platform) = []).
Proof.
  split_and!; [done | done | |].
  - intros platform key config Hne Hkey Hin.
    assert (∀ A (a b : A),
              match platform with "" => a | String _ _ => b end = b) as Hmatch.
    { intros. by destruct platform. }
    unfold PlatformValidator.getPlatformExamples. rewrite Hmatch, Hkey.
    unfold PlatformValidator.PLATFORM_PATTERNS in Hin |- *.
    rewrite !elem_of_cons, elem_of_nil in Hin.
    destruct Hin as [[= -> ->]|[[= -> ->]|[[= -> ->]|[[= -> ->]|[]]]]];
      (split; [reflexivity | unfold PlatformValidator.getSupportedPlatforms; in_list]).
  - intros platform Hne Hkey.
    assert (∀ A (a b : A),
              match platform with "" => a | String _ _ => b end = b) as Hmatch.
    { intros. by destruct platform. }
    unfold PlatformValidator.getPlatformExamples. rewrite Hmatch.
    destruct (find _ PlatformValidator.PLATFORM_PATTERNS) as [[key config]|] eqn:Hf;
      [|done].
    apply find_some in Hf as [Hin Heq]. apply bool_decide_eq_true in Heq.
    simpl in Heq. exfalso. apply Hkey. rewrite <-Heq.
    apply list_elem_of_fmap. exists (key, config). split; [done|].
    by apply list_elem_of_In.
Qed.


End Validator.

(** ** The check of the client and the detection of the route *)

(** X22. For a URL whose host name has no upper-case letter, so that
    [hostname] and [hostname.toLowerCase()] agree, the client's
    [validateUrl] and the download route's [detectPlatform] decide alike:
    the client accepts the URL exactly when the route detects a platform,
    and it names the platform the route detects; the client answers
    [Invalid URL format] exactly when the [URL] constructor throws, which
    is when the route answers so. *)
Theorem client_accepts_what_route_detects
    (hostname hostname_of : string → option string) url :
  hostname_of url = hostname url →
  let checked := VideoDownloader.validateUrl hostname_of url in
  (VideoDownloader.isValid checked = true ↔
   is_Some (DownloadRoute.detectPlatform hostname url)) ∧
  (∀ key config,
     DownloadRoute.detectPlatform hostname url = Some (key, config) →
     VideoDownloader.platform checked = Some (PlatformConfig.name config)) ∧
  (VideoDownloader.error checked = Some "Invalid URL format" ↔ hostname url = None).
Proof.
  intros Hsame. simpl.
  unfold VideoDownloader.validateUrl, DownloadRoute.detectPlatform. rewrite Hsame.
  destruct (hostname url) as [h|]; simpl.
  2:{ split_and!; [|done|done]. split; [done | by intros [? ?]]. }
  pose proof (λ H, includes_trans h "vm.tiktok.com" "tiktok.com" H eq_refl) as Hvm.
  pose proof (λ H, includes_trans h "m.youtube.com" "youtube.com" H eq_refl) as Hm.
  destruct (includes h "tiktok.com") eqn:E1; simpl.
  { split_and!; [by eauto | by intros ? ? [= <- <-] | done]. }
  destruct (includes h "vm.tiktok.com") eqn:E2; [by specialize (Hvm eq_refl)|].
  simpl.
  destruct (includes h "instagram.com") eqn:E3; simpl.
  { split_and!; [by eauto | by intros ? ? [= <- <-] | done]. }
  destruct (includes h "youtube.com") eqn:E4; simpl.
  { split_and!; [by eauto | by intros ? ? [= <- <-] | done]. }
  destruct (includes h "m.youtube.com") eqn:E6; [by specialize (Hm eq_refl)|].
  destruct (includes h "youtu.be") eqn:E5; simpl.
  { split_and!; [by eauto | by intros ? ? [= <- <-] | done]. }
  destruct (includes h "linkedin.com") eqn:E7; simpl.
  { split_and!; [by eauto | by intros ? ? [= <- <-] | done]. }
  split_and!; [|done|done]. split; [done | by intros [? ?]].
Qed.

(** ** The running activations *)

(** The identifier of the job object at [l]. *)
Definition id_at (h : list Job.t) (l : nat) : string :=
  default "" (Job.id <$> h !! l).

(** The identifiers of the jobs the suspended activations work on. *)
Definition running_ids (w : World) : list string :=
  id_at (heap w) <$> (self <$> suspended w).

(** [activeJobs] holds the identifiers of the jobs the activations work
    on, and no two activations work on jobs of the same identifier. *)
Definition active_inv (w : World) : Prop :=
  NoDup (running_ids w) ∧ activeJobs w = list_to_set (running_ids w).

Lemma id_at_ext (h h' : list Job.t) (ls : list nat) :
  (∀ l, l ∈ ls → id_at h' l = id_at h l) → id_at h' <$> ls = id_at h <$> ls.
Proof.
  intros H. apply list_fmap_ext. intros i l Hl. apply H.
  by eapply list_elem_of_lookup_2.
Qed.

Lemma list_elem_of_delete_NoDup {A} (l : list A) k x y :
  NoDup l → l !! k = Some x → y ∈ delete k l ↔ y ∈ l ∧ y ≠ x.
Proof.
  intros Hnd Hk. split.
  - intros Hy. split; [by eapply list_elem_of_delete_inv|].
    intros ->. by eapply NoDup_delete_lookup.
  - intros [Hy Hne]. rewrite <-(take_drop_middle l k x Hk) in Hy.
    rewrite delete_take_drop. rewrite elem_of_app, elem_of_cons in Hy.
    rewrite elem_of_app. tauto.
Qed.

Lemma active_inv_delete (ids : list string) k x (X : gset string) :
  NoDup ids → ids !! k = Some x → X = list_to_set ids →
  NoDup (delete k ids) ∧ X ∖ {[x]} = list_to_set (delete k ids).
Proof.
  intros Hnd Hk ->. split.
  - eapply sublist_NoDup; [done | apply sublist_delete].
  - apply set_eq. intros y.
    rewrite elem_of_difference, !elem_of_list_to_set, elem_of_singleton.
    by rewrite (list_elem_of_delete_NoDup ids k x y).
Qed.

Lemma active_inv_addJob env url settings w :
  wf w → active_inv w → active_inv (addJob env url settings w).2.
Proof.
  intros Hw [Hnd Hset]. unfold active_inv, running_ids, addJob, alloc. simpl.
  rewrite (id_at_ext (heap w) (heap w ++ _) (self <$> suspended w)); [done|].
  intros l Hl. unfold id_at. rewrite lookup_app_l; [done|].
  by eapply running_lt, wf_running.
Qed.

Section Running.

Context (hostname : string → option string).
Context (base64url toUpperCase : string → string).

Local Abbreviation run_ := (run hostname base64url toUpperCase).
Local Abbreviation step_ := (step hostname base64url toUpperCase).
Local Abbreviation Resumption_ := (Resumption hostname base64url toUpperCase).

Lemma active_inv_admission l j w A Q :
  wf w → fifo w A Q → active_inv w →
  find_queued (heap w) (jobs w) = Some l → heap w !! l = Some j →
  active_inv (admission l j w).
Proof.
  intros Hw HF [Hnd Hset] Hfind Hj.
  pose proof (fifo_admission hostname base64url toUpperCase _ _ _ _ _ Hw HF Hfind Hj)
    as (Q' & HQ & _).
  subst Q.
  destruct (find_queued_Some _ _ _ Hfind) as (before & k & after & j0 & Hm & _).
  assert ((k, l) ∈ jobs w) as Hin.
  { rewrite Hm, elem_of_app, elem_of_cons. auto. }
  assert (l ∉ self <$> suspended w) as Hl.
  { intros Hs. destruct (wf_running w Hw l Hs) as (_ & _ & _ & _ & _ & _ & Hno).
    by apply (Hno k). }
  pose proof (lookup_lt_Some _ _ _ Hj) as Hlt.
  assert (id_at (heap (admission l j w)) <$> (self <$> suspended w)
          = running_ids w) as Hold.
  { apply id_at_ext. intros l' Hl'. unfold id_at, admission. simpl.
    rewrite lookup_app_l by (rewrite !length_alter; by eapply running_lt, wf_running).
    rewrite !list_lookup_alter_ne; [done|..]; by intros ->. }
  assert (id_at (heap (admission l j w)) l = Job.id j) as Hnew.
  { unfold id_at, admission. simpl.
    rewrite lookup_app_l by (by rewrite !length_alter).
    by rewrite !list_lookup_alter_eq, Hj. }
  assert (Job.id j ∉ running_ids w) as Hfresh.
  { intros (l' & Hid & Hl')%list_elem_of_fmap.
    destruct (wf_running w Hw l' Hl') as (j' & Hj' & _).
    unfold id_at in Hid. rewrite Hj' in Hid. simpl in Hid.
    pose proof (fifo_keys w A (Job.id j :: Q') HF) as Hkeys.
    destruct HF as [_ Hrun]. pose proof (Hrun l' j' Hl' Hj') as HA.
    rewrite <-Hid in HA.
    pose proof (wf_keys w Hw) as Hk. rewrite Hkeys in Hk.
    apply NoDup_app in Hk as (_ & Hdis & _). apply (Hdis _ HA). left. }
  unfold active_inv, running_ids.
  replace (suspended (admission l j w))
    with (suspended w ++ [{| self := l; pc := AwaitAnalyze |}]) by done.
  rewrite !fmap_app, Hold.
  change (id_at (heap (admission l j w)) <$>
            (self <$> [{| self := l; pc := AwaitAnalyze |}]))
    with [id_at (heap (admission l j w)) l].
  rewrite Hnew. split.
  - apply NoDup_app. split_and!; [done | | apply NoDup_singleton].
    intros x Hx ->%list_elem_of_singleton. done.
  - replace (activeJobs (admission l j w)) with ({[Job.id j]} ∪ activeJobs w) by done.
    rewrite Hset, list_to_set_app_L. simpl.
    rewrite (right_id_L ∅ (∪)). apply (comm_L (∪)).
Qed.

Lemma active_inv_resumption k env a j w w' :
  wf w → active_inv w →
  suspended w !! k = Some a → heap w !! self a = Some j →
  Resumption_ k env a j w w' → active_inv w'.
Proof.
  intros Hw [Hnd Hset] Ha Hj HR.
  assert (id_at (heap w') <$> (self <$> suspended w) = running_ids w) as Hids.
  { apply id_at_ext. intros l Hl. unfold id_at.
    destruct (decide (l = self a)) as [->|Hne].
    - destruct (resumption_self_object _ _ _ _ _ _ _ _ _ Hj HR) as (j' & Hj' & _).
      rewrite Hj', Hj. simpl.
      by eapply (resumption_self hostname base64url toUpperCase).
    - erewrite resumption_heap_other; [done..|].
      by eapply running_lt, wf_running. }
  assert ((self <$> suspended w' = self <$> suspended w ∧
           activeJobs w' = activeJobs w) ∨
          (suspended w' = delete k (suspended w) ∧
           activeJobs w' = activeJobs w ∖ {[Job.id j]})) as [[Hs Hact]|[Hs Hact]].
  { destruct HR; simpl; rewrite ?self_set_pc; auto. }
  - unfold active_inv, running_ids. by rewrite Hs, Hids, Hact.
  - unfold active_inv, running_ids. rewrite Hs, Hact, !list_fmap_delete.
    rewrite Hids. apply active_inv_delete; [done | | done].
    unfold running_ids. rewrite !list_lookup_fmap, Ha. simpl.
    unfold id_at. by rewrite Hj.
Qed.

Lemma active_inv_step env ev w o w' A Q :
  wf w → fifo w A Q → active_inv w → step_ env ev w = Some (o, w') → active_inv w'.
Proof.
  intros Hw HF HA. destruct ev as [url settings| |k]; simpl.
  - intros [= _ <-]. by apply active_inv_addJob.
  - destruct (timers w) as [|n] eqn:Ht; [done|].
    destruct (processNextJob_cases (with_timers n w))
      as [[-> _]|(l & j & _ & Hfind & Hj & ->)]; simpl; intros [= _ <-]; [done|].
    apply (active_inv_admission l j (with_timers n w) A Q);
      [by apply wf_with_timers | done | done | done | done].
  - destruct (resume hostname base64url toUpperCase k env w) as [w1|] eqn:Hr; [|done].
    simpl. intros [= _ <-].
    destruct (resume_cases _ _ _ _ _ _ _ Hr) as (a & j & Ha & Hj & HR).
    by eapply active_inv_resumption.
Qed.

Lemma active_inv_run evs w os w' A Q :
  wf w → fifo w A Q → active_inv w →
  size (activeJobs w) ≤ maxConcurrentJobs w →
  run_ evs w = Some (os, w') →
  NoDup (A ++ Q ++ returned os) →
  active_inv w' ∧ size (activeJobs w') ≤ maxConcurrentJobs w' ∧
  maxConcurrentJobs w' = maxConcurrentJobs w.
Proof.
  revert w os A Q.
  induction evs as [|[env ev] evs IH]; intros w os A Q Hw HF HA Hb; simpl.
  - by intros [= _ <-] _.
  - destruct (step_ env ev w) as [[o w1]|] eqn:Hs; [|done]. simpl.
    destruct (run_ evs w1) as [[os' w2]|] eqn:Hr; [|done]. simpl.
    intros [= <- <-]. rewrite returned_cons. intros Hnd.
    destruct (fifo_step _ _ _ _ _ _ _ _ _ _ Hw HF Hs) as (Q1 & HF1 & Heq1).
    { intros i ->. simpl in Hnd. rewrite app_assoc in Hnd.
      apply NoDup_app in Hnd as (_ & Hd & _). intros Hin.
      apply (Hd i Hin). apply list_elem_of_here. }
    destruct (activeJobs_step _ _ _ _ _ _ _ _ Hb Hs) as [Hb1 Hmax1].
    destruct (IH w1 os' (A ++ admitted [o]) Q1) as (HA' & Hb' & Hmax').
    + by eapply wf_step.
    + done.
    + by eapply active_inv_step.
    + done.
    + done.
    + rewrite app_assoc, Heq1. by rewrite <-!app_assoc.
    + split_and!; [done..|]. by rewrite Hmax'.
Qed.

(** X23. On a queue with any limit and with identifiers that are pairwise
    distinct, no more activations of [processJob] run at any time than the
    limit allows: the suspended activations work on jobs of pairwise
    distinct identifiers, [activeJobs] holds exactly these identifiers, and
    so the number of activations is the size of [activeJobs], which the
    limit bounds. *)
Theorem running_activations_bounded n evs os w :
  run_ evs (queue_with_limit n) = Some (os, w) →
  NoDup (returned os) →
  NoDup (running_ids w) ∧
  activeJobs w = list_to_set (running_ids w) ∧
  length (suspended w) = size (activeJobs w) ∧
  length (suspended w) ≤ n.
Proof.
  intros Hrun Hnd.
  destruct (active_inv_run evs (queue_with_limit n) os w [] [])
    as ([Hids Hset] & Hb & Hmax).
  - apply wf_queue_with_limit.
  - apply fifo_queue_with_limit.
  - split; [constructor | done].
  - simpl. change (size (∅ : gset string) ≤ n). rewrite size_empty. lia.
  - done.
  - done.
  - assert (length (suspended w) = size (activeJobs w)) as Hlen.
    { rewrite Hset, size_list_to_set by done.
      unfold running_ids. by rewrite !length_fmap. }
    split_and!; [done..|]. rewrite Hlen. simpl in Hmax. lia.
Qed.

End Running.

(** ** The course of one job *)

(** The number of timers an activation still waits for, the one it is
    suspended at included. *)
Definition remaining (watermark : bool) (p : Pc) : nat :=
  match p with
  | AwaitAnalyze => 14 + (if watermark then 1 else 0)
  | AwaitMetadata => 13 + (if watermark then 1 else 0)
  | AwaitDownloadStep i _ => 12 + (if watermark then 1 else 0) - i
  | AwaitWatermark _ => 3
  | AwaitConvert _ => 2
  | AwaitFinalize _ => 1
  end.

Section Course.

Context (hostname : string → option string).
Context (base64url toUpperCase : string → string).

Local Abbreviation run_ := (run hostname base64url toUpperCase).
Local Abbreviation resume_ := (resume hostname base64url toUpperCase).
Local Abbreviation Resumption_ := (Resumption hostname base64url toUpperCase).

(** A resumption leaves the URL and the settings of the job object. *)
Lemma resumption_self_request k env a j w w' j' :
  heap w !! self a = Some j → Resumption_ k env a j w w' →
  heap w' !! self a = Some j' →
  Job.url j' = Job.url j ∧ Job.settings j' = Job.settings j.
Proof.
  intros Hj HR. pose proof (lookup_lt_Some _ _ _ Hj) as Hlt.
  destruct HR as [| | | | | | |? message|]; simpl;
    repeat first
      [ rewrite list_lookup_alter_eq
      | rewrite lookup_app_l by (rewrite ?length_alter; done)
      | rewrite Hj
      | progress simpl ];
    intros [= <-]; done.
Qed.

Lemma suspended_set_pc k p w a :
  suspended w !! k = Some a →
  suspended (set_pc k p w) !! k = Some {| self := self a; pc := p |} ∧
  length (suspended (set_pc k p w)) = length (suspended w) ∧
  delete k (suspended (set_pc k p w)) = delete k (suspended w).
Proof.
  intros Ha. unfold set_pc. simpl. rewrite list_lookup_alter_eq, Ha, length_alter.
  split_and!; [done..|].
  rewrite !delete_take_drop, take_alter_ge, drop_alter_lt by lia. done.
Qed.

(** One timer of an activation whose job has a URL that parses: the
    activation goes on to its next [await], or it was at its last one and
    the job object is completed. *)
Lemma resume_advances k env w a j :
  wf w → suspended w !! k = Some a → heap w !! self a = Some j →
  pc_bound (pc a) → is_Some (hostname (Job.url j)) →
  ∃ w', resume_ k env w = Some w' ∧ wf w' ∧
    match remaining (removeWatermark (Job.settings j)) (pc a) with
    | 0 => False
    | 1 =>
        suspended w' = delete k (suspended w) ∧
        ∃ j', heap w' !! self a = Some j' ∧ Job.status j' = Status.completed ∧
              is_Some (Job.result j') ∧ Job.error j' = Job.error j
    | S n =>
        ∃ a' j', suspended w' !! k = Some a' ∧ self a' = self a ∧
                 (length (suspended w') = length (suspended w) ∧
                  delete k (suspended w') = delete k (suspended w)) ∧
                 heap w' !! self a = Some j' ∧
                 (Job.url j' = Job.url j ∧ Job.error j' = Job.error j) ∧
                 Job.settings j' = Job.settings j ∧
                 pc_bound (pc a') ∧
                 remaining (removeWatermark (Job.settings j)) (pc a') = n
    end.
Proof.
  intros Hw Ha Hj Hb [h Hh].
  destruct (resume_total hostname base64url toUpperCase k env w Hw) as [w' Hr].
  { by eapply lookup_lt_Some. }
  exists w'. split; [done|].
  destruct (resume_cases _ _ _ _ _ _ _ Hr) as (a0 & j0 & Ha0 & Hj0 & HR).
  assert (a0 = a) as -> by congruence. assert (j0 = j) as -> by congruence.
  split; [by eapply wf_resumption|].
  destruct (resumption_self_object _ _ _ _ _ _ _ _ _ Hj HR) as (j' & Hj' & Hcases).
  destruct (resumption_self_request _ _ _ _ _ _ _ Hj HR Hj') as [Hurl Hset].
  assert (∀ p w0, w' = set_pc k p w0 →
            suspended w0 = suspended w → pc_bound p →
            ∃ a' j', suspended w' !! k = Some a' ∧ self a' = self a ∧
                     (length (suspended w') = length (suspended w) ∧
                      delete k (suspended w') = delete k (suspended w)) ∧
                     heap w' !! self a = Some j' ∧
                     (Job.url j' = Job.url j ∧ Job.error j' = Job.error j) ∧
                     Job.settings j' = Job.settings j ∧
                     pc_bound (pc a') ∧
                     remaining (removeWatermark (Job.settings j)) (pc a')
                     = remaining (removeWatermark (Job.settings j)) p) as Hnext.
  { intros p w0 -> Hs Hp. rewrite <-Hs in Ha.
    destruct (suspended_set_pc k p w0 a Ha) as (Hk & Hlen & Hdel).
    assert (Job.error j' = Job.error j) as Herr.
    { destruct Hcases as [(_ & _ & ?)|[(Hs' & _)|(Hs' & _)]]; [done|..];
        apply (f_equal length) in Hs'; rewrite Hlen, <-Hs in Hs';
        rewrite length_delete in Hs' by eauto;
        apply lookup_lt_Some in Ha; lia. }
    eexists _, j'. rewrite Hk, Hlen, Hdel, Hs. split_and!; done. }
  assert (i_last : ∀ i, i < steps → ¬ S i < steps → i = 9)
    by (unfold steps; lia).
  destruct HR as [Hpc|Hpc Hm|m Hpc Hm|i m Hpc Hi|i m Hpc Hi Hwm|m Hpc
                 |m Hpc|m message Hpc Hd|m path Hpc Hd].
  - rewrite Hpc in *.
    destruct (Hnext AwaitMetadata _ eq_refl eq_refl I)
      as (a' & j'' & H1 & H2 & [H3 H3'] & H4 & [H5 H5'] & H6 & H7 & H8).
    destruct (removeWatermark (Job.settings j)); simpl in *;
      exists a', j''; split_and!; done.
  - unfold extractMetadata, detectPlatform in Hm. by rewrite Hh in Hm.
  - rewrite Hpc in *.
    destruct (Hnext (AwaitDownloadStep 0 m) _ eq_refl eq_refl)
      as (a' & j'' & H1 & H2 & [H3 H3'] & H4 & [H5 H5'] & H6 & H7 & H8).
    { simpl. unfold steps. lia. }
    destruct (removeWatermark (Job.settings j)); simpl in *;
      exists a', j''; split_and!; done.
  - rewrite Hpc in *.
    destruct (Hnext (AwaitDownloadStep (S i) m) _ eq_refl eq_refl Hi)
      as (a' & j'' & H1 & H2 & [H3 H3'] & H4 & [H5 H5'] & H6 & H7 & H8).
    unfold steps in Hi. simpl in H8 |- *.
    destruct (removeWatermark (Job.settings j)).
    + replace (13 - i) with (S (S (11 - i))) by lia.
      exists a', j''. split_and!; try done. lia.
    + replace (12 - i) with (S (S (10 - i))) by lia.
      exists a', j''. split_and!; try done. lia.
  - rewrite Hpc in *. simpl in Hb. rewrite (i_last i Hb Hi), Hwm in *.
    destruct (Hnext (AwaitWatermark m) _ eq_refl eq_refl I)
      as (a' & j'' & H1 & H2 & [H3 H3'] & H4 & [H5 H5'] & H6 & H7 & H8).
    simpl in *. exists a', j''. split_and!; done.
  - destruct Hpc as [(i & Hpc & Hi & Hwm)|Hpc]; rewrite Hpc in *.
    + simpl in Hb. rewrite (i_last i Hb Hi), Hwm in *.
      destruct (Hnext (AwaitConvert m) _ eq_refl eq_refl I)
        as (a' & j'' & H1 & H2 & [H3 H3'] & H4 & [H5 H5'] & H6 & H7 & H8).
      simpl in *. exists a', j''. split_and!; done.
    + destruct (Hnext (AwaitConvert m) _ eq_refl eq_refl I)
        as (a' & j'' & H1 & H2 & [H3 H3'] & H4 & [H5 H5'] & H6 & H7 & H8).
      simpl in *. exists a', j''. split_and!; done.
  - rewrite Hpc in *.
    destruct (Hnext (AwaitFinalize m) _ eq_refl eq_refl I)
      as (a' & j'' & H1 & H2 & [H3 H3'] & H4 & [H5 H5'] & H6 & H7 & H8).
    simpl in *. exists a', j''. split_and!; done.
  - unfold downloadVideo, detectPlatform in Hd. by rewrite Hh in Hd.
  - rewrite Hpc in *. simpl. split; [done|]. exists j'. split; [done|].
    destruct Hcases as [(Hst & _)|[(_ & Hst & _)|(_ & Hst & Hres & Herr)]];
      [| |done].
    + exfalso. revert Hj' Hst. simpl.
      repeat first
        [ rewrite list_lookup_alter_eq
        | rewrite lookup_app_l by (rewrite ?length_alter; by eapply lookup_lt_Some)
        | rewrite Hj
        | progress simpl ].
      intros [= <-]. simpl.
      destruct (wf_running w Hw (self a)) as (jr & Hjr & Hp & _).
      { by eapply self_elem. }
      assert (jr = j) as -> by congruence. rewrite Hp. done.
    + exfalso. revert Hj' Hst. simpl.
      repeat first
        [ rewrite list_lookup_alter_eq
        | rewrite lookup_app_l by (rewrite ?length_alter; by eapply lookup_lt_Some)
        | rewrite Hj
        | progress simpl ].
      intros [= <-]. done.
Qed.


Lemma run_resume_cons env k evs w :
  run_ ((env, Resume k) :: evs) w
  = w1 ← resume_ k env w; '(os, w2) ← run_ evs w1; Some (Resumed :: os, w2).
Proof. simpl. by destruct (resume_ k env w). Qed.


End Course.

(** * Sample requests and further witnesses *)

(** The record shown for the job of [youtube_job] when its activation has
    ended. *)
Lemma getJob_never_terminal_witness :
  ∃ job,
    getJob "job_1000_k3j9x2m1q" (state_of youtube_job new_queue) = Some job ∧
    Job.status job ≠ Status.completed ∧ Job.status job ≠ Status.failed ∧
    Job.error job = None ∧ Job.completedAt job = None.
Proof.
  destruct (getJob "job_1000_k3j9x2m1q" (state_of youtube_job new_queue))
    as [job|] eqn:Hjob; [|by vm_compute in Hjob].
  exists job. split; [reflexivity|].
  exact (getJob_never_terminal sample_hostname sample_base64url sample_toUpperCase
           youtube_job (outputs_of youtube_job new_queue)
           (state_of youtube_job new_queue) "job_1000_k3j9x2m1q" job
           youtube_job_runs Hjob).
Defined.

(** ** Executions of the server *)

Lemma one_admitted_runs :
  sample_run one_admitted new_queue
  = Some (outputs_of one_admitted new_queue, state_of one_admitted new_queue).
Proof. vm_compute. reflexivity. Defined.

Lemma served_requests_run :
  sample_serve_all served_requests new_queue
  = Some (default [] (fst <$> sample_serve_all served_requests new_queue),
          default new_queue (snd <$> sample_serve_all served_requests new_queue)).
Proof. vm_compute. reflexivity. Defined.

(** After four submissions and one admission the list has four entries
    with distinct identifiers. *)
Lemma list_shows_every_submitted_job_witness :
  ∃ l, status_POST (Some "list") (state_of one_admitted new_queue) = JobList l ∧
       NoDup (summary_id <$> l) ∧ length l = 4.
Proof.
  destruct (list_shows_every_submitted_job sample_hostname sample_base64url
              sample_toUpperCase one_admitted _ _ one_admitted_runs)
    as [(l & Hl & Hnd & _) _].
  exists l. split; [exact Hl|]. split; [exact Hnd|].
  vm_compute in Hl. injection Hl as <-. reflexivity.
Defined.


(** The job of [audio_request]. *)
Lemma queued_job_options_witness :
  ∃ job key config,
    getJob "job_1000_k3j9x2m1q"
      (DownloadRoute.POST sample_hostname (at_time 1000 "k3j9x2m1q")
         audio_request new_queue).2 = Some job ∧
    DownloadRoute.detectPlatform sample_hostname "https://youtu.be/dQw4w9WgXcQ"
      = Some (key, config) ∧
    key = "youtube" ∧ Job.settings job
    = {| quality := "high"; format := "mp3"; audioOnly := true;
         removeWatermark := false |}.
Proof.
  destruct (queued_job_options sample_hostname (at_time 1000 "k3j9x2m1q")
              "https://youtu.be/dQw4w9WgXcQ"
              (Some {| DownloadSettings.quality := "high";
                       DownloadSettings.format := "webm";
                       DownloadSettings.removeWatermark := false;
                       DownloadSettings.extractAudio := true |})
              new_queue "Video added to processing queue" "job_1000_k3j9x2m1q"
              "/api/download/status?id=job_1000_k3j9x2m1q"
              (DownloadRoute.POST sample_hostname (at_time 1000 "k3j9x2m1q")
                 audio_request new_queue).2 eq_refl)
    as (job & key & config & Hjob & _ & Hs & Hd & _).
  exists job, key, config. split; [exact Hjob|]. split; [exact Hd|].
  split; [|exact Hs]. vm_compute in Hd. by injection Hd as <- _.
Defined.

(** The host of a short YouTube link. *)
Lemma route_platform_known_to_processor_witness :
  ∃ h p,
    sample_hostname "https://youtu.be/dQw4w9WgXcQ" = Some h ∧
    detectPlatform sample_hostname "https://youtu.be/dQw4w9WgXcQ" = Some p ∧
    p = "youtube".
Proof.
  destruct (route_platform_known_to_processor sample_hostname
              "https://youtu.be/dQw4w9WgXcQ" "youtube"
              {| PlatformConfig.name := "YouTube";
                 PlatformConfig.domains := ["youtube.com"; "youtu.be"; "m.youtube.com"];
                 PlatformConfig.supportedQualities :=
                   ["2160p"; "1440p"; "1080p"; "720p"; "480p"; "360p"];
                 PlatformConfig.hasWatermark := false;
                 PlatformConfig.audioExtraction := true |} eq_refl)
    as (h & p & Hh & Hp & _ & _ & _ & Hsame).
  exists h, p. split; [exact Hh|]. split; [exact Hp|].
  vm_compute in Hp. by injection Hp as <-.
Defined.

(** The quality closest to 1080p that TikTok offers, and 720p asked of
    YouTube. *)
Lemma getOptimalQuality_closest_witness :
  DownloadRoute.getOptimalQuality "1080p" ["720p"; "480p"] = Some "720p" ∧
  ∃ q r,
    DownloadRoute.getOptimalQuality "720p"
      ["2160p"; "1440p"; "1080p"; "720p"; "480p"; "360p"] = Some q ∧
    r = 720%Z ∧ q = "720p".
Proof.
  split; [reflexivity|].
  destruct (getOptimalQuality_closest "720p"
              ["2160p"; "1440p"; "1080p"; "720p"; "480p"; "360p"])
    as (q & r & Hq & Hr & _ & Hsame).
  - discriminate.
  - repeat constructor; by eexists.
  - unfold object_prototype_names. rewrite !not_elem_of_cons.
    split_and!; first [discriminate | apply not_elem_of_nil].
  - exists q, r. split; [exact Hq|]. split; [exact Hr|].
    apply Hsame. in_list.
Defined.

(** A quality the table does not have, first in the array. *)
Lemma getOptimalQuality_not_a_number_witness :
  DownloadRoute.getOptimalQuality "720p" ["4320p"; "720p"] = Some "4320p".
Proof.
  exact (getOptimalQuality_not_a_number "720p" "4320p" ["720p"] (or_introl eq_refl)).
Defined.

(** The path [downloadVideo] builds for an [mp4] download. *)
Lemma post_processing_replaces_extension_witness :
  VideoProcessor.removeWatermark "/tmp/downloads/video_1700.mp4" "tiktok"
    = "/tmp/downloads/video_1700.nowatermark.mp4" ∧
  VideoProcessor.processVideo "/tmp/downloads/video_1700.mp4" (sample_options true)
    = "/tmp/downloads/video_1700.processed.mp4" ∧
  VideoProcessor.extractAudio "/tmp/downloads/video_1700.mp4" None
    = "/tmp/downloads/video_1700.mp3".
Proof.
  refine (post_processing_replaces_extension "/tmp/downloads/video_1700" "mp4"
            (sample_options true) None "tiktok" _ _ _ _).
  - discriminate.
  - reflexivity.
  - simpl. intros [H|[H|[H|[]]]]; discriminate H.
  - simpl. intros [H|[H|[H|[]]]]; discriminate H.
Defined.

(** A path whose last dot is in a directory name. *)
Lemma post_processing_without_extension_witness :
  VideoProcessor.removeWatermark "/tmp/v1.2/video" "tiktok" = "/tmp/v1.2/video" ∧
  VideoProcessor.processVideo "/tmp/v1.2/video" (sample_options true)
    = "/tmp/v1.2/video" ∧
  VideoProcessor.extractAudio "/tmp/v1.2/video" None = "/tmp/v1.2/video".
Proof.
  refine (post_processing_without_extension "/tmp/v1.2/video"
            (sample_options true) None "tiktok" _).
  intros (stem & ext & Heq & Hne & Hext).
  pose proof (match_extension_suffix stem ext Hne Hext) as H.
  change (stem +:+ String "."%char ext) with (stem +:+ "." +:+ ext) in H.
  rewrite <-Heq in H. discriminate H.
Defined.


(** ** The validator and the client on sample URLs *)

(** The short YouTube link among the examples. *)
Lemma validateUrl_accepts_examples_witness :
  PlatformValidator.validateUrl sample_hostname "https://youtu.be/dQw4w9WgXcQ"
  = {| PlatformValidator.isValid := true;
       PlatformValidator.platform := Some "YouTube";
       PlatformValidator.error := None;
       PlatformValidator.suggestions := None |}.
Proof.
  destruct (PlatformValidator.PLATFORM_PATTERNS !! 2) as [[key config]|] eqn:E;
    [|discriminate E].
  pose proof (list_elem_of_lookup_2 _ _ _ E) as Hin.
  injection E as <- <-.
  refine (validateUrl_accepts_examples sample_hostname _ _
            "https://youtu.be/dQw4w9WgXcQ" Hin _ _).
  - simpl. in_list.
  - by eexists.
Defined.


(** A host the client and the route both take for YouTube. *)
Lemma client_accepts_what_route_detects_witness :
  VideoDownloader.validateUrl sample_hostname "https://m.youtube.com/watch?v=abc"
  = {| VideoDownloader.isValid := true;
       VideoDownloader.platform := Some "YouTube";
       VideoDownloader.error := None |} ∧
  (VideoDownloader.isValid
     (VideoDownloader.validateUrl sample_hostname "https://m.youtube.com/watch?v=abc")
   = true ↔
   is_Some (DownloadRoute.detectPlatform sample_hostname
              "https://m.youtube.com/watch?v=abc")).
Proof.
  split; [reflexivity|].
  exact (proj1 (client_accepts_what_route_detects sample_hostname sample_hostname
                  "https://m.youtube.com/watch?v=abc" eq_refl)).
Defined.

(** ** The running activations and the course of a job, on samples *)

Lemma three_admitted_runs :
  sample_run three_admitted (queue_with_limit 3)
  = Some (outputs_of three_admitted (queue_with_limit 3),
          state_of three_admitted (queue_with_limit 3)).
Proof. vm_compute. reflexivity. Defined.

Lemma youtube_admitted_runs :
  sample_run youtube_admitted new_queue
  = Some (outputs_of youtube_admitted new_queue, state_of youtube_admitted new_queue).
Proof. vm_compute. reflexivity. Defined.

(** Of four submitted jobs, three run. *)
Lemma running_activations_bounded_witness :
  length (suspended (state_of three_admitted (queue_with_limit 3)))
  = size (activeJobs (state_of three_admitted (queue_with_limit 3))) ∧
  length (suspended (state_of three_admitted (queue_with_limit 3))) ≤ 3 ∧
  length (suspended (state_of three_admitted (queue_with_limit 3))) = 3.
Proof.
  assert (NoDup (returned (outputs_of three_admitted (queue_with_limit 3)))) as Hnd.
  { apply (bool_decide_unpack _). vm_compute. exact I. }
  destruct (running_activations_bounded sample_hostname sample_base64url
              sample_toUpperCase 3 three_admitted
              (outputs_of three_admitted (queue_with_limit 3))
              (state_of three_admitted (queue_with_limit 3))
              three_admitted_runs Hnd) as (_ & _ & Hlen & Hle).
  split; [exact Hlen|]. split; [exact Hle|]. vm_compute. reflexivity.
Defined.

